(** * Retro Vault runner: the simulation core of [startGame]

    A shallow embedding of the simulation engine of the side-scrolling
    runner (physics and actor control, collision resolver, entity store,
    pacing model, spawn director, run state machine) together with the
    properties its specification states about it, followed by further
    properties of the engine, of the frame loop and of what is put on the
    canvas.

    Conventions of the embedding.
    - A JavaScript [number] is an exact rational ([Q]); the 32-bit integer
      operators used by the shape generator ([>>>], [^], [|], [Math.imul])
      are written out on [Z] with their wrap-around.
    - The mutable variables captured by the closure of [startGame] are the
      fields of one record, [Game]; a function of the source that reads
      them is a function of [Game], one that assigns them or draws from
      [Math.random] is a computation in the state monad [M].
    - [Math.random] reads the next element of a stream of draws carried
      by the state ([entropy], consumed at index [drawn]).
    - DOM, canvas and storage effects ([setScoreUI], [setStatusUI],
      [localStorage.setItem], the drawing routines) leave the simulation
      state untouched and are not represented, but for the placement that
      [present] computes and the line that [drawGroundStrip] draws, which
      are given as values. *)

From Stdlib Require Import QArith Qminmax Qround Lqa ZArith List String Bool Lia.
From Stdlib Require Import RelationClasses.
Import ListNotations.
Open Scope Q_scope.

(** ** Numbers *)

Definition Qltb (a b : Q) : bool := negb (Qle_bool b a).
Definition Qleb (a b : Q) : bool := Qle_bool a b.
Definition Qgtb (a b : Q) : bool := Qltb b a.
Definition Qgeb (a b : Q) : bool := Qleb b a.

Infix "<?" := Qltb (at level 70, no associativity) : Q_scope.
Infix "<=?" := Qleb (at level 70, no associativity) : Q_scope.
Infix ">?" := Qgtb (at level 70, no associativity) : Q_scope.
Infix ">=?" := Qgeb (at level 70, no associativity) : Q_scope.

Definition Math_max (a b : Q) : Q := Qmax a b.
Definition Math_min (a b : Q) : Q := Qmin a b.
Definition Math_floor (q : Q) : Q := inject_Z (Qfloor q).
Definition Math_round (q : Q) : Q := inject_Z (Qfloor (q + 0.5)).

(* function clamp(n, a, b) { return Math.max(a, Math.min(b, n)); } *)
Definition clamp (n a b : Q) : Q := Math_max a (Math_min b n).

(* function snapTo(n, step) { return Math.round(n / step) * step; } *)
Definition snapTo (n step : Q) : Q := Math_round (n / step) * step.

(** 32-bit integer conversions and operators. *)
Definition toUint32 (z : Z) : Z := (z mod 2 ^ 32)%Z.
Definition toInt32 (z : Z) : Z :=
  let u := toUint32 z in if (u <? 2 ^ 31)%Z then u else (u - 2 ^ 32)%Z.
Definition Math_imul (a b : Z) : Z := toInt32 (toInt32 a * toInt32 b).
Definition ushr (a : Z) (n : Z) : Z := Z.shiftr (toUint32 a) n.
Definition bxor (a b : Z) : Z := Z.lxor (toInt32 a) (toInt32 b).
Definition bor (a b : Z) : Z := Z.lor (toInt32 a) (toInt32 b).
(* the integer part of a number, rounding toward zero *)
Definition truncZ (q : Q) : Z := if (0 <=? Qnum q)%Z then Qfloor q else Qceiling q.
(* [q | 0] *)
Definition bor0 (q : Q) : Z := toInt32 (truncZ q).

(** ** Data model *)

Inductive GameState := READY | RUNNING | GAMEOVER.
Inductive ObKind := CACTUS | FLYER | PIT.
Inductive Stage := EARLY | MID | LATE.

Inductive GroundVariant :=
  | CACTUS_SINGLE
  | CACTUS_TALL
  | CACTUS_WIDE
  | CACTUS_CLUSTER_2
  | CACTUS_CLUSTER_3
  | ROCK_LOW
  | ROCK_WIDE
  | ROCK_STACK
  | STUMP.

(** The flight levels [0 | 1 | 2]. *)
Inductive FlyLevel := Level0 | Level1 | Level2.

Definition GameState_eqb (a b : GameState) : bool :=
  match a, b with
  | READY, READY | RUNNING, RUNNING | GAMEOVER, GAMEOVER => true
  | _, _ => false
  end.
Definition ObKind_eqb (a b : ObKind) : bool :=
  match a, b with
  | CACTUS, CACTUS | FLYER, FLYER | PIT, PIT => true
  | _, _ => false
  end.
Definition Stage_eqb (a b : Stage) : bool :=
  match a, b with
  | EARLY, EARLY | MID, MID | LATE, LATE => true
  | _, _ => false
  end.
Definition FlyLevel_eqb (a b : FlyLevel) : bool :=
  match a, b with
  | Level0, Level0 | Level1, Level1 | Level2, Level2 => true
  | _, _ => false
  end.

(* type Ob: the optional fields are present only for some kinds *)
Record Ob := mkOb {
  ob_kind : ObKind;
  ob_x : Q;
  ob_y : Q;
  ob_w : Q;
  ob_h : Q;
  ob_flightLevel : option FlyLevel;
  ob_variant : option GroundVariant;
  ob_seed : option Z;
  ob_hardness : option Q
}.

Record Cloud := mkCloud {
  cloud_x : Q;
  cloud_y : Q;
  cloud_scale : Q;
  cloud_speedMul : Q
}.

Record Particle := mkParticle {
  pt_x : Q;
  pt_y : Q;
  pt_vx : Q;
  pt_vy : Q;
  pt_life : Q;
  pt_max : Q;
  pt_size : Q
}.

Inductive PatternStep :=
  | StepCactus (gapBase : Q) (tallBias : option Q)
  | StepFlyer (gapBase : Q) (level : option FlyLevel)
  | StepPit (gapBase : Q) (width : option Q).

Definition step_gapBase (s : PatternStep) : Q :=
  match s with
  | StepCactus g _ | StepFlyer g _ | StepPit g _ => g
  end.

(* the hit-rectangles handed to [aabb] *)
Record Rect := mkRect { rx : Q; ry : Q; rw : Q; rh : Q }.

(** ** Constants *)

Definition BASE_VIEW_H : Q := 360.
Definition MIN_VIEW_W : Q := 640.
Definition MAX_VIEW_W : Q := 1280.
Definition SNAP : Q := 16.

Definition GRAVITY : Q := 1800.
Definition JUMP_VELOCITY : Q := -640.
Definition JUMP_CUT_VELOCITY : Q := -220.

Definition COYOTE_TIME : Q := 0.10.
Definition JUMP_BUFFER_TIME : Q := 0.12.

Definition MAX_JUMP_HOLD : Q := 0.16.
Definition HOLD_GRAVITY_MULT : Q := 0.55.
Definition FAST_FALL_MULT : Q := 1.85.

Definition HIT_PAD : Q := 4.

Definition STAND_W : Q := 32.
Definition STAND_H : Q := 32.
Definition DUCK_W : Q := 32.
Definition DUCK_H : Q := 24.

Definition FIXED_DT : Q := 1 / 120.
Definition MAX_ACCUM : Q := 0.25.

Definition PIT_MIN_W : Q := 90.
Definition PIT_MAX_W_HARDCAP : Q := 240.
Definition PIT_VISUAL_DEPTH : Q := 84.

Definition PIT_SPAWN_SCORE_GATE : Q := 120.
Definition PIT_BASE_CHANCE : Q := 0.12.
Definition PIT_DIFFICULTY_BONUS : Q := 0.16.

Definition PIT_FALL_LOCK_DEPTH : Q := 8.

Definition PATTERN_SCORE_GATE : Q := 260.
Definition SAFE_AFTER_PIT_DIST : Q := 240.
Definition SAFE_AFTER_LOW_FLYER_DIST : Q := 220.

Definition FAR_MUL : Q := 0.18.
Definition MID_MUL : Q := 0.35.
Definition NEAR_MUL : Q := 0.55.

(** ** The state captured by [startGame] *)

Record View := mkView {
  viewW : Q;
  viewH : Q;
  groundY : Q
}.

Record Run := mkRun {
  state : GameState;
  worldSpeed : Q;
  score : Q;
  animTime : Q;
  best : Q
}.

Record Dino := mkDino {
  dino_x : Q;
  dino_y : Q;
  dino_w : Q;
  dino_h : Q;
  dino_vy : Q;
  dino_onGround : bool;
  dino_ducking : bool
}.

Record Sched := mkSched {
  distSinceSpawn : Q;
  nextSpawnDist : Q;
  lastKind : ObKind;
  lastFlyLevel : FlyLevel;
  lastSpawnHardness : Q;
  lastSpawnWasHard : bool;
  patternQueue : option (list PatternStep);
  patternCooldownDist : Q;
  recentPatterns : list string;
  guardAfterPit : Q;
  guardAfterLowFlyer : Q
}.

Record Input := mkInput {
  jumpDown : bool;
  downDown : bool;
  jumpBuffer : Q;
  coyote : Q;
  jumpHold : Q;
  showHitboxes : bool
}.

Record Scenery := mkScenery {
  farOff : Q;
  midOff : Q;
  nearOff : Q;
  groundOff : Q;
  clouds : list Cloud;
  nextCloudSpawn : Q;
  particles : list Particle
}.

Record Game := mkGame {
  view : View;
  run : Run;
  dino : Dino;
  obs : list Ob;
  sched : Sched;
  input : Input;
  scenery : Scenery;
  pitFall : bool;
  entropy : nat -> Q;
  drawn : nat
}.

(** Assignments to one variable; every other variable keeps its value. *)

Definition with_view v (g : Game) : Game :=
  mkGame v (run g) (dino g) (obs g) (sched g) (input g) (scenery g) (pitFall g) (entropy g) (drawn g).
Definition with_run v (g : Game) : Game :=
  mkGame (view g) v (dino g) (obs g) (sched g) (input g) (scenery g) (pitFall g) (entropy g) (drawn g).
Definition with_dino v (g : Game) : Game :=
  mkGame (view g) (run g) v (obs g) (sched g) (input g) (scenery g) (pitFall g) (entropy g) (drawn g).
Definition with_obs v (g : Game) : Game :=
  mkGame (view g) (run g) (dino g) v (sched g) (input g) (scenery g) (pitFall g) (entropy g) (drawn g).
Definition with_sched v (g : Game) : Game :=
  mkGame (view g) (run g) (dino g) (obs g) v (input g) (scenery g) (pitFall g) (entropy g) (drawn g).
Definition with_input v (g : Game) : Game :=
  mkGame (view g) (run g) (dino g) (obs g) (sched g) v (scenery g) (pitFall g) (entropy g) (drawn g).
Definition with_scenery v (g : Game) : Game :=
  mkGame (view g) (run g) (dino g) (obs g) (sched g) (input g) v (pitFall g) (entropy g) (drawn g).
Definition with_pitFall v (g : Game) : Game :=
  mkGame (view g) (run g) (dino g) (obs g) (sched g) (input g) (scenery g) v (entropy g) (drawn g).
Definition with_entropy v (g : Game) : Game :=
  mkGame (view g) (run g) (dino g) (obs g) (sched g) (input g) (scenery g) (pitFall g) v (drawn g).
Definition with_drawn v (g : Game) : Game :=
  mkGame (view g) (run g) (dino g) (obs g) (sched g) (input g) (scenery g) (pitFall g) (entropy g) v.

Definition set_viewW v (g : Game) : Game :=
  with_view (let r := view g in mkView v (viewH r) (groundY r)) g.
Definition set_viewH v (g : Game) : Game :=
  with_view (let r := view g in mkView (viewW r) v (groundY r)) g.
Definition set_groundY v (g : Game) : Game :=
  with_view (let r := view g in mkView (viewW r) (viewH r) v) g.

Definition set_state v (g : Game) : Game :=
  with_run (let r := run g in mkRun v (worldSpeed r) (score r) (animTime r) (best r)) g.
Definition set_worldSpeed v (g : Game) : Game :=
  with_run (let r := run g in mkRun (state r) v (score r) (animTime r) (best r)) g.
Definition set_score v (g : Game) : Game :=
  with_run (let r := run g in mkRun (state r) (worldSpeed r) v (animTime r) (best r)) g.
Definition set_animTime v (g : Game) : Game :=
  with_run (let r := run g in mkRun (state r) (worldSpeed r) (score r) v (best r)) g.
Definition set_best v (g : Game) : Game :=
  with_run (let r := run g in mkRun (state r) (worldSpeed r) (score r) (animTime r) v) g.

Definition set_dino_x v (g : Game) : Game :=
  with_dino (let r := dino g in mkDino v (dino_y r) (dino_w r) (dino_h r) (dino_vy r) (dino_onGround r) (dino_ducking r)) g.
Definition set_dino_y v (g : Game) : Game :=
  with_dino (let r := dino g in mkDino (dino_x r) v (dino_w r) (dino_h r) (dino_vy r) (dino_onGround r) (dino_ducking r)) g.
Definition set_dino_w v (g : Game) : Game :=
  with_dino (let r := dino g in mkDino (dino_x r) (dino_y r) v (dino_h r) (dino_vy r) (dino_onGround r) (dino_ducking r)) g.
Definition set_dino_h v (g : Game) : Game :=
  with_dino (let r := dino g in mkDino (dino_x r) (dino_y r) (dino_w r) v (dino_vy r) (dino_onGround r) (dino_ducking r)) g.
Definition set_dino_vy v (g : Game) : Game :=
  with_dino (let r := dino g in mkDino (dino_x r) (dino_y r) (dino_w r) (dino_h r) v (dino_onGround r) (dino_ducking r)) g.
Definition set_dino_onGround v (g : Game) : Game :=
  with_dino (let r := dino g in mkDino (dino_x r) (dino_y r) (dino_w r) (dino_h r) (dino_vy r) v (dino_ducking r)) g.
Definition set_dino_ducking v (g : Game) : Game :=
  with_dino (let r := dino g in mkDino (dino_x r) (dino_y r) (dino_w r) (dino_h r) (dino_vy r) (dino_onGround r) v) g.

Definition set_distSinceSpawn v (g : Game) : Game :=
  with_sched (let r := sched g in mkSched v (nextSpawnDist r) (lastKind r) (lastFlyLevel r) (lastSpawnHardness r) (lastSpawnWasHard r) (patternQueue r) (patternCooldownDist r) (recentPatterns r) (guardAfterPit r) (guardAfterLowFlyer r)) g.
Definition set_nextSpawnDist v (g : Game) : Game :=
  with_sched (let r := sched g in mkSched (distSinceSpawn r) v (lastKind r) (lastFlyLevel r) (lastSpawnHardness r) (lastSpawnWasHard r) (patternQueue r) (patternCooldownDist r) (recentPatterns r) (guardAfterPit r) (guardAfterLowFlyer r)) g.
Definition set_lastKind v (g : Game) : Game :=
  with_sched (let r := sched g in mkSched (distSinceSpawn r) (nextSpawnDist r) v (lastFlyLevel r) (lastSpawnHardness r) (lastSpawnWasHard r) (patternQueue r) (patternCooldownDist r) (recentPatterns r) (guardAfterPit r) (guardAfterLowFlyer r)) g.
Definition set_lastFlyLevel v (g : Game) : Game :=
  with_sched (let r := sched g in mkSched (distSinceSpawn r) (nextSpawnDist r) (lastKind r) v (lastSpawnHardness r) (lastSpawnWasHard r) (patternQueue r) (patternCooldownDist r) (recentPatterns r) (guardAfterPit r) (guardAfterLowFlyer r)) g.
Definition set_lastSpawnHardness v (g : Game) : Game :=
  with_sched (let r := sched g in mkSched (distSinceSpawn r) (nextSpawnDist r) (lastKind r) (lastFlyLevel r) v (lastSpawnWasHard r) (patternQueue r) (patternCooldownDist r) (recentPatterns r) (guardAfterPit r) (guardAfterLowFlyer r)) g.
Definition set_lastSpawnWasHard v (g : Game) : Game :=
  with_sched (let r := sched g in mkSched (distSinceSpawn r) (nextSpawnDist r) (lastKind r) (lastFlyLevel r) (lastSpawnHardness r) v (patternQueue r) (patternCooldownDist r) (recentPatterns r) (guardAfterPit r) (guardAfterLowFlyer r)) g.
Definition set_patternQueue v (g : Game) : Game :=
  with_sched (let r := sched g in mkSched (distSinceSpawn r) (nextSpawnDist r) (lastKind r) (lastFlyLevel r) (lastSpawnHardness r) (lastSpawnWasHard r) v (patternCooldownDist r) (recentPatterns r) (guardAfterPit r) (guardAfterLowFlyer r)) g.
Definition set_patternCooldownDist v (g : Game) : Game :=
  with_sched (let r := sched g in mkSched (distSinceSpawn r) (nextSpawnDist r) (lastKind r) (lastFlyLevel r) (lastSpawnHardness r) (lastSpawnWasHard r) (patternQueue r) v (recentPatterns r) (guardAfterPit r) (guardAfterLowFlyer r)) g.
Definition set_recentPatterns v (g : Game) : Game :=
  with_sched (let r := sched g in mkSched (distSinceSpawn r) (nextSpawnDist r) (lastKind r) (lastFlyLevel r) (lastSpawnHardness r) (lastSpawnWasHard r) (patternQueue r) (patternCooldownDist r) v (guardAfterPit r) (guardAfterLowFlyer r)) g.
Definition set_guardAfterPit v (g : Game) : Game :=
  with_sched (let r := sched g in mkSched (distSinceSpawn r) (nextSpawnDist r) (lastKind r) (lastFlyLevel r) (lastSpawnHardness r) (lastSpawnWasHard r) (patternQueue r) (patternCooldownDist r) (recentPatterns r) v (guardAfterLowFlyer r)) g.
Definition set_guardAfterLowFlyer v (g : Game) : Game :=
  with_sched (let r := sched g in mkSched (distSinceSpawn r) (nextSpawnDist r) (lastKind r) (lastFlyLevel r) (lastSpawnHardness r) (lastSpawnWasHard r) (patternQueue r) (patternCooldownDist r) (recentPatterns r) (guardAfterPit r) v) g.

Definition set_jumpDown v (g : Game) : Game :=
  with_input (let r := input g in mkInput v (downDown r) (jumpBuffer r) (coyote r) (jumpHold r) (showHitboxes r)) g.
Definition set_downDown v (g : Game) : Game :=
  with_input (let r := input g in mkInput (jumpDown r) v (jumpBuffer r) (coyote r) (jumpHold r) (showHitboxes r)) g.
Definition set_jumpBuffer v (g : Game) : Game :=
  with_input (let r := input g in mkInput (jumpDown r) (downDown r) v (coyote r) (jumpHold r) (showHitboxes r)) g.
Definition set_coyote v (g : Game) : Game :=
  with_input (let r := input g in mkInput (jumpDown r) (downDown r) (jumpBuffer r) v (jumpHold r) (showHitboxes r)) g.
Definition set_jumpHold v (g : Game) : Game :=
  with_input (let r := input g in mkInput (jumpDown r) (downDown r) (jumpBuffer r) (coyote r) v (showHitboxes r)) g.
Definition set_showHitboxes v (g : Game) : Game :=
  with_input (let r := input g in mkInput (jumpDown r) (downDown r) (jumpBuffer r) (coyote r) (jumpHold r) v) g.

Definition set_farOff v (g : Game) : Game :=
  with_scenery (let r := scenery g in mkScenery v (midOff r) (nearOff r) (groundOff r) (clouds r) (nextCloudSpawn r) (particles r)) g.
Definition set_midOff v (g : Game) : Game :=
  with_scenery (let r := scenery g in mkScenery (farOff r) v (nearOff r) (groundOff r) (clouds r) (nextCloudSpawn r) (particles r)) g.
Definition set_nearOff v (g : Game) : Game :=
  with_scenery (let r := scenery g in mkScenery (farOff r) (midOff r) v (groundOff r) (clouds r) (nextCloudSpawn r) (particles r)) g.
Definition set_groundOff v (g : Game) : Game :=
  with_scenery (let r := scenery g in mkScenery (farOff r) (midOff r) (nearOff r) v (clouds r) (nextCloudSpawn r) (particles r)) g.
Definition set_clouds v (g : Game) : Game :=
  with_scenery (let r := scenery g in mkScenery (farOff r) (midOff r) (nearOff r) (groundOff r) v (nextCloudSpawn r) (particles r)) g.
Definition set_nextCloudSpawn v (g : Game) : Game :=
  with_scenery (let r := scenery g in mkScenery (farOff r) (midOff r) (nearOff r) (groundOff r) (clouds r) v (particles r)) g.
Definition set_particles v (g : Game) : Game :=
  with_scenery (let r := scenery g in mkScenery (farOff r) (midOff r) (nearOff r) (groundOff r) (clouds r) (nextCloudSpawn r) v) g.

Definition set_obs v (g : Game) : Game := with_obs v g.
Definition set_pitFall v (g : Game) : Game := with_pitFall v g.
Definition set_drawn v (g : Game) : Game := with_drawn v g.

(** ** The state monad of the closure *)

Definition M (A : Type) : Type := Game -> A * Game.

Definition ret {A : Type} (a : A) : M A := fun g => (a, g).
Definition bind {A B : Type} (m : M A) (k : A -> M B) : M B :=
  fun g => let r := m g in k (fst r) (snd r).
Definition gets {A : Type} (f : Game -> A) : M A := fun g => (f g, g).
Definition modify (f : Game -> Game) : M unit := fun g => (tt, f g).
Definition exec {A : Type} (m : M A) (g : Game) : Game := snd (m g).
Definition eval {A : Type} (m : M A) (g : Game) : A := fst (m g).

Declare Scope game_scope.
Delimit Scope game_scope with game.
Notation "x <- m ;; k" := (bind m (fun x => k))
  (at level 61, m at next level, right associativity) : game_scope.
Notation "m ;; k" := (bind m (fun _ => k))
  (at level 61, right associativity) : game_scope.
Open Scope game_scope.

(* [a && m()]: the right operand runs only when the left one holds *)
Definition andM (a : bool) (m : M bool) : M bool := if a then m else ret false.
Definition when (a : bool) (m : M unit) : M unit := if a then m else ret tt.

(** [Math.random()]: the next draw of the stream. *)
Definition Math_random : M Q :=
  fun g => (entropy g (drawn g), set_drawn (S (drawn g)) g).

(** ** Utilities *)

Definition rand (min max : Q) : M Q :=
  r <- Math_random ;; ret (min + r * (max - min)).

Definition speedFactor (g : Game) : Q := clamp (worldSpeed (run g) / 260) 1 2.35.
Definition scaledGap (base : Q) (g : Game) : Q := base * speedFactor g.
Definition difficulty01 (g : Game) : Q := clamp ((worldSpeed (run g) - 260) / 700) 0 1.

Definition stage (g : Game) : Stage :=
  if score (run g) <? 600 then EARLY
  else if score (run g) <? 1600 then MID
  else LATE.

Definition jitter (n amount : Q) : M Q :=
  r <- rand (- amount) amount ;; ret (n + r).

(* one iteration of the loop of [spawnDust] *)
Definition spawnDust1 (x y intensity : Q) : M unit :=
  l <- rand 0.10 0.22 ;;
  let life := l * intensity in
  jx <- rand (-6) 6 ;;
  jy <- rand (-4) 4 ;;
  vx <- rand (-160) (-60) ;;
  vy <- rand (-90) 40 ;;
  size <- rand 2 4 ;;
  modify (fun g => set_particles
    (particles (scenery g) ++
     [mkParticle (x + jx) (y + jy) (vx * intensity) (vy * intensity) life life size]) g).

Fixpoint spawnDust (x y : Q) (count : nat) (intensity : Q) : M unit :=
  match count with
  | O => ret tt
  | S n => spawnDust1 x y intensity ;; spawnDust x y n intensity
  end.

(** The per-obstacle shape generator. [mulberry32 seed] is the initial
    value of the captured counter [t]; [mulberry32_next] is one call of the
    returned closure, giving the draw and the new value of [t]. *)
Definition mulberry32 (seed : Z) : Z := ushr seed 0.

Definition mulberry32_next (t : Z) : Q * Z :=
  let t := (t + 0x6d2b79f5)%Z in
  let r := Math_imul (bxor t (ushr t 15)) (bor 1 t) in
  let r := bxor r (r + Math_imul (bxor r (ushr r 7)) (bor 61 r))%Z in
  (inject_Z (ushr (bxor r (ushr r 14)) 0) / 4294967296, t).

Definition seedInt : M Z :=
  r <- Math_random ;; ret (bor0 (r * 0x7fffffff)).

(** ** Resize *)

(* [rectW], [rectH]: the size reported by [canvas.getBoundingClientRect()] *)
Definition resize (rectW rectH : Q) (g : Game) : Game :=
  let screenW := Math_max 1 (Math_floor rectW) in
  let screenH := Math_max 1 (Math_floor rectH) in
  let g := set_viewH BASE_VIEW_H g in
  let aspect := screenW / screenH in
  let targetW := Math_round (viewH (view g) * aspect) in
  let snappedW := snapTo targetW SNAP in
  let g := set_viewW (clamp snappedW MIN_VIEW_W MAX_VIEW_W) g in
  let g := set_groundY 272 g in
  let baseX := clamp (Math_round (viewW (view g) * 0.14)) 86 140 in
  let g := set_dino_x (clamp baseX 70 (Math_max 70 (viewW (view g) - 140))) g in
  if dino_onGround (dino g) then
    let g := set_dino_y (groundY (view g) - dino_h (dino g)) g in
    set_dino_vy 0 g
  else
    set_dino_y (Math_min (dino_y (dino g)) (groundY (view g) - dino_h (dino g))) g.

(** ** Reset *)

(* the two iterations of the cloud loop of [resetToReady] *)
Definition pushStartCloud : M unit :=
  vw <- gets (fun g => viewW (view g)) ;;
  gy <- gets (fun g => groundY (view g)) ;;
  x <- rand 20 (vw - 60) ;;
  y <- rand 18 (Math_max 34 (gy - 90)) ;;
  scale <- rand 0.85 1.25 ;;
  speedMul <- rand 0.10 0.26 ;;
  modify (fun g => set_clouds (clouds (scenery g) ++ [mkCloud x y scale speedMul]) g).

Definition resetToReady : M unit :=
  modify (set_state READY) ;;

  modify (set_worldSpeed 260) ;;
  modify (set_score 0) ;;
  modify (set_animTime 0) ;;

  modify (set_dino_ducking false) ;;
  modify (set_dino_w STAND_W) ;;
  modify (set_dino_h STAND_H) ;;
  modify (set_dino_vy 0) ;;
  modify (set_dino_onGround true) ;;
  modify (fun g => set_dino_y (groundY (view g) - dino_h (dino g)) g) ;;

  modify (set_obs []) ;;

  modify (set_clouds []) ;;
  pushStartCloud ;;
  pushStartCloud ;;
  n <- rand 0.7 1.4 ;;
  modify (set_nextCloudSpawn n) ;;

  modify (set_distSinceSpawn 0) ;;
  modify (set_nextSpawnDist 360) ;;

  modify (set_farOff 0) ;;
  modify (set_midOff 0) ;;
  modify (set_nearOff 0) ;;
  modify (set_groundOff 0) ;;

  modify (set_lastKind CACTUS) ;;
  modify (set_lastFlyLevel Level1) ;;

  modify (set_lastSpawnHardness 0.55) ;;
  modify (set_lastSpawnWasHard false) ;;

  modify (set_patternQueue None) ;;
  modify (set_patternCooldownDist 0) ;;
  modify (set_recentPatterns []) ;;

  modify (set_guardAfterPit 0) ;;
  modify (set_guardAfterLowFlyer 0) ;;

  modify (set_jumpBuffer 0) ;;
  modify (set_coyote COYOTE_TIME) ;;
  modify (set_jumpHold 0) ;;

  modify (set_particles []) ;;
  modify (set_pitFall false).

Definition startRunFresh (g : Game) : Game :=
  let g := set_state RUNNING g in

  let g := set_worldSpeed 260 g in
  let g := set_score 0 g in
  let g := set_animTime 0 g in

  let g := set_dino_ducking false g in
  let g := set_dino_w STAND_W g in
  let g := set_dino_h STAND_H g in
  let g := set_dino_vy 0 g in
  let g := set_dino_onGround true g in
  let g := set_dino_y (groundY (view g) - dino_h (dino g)) g in

  let g := set_obs [] g in

  let g := set_distSinceSpawn 0 g in
  let g := set_nextSpawnDist 320 g in

  let g := set_farOff 0 g in
  let g := set_midOff 0 g in
  let g := set_nearOff 0 g in
  let g := set_groundOff 0 g in

  let g := set_lastKind CACTUS g in
  let g := set_lastFlyLevel Level1 g in

  let g := set_lastSpawnHardness 0.55 g in
  let g := set_lastSpawnWasHard false g in

  let g := set_patternQueue None g in
  let g := set_patternCooldownDist 0 g in
  let g := set_recentPatterns [] g in

  let g := set_guardAfterPit 0 g in
  let g := set_guardAfterLowFlyer 0 g in

  let g := set_coyote COYOTE_TIME g in
  let g := set_jumpHold 0 g in

  set_pitFall false g.

Definition restartRun (g : Game) : Game := startRunFresh g.

Definition gameOver (g : Game) : Game :=
  let g := set_state GAMEOVER g in
  let s := Math_floor (score (run g)) in
  if s >? best (run g) then set_best s g else g.

(** ** Jump and duck *)

Definition queueJump (g : Game) : Game := set_jumpBuffer JUMP_BUFFER_TIME g.

Definition cutJumpIfNeeded (g : Game) : Game :=
  if dino_vy (dino g) <? JUMP_CUT_VELOCITY then set_dino_vy JUMP_CUT_VELOCITY g else g.

Definition applyDuckVisual (duck : bool) (g : Game) : Game :=
  if negb (dino_onGround (dino g)) then set_dino_ducking false g
  else if duck && negb (dino_ducking (dino g)) then
    let g := set_dino_ducking true g in
    let g := set_dino_w DUCK_W g in
    let g := set_dino_h DUCK_H g in
    set_dino_y (groundY (view g) - dino_h (dino g)) g
  else if negb duck && dino_ducking (dino g) then
    let g := set_dino_ducking false g in
    let g := set_dino_w STAND_W g in
    let g := set_dino_h STAND_H g in
    set_dino_y (groundY (view g) - dino_h (dino g)) g
  else g.

Definition performJump : M unit :=
  modify (set_dino_ducking false) ;;
  modify (set_dino_w STAND_W) ;;
  modify (set_dino_h STAND_H) ;;
  modify (fun g => set_dino_y (groundY (view g) - dino_h (dino g)) g) ;;

  modify (set_dino_vy JUMP_VELOCITY) ;;
  modify (set_dino_onGround false) ;;

  x <- gets (fun g => dino_x (dino g) + 10) ;;
  y <- gets (fun g => groundY (view g) - 8) ;;
  spawnDust x y 10 1 ;;
  modify (set_jumpHold 0) ;;
  modify (set_coyote 0) ;;
  modify (set_jumpBuffer 0).

Definition tryConsumeJump : M unit :=
  jb <- gets (fun g => jumpBuffer (input g)) ;;
  if jb <=? 0 then ret tt
  else
    st <- gets (fun g => state (run g)) ;;
    when (GameState_eqb st READY) (modify startRunFresh) ;;
    st <- gets (fun g => state (run g)) ;;
    if negb (GameState_eqb st RUNNING) then ret tt
    else
      canJump <- gets (fun g => dino_onGround (dino g) || (coyote (input g) >? 0)) ;;
      when canJump performJump.

(** ** Hitboxes *)

Definition dinoHitbox (g : Game) : Rect :=
  let d := dino g in
  mkRect (dino_x d + HIT_PAD) (dino_y d + HIT_PAD)
         (dino_w d - HIT_PAD * 2) (dino_h d - HIT_PAD * 2).

Definition obHitbox (o : Ob) : Rect :=
  let pad := if ObKind_eqb (ob_kind o) FLYER then 6 else HIT_PAD in
  mkRect (ob_x o + pad) (ob_y o + pad) (ob_w o - pad * 2) (ob_h o - pad * 2).

Definition aabb (a b : Rect) : bool :=
  negb ((rx a + rw a <? rx b) || (rx a >? rx b + rw b)
        || (ry a + rh a <? ry b) || (ry a >? ry b + rh b)).

(** ** Pits *)

Definition isOverPit (g : Game) : bool :=
  let footA := dino_x (dino g) + dino_w (dino g) * 0.28 in
  let footB := dino_x (dino g) + dino_w (dino g) * 0.78 in
  existsb (fun o =>
    if negb (ObKind_eqb (ob_kind o) PIT) then false
    else
      let a := ob_x o + 4 in
      let b := ob_x o + ob_w o - 4 in
      (footB >? a) && (footA <? b)) (obs g).

(** ** Spawn helpers *)

Definition maxGroundWidthCap (g : Game) : Q :=
  let st := stage g in
  let base := match st with EARLY => 115 | MID => 155 | LATE => 190 end in
  let extra := clamp ((worldSpeed (run g) - 260) * 0.08) 0
                     (match st with LATE => 70 | _ => 55 end) in
  let cap := base + extra in
  let cap := if guardAfterPit (sched g) >? 0 then cap - 35 else cap in
  let cap := if (guardAfterLowFlyer (sched g) >? 0) && negb (Stage_eqb st LATE)
             then cap - 20 else cap in
  clamp cap 90 250.

Definition maxGroundHeightCap (g : Game) : Q :=
  let st := stage g in
  let base := match st with EARLY => 72 | MID => 82 | LATE => 90 end in
  base.

Definition computeGroundHardness (w h : Q) (v : GroundVariant) (g : Game) : Q :=
  let wCap := maxGroundWidthCap g in
  let hCap := maxGroundHeightCap g in
  let wN := clamp (w / wCap) 0 1.25 in
  let hN := clamp (h / hCap) 0 1.25 in
  let bonus :=
    match v with
    | CACTUS_TALL => 0 + 0.10
    | CACTUS_WIDE => 0 + 0.18
    | CACTUS_CLUSTER_2 => 0 + 0.28
    | CACTUS_CLUSTER_3 => 0 + 0.38
    | ROCK_WIDE => 0 + 0.16
    | ROCK_STACK => 0 + 0.22
    | STUMP => 0 + 0.14
    | CACTUS_SINGLE | ROCK_LOW => 0
    end in
  let hard := 0.35 + wN * 0.55 + hN * 0.35 + bonus in
  clamp hard 0.30 1.60.

(* [for (const p of pool) { r -= p.w; if (r <= 0) return p; }]: the first
   entry at which the running remainder is exhausted, if any *)
Fixpoint weightedScan {A : Type} (weight : A -> Q) (pool : list A) (r : Q) : option A :=
  match pool with
  | [] => None
  | p :: rest =>
      let r := r - weight p in
      if r <=? 0 then Some p else weightedScan weight rest r
  end.

Definition sumWeights {A : Type} (weight : A -> Q) (pool : list A) : Q :=
  fold_left (fun total p => total + weight p) pool 0.

Definition pickGroundVariant (tallBias : Q) : M GroundVariant := fun g =>
  let st := stage g in
  let d := difficulty01 g in
  let afterPit := (guardAfterPit (sched g) >? 0) || ObKind_eqb (lastKind (sched g)) PIT in
  let afterLowFly := guardAfterLowFlyer (sched g) >? 0 in

  let wSingle := match st with EARLY => 4.6 | MID => 3.2 | LATE => 2.4 end in
  let wTall := match st with EARLY => 2.2 | MID => 2.0 | LATE => 1.6 end in
  let wWide := match st with EARLY => 0.5 | MID => 1.6 | LATE => 2.2 end in
  let wStump := match st with EARLY => 0.9 | MID => 1.0 | LATE => 1.1 end in

  let wCl2 := match st with EARLY => 0.25 | MID => 1.1 | LATE => 1.8 end in
  let wCl3 := match st with EARLY => 0.0 | MID => 0.55 | LATE => 1.35 end in

  let wRockLow := match st with EARLY => 1.4 | MID => 1.2 | LATE => 0.9 end in
  let wRockWide := match st with EARLY => 0.3 | MID => 0.9 | LATE => 1.3 end in
  let wRockStack := match st with EARLY => 0.1 | MID => 0.55 | LATE => 1.2 end in

  let tb := clamp tallBias 0 1 in
  let wTall := wTall * (0.85 + tb * 0.55) in
  let wCl2 := wCl2 * (0.85 + tb * 0.45) in
  let wCl3 := wCl3 * (0.90 + tb * 0.50) in

  let boost := 1 + d * (match st with LATE => 0.55 | _ => 0.35 end) in
  let wWide := wWide * boost in
  let wCl2 := wCl2 * boost in
  let wCl3 := wCl3 * boost in
  let wRockWide := wRockWide * (boost * 0.9) in
  let wRockStack := wRockStack * (boost * 0.9) in

  let wWide := if afterPit then wWide * 0.35 else wWide in
  let wCl2 := if afterPit then wCl2 * 0.35 else wCl2 in
  let wCl3 := if afterPit then wCl3 * 0.25 else wCl3 in
  let wRockWide := if afterPit then wRockWide * 0.40 else wRockWide in
  let wRockStack := if afterPit then wRockStack * 0.35 else wRockStack in

  let easeLow := afterLowFly && negb (Stage_eqb st LATE) in
  let wWide := if easeLow then wWide * 0.70 else wWide in
  let wCl2 := if easeLow then wCl2 * 0.75 else wCl2 in
  let wCl3 := if easeLow then wCl3 * 0.60 else wCl3 in
  let wRockWide := if easeLow then wRockWide * 0.75 else wRockWide in

  let poolAll :=
    [ (CACTUS_SINGLE, wSingle);
      (CACTUS_TALL, wTall);
      (CACTUS_WIDE, wWide);
      (CACTUS_CLUSTER_2, wCl2);
      (CACTUS_CLUSTER_3, wCl3);
      (ROCK_LOW, wRockLow);
      (ROCK_WIDE, wRockWide);
      (ROCK_STACK, wRockStack);
      (STUMP, wStump) ] in

  let pool := filter (fun p => snd p >? 0.001) poolAll in

  let total := sumWeights snd pool in

  let u := Math_random g in
  let r := fst u * total in
  (match weightedScan snd pool r with
   | Some p => fst p
   | None => CACTUS_SINGLE
   end, snd u).

Record Dims := mkDims { dims_w : Q; dims_h : Q }.

Definition makeGroundDims (v : GroundVariant) (s : Z) (g : Game) : Dims :=
  let st := stage g in
  let d := difficulty01 g in
  let t0 := mulberry32 s in
  (* [rr a b] draws from the closure [r]; the counter is threaded *)
  let rr (a b : Q) (t : Z) : Q * Z :=
    let u := mulberry32_next t in (a + fst u * (b - a), snd u) in

  let wCap := maxGroundWidthCap g in
  let hCap := maxGroundHeightCap g in

  (* [w = rr(wlo, whi); h = rr(hlo, hhi);] of one branch *)
  let draw (wlo whi hlo hhi : Q) : Q * Q :=
    let a := rr wlo whi t0 in
    let b := rr hlo hhi (snd a) in
    (fst a, fst b) in
  let wh :=
    match v with
    | CACTUS_SINGLE => draw 22 34 34 (match st with EARLY => 56 | _ => 62 end)
    | CACTUS_TALL => draw 14 22 58 hCap
    | CACTUS_WIDE => draw 40 (match st with EARLY => 62 | _ => 78 end) 30 50
    | CACTUS_CLUSTER_2 =>
        draw 50 (match st with EARLY => 74 | _ => 92 end)
             40 (match st with EARLY => 62 | _ => 74 end)
    | CACTUS_CLUSTER_3 =>
        draw 68 (match st with MID => 100 | _ => 118 end)
             42 (match st with MID => 72 | _ => 80 end)
    | ROCK_LOW => draw 26 56 16 28
    | ROCK_WIDE => draw 56 (match st with MID => 98 | _ => 120 end) 16 30
    | ROCK_STACK => draw 34 66 28 48
    | STUMP => draw 34 58 34 54
    end in
  let w := fst wh in
  let h := snd wh in

  let w := if Stage_eqb st LATE then w * (1 + d * 0.08) else w in
  let h := if Stage_eqb st LATE then h * (1 + d * 0.06) else h in

  let w := clamp w 14 wCap in
  let h := clamp h 14 hCap in
  mkDims w h.

Definition pushOb (o : Ob) : M unit :=
  modify (fun g => set_obs (obs g ++ [o]) g).

Definition spawnGroundObstacle (tallBias : Q) : M unit :=
  seed <- seedInt ;;
  v <- pickGroundVariant tallBias ;;
  dims <- gets (makeGroundDims v seed) ;;
  let w := dims_w dims in
  let h := dims_h dims in

  hardness <- gets (computeGroundHardness w h v) ;;
  x <- gets (fun g => viewW (view g) + 40) ;;
  y <- gets (fun g => groundY (view g) - h) ;;
  pushOb (mkOb CACTUS x y w h None (Some v) (Some seed) (Some hardness)) ;;
  modify (set_lastKind CACTUS) ;;
  modify (set_lastSpawnHardness hardness) ;;
  modify (set_lastSpawnWasHard (hardness >=? 1.0)).

Definition pickFlyLevel : M FlyLevel :=
  d <- gets difficulty01 ;;
  st <- gets stage ;;
  sc <- gets (fun g => score (run g)) ;;
  let allowLow :=
    (Stage_eqb st MID && (sc >? 650)) ||
    (Stage_eqb st LATE && ((sc >? 900) || (d >? 0.5))) in
  roll <- Math_random ;;

  let level :=
    match st with
    | EARLY => if roll <? 0.7 then Level1 else Level2
    | MID =>
        if allowLow && (roll <? 0.18) then Level0
        else if roll <? 0.68 then Level1
        else Level2
    | LATE =>
        if allowLow && (roll <? 0.28) then Level0
        else if roll <? 0.62 then Level1
        else Level2
    end in
  lastLvl <- gets (fun g => lastFlyLevel (sched g)) ;;
  again <- andM (FlyLevel_eqb level lastLvl)
                (r <- Math_random ;; ret (r <? 0.7)) ;;
  level <-
    (if again then
       level <-
         (if FlyLevel_eqb level Level1 then
            r <- Math_random ;;
            ret (if r <? 0.5 then Level2 else if allowLow then Level0 else Level2)
          else ret Level1) ;;
       ret (if negb allowLow && FlyLevel_eqb level Level0 then Level1 else level)
     else ret level) ;;
  guard <- gets (fun g => guardAfterPit (sched g)) ;;
  ret (if (guard >? 0) && FlyLevel_eqb level Level0 then Level1 else level).

Definition spawnFlyer (level : option FlyLevel) : M unit :=
  let w := 48 in
  let h := 24 in
  useLevel <- match level with Some l => ret l | None => pickFlyLevel end ;;
  guard <- gets (fun g => guardAfterPit (sched g)) ;;
  let useLevel := if (guard >? 0) && FlyLevel_eqb useLevel Level0 then Level1 else useLevel in

  gy <- gets (fun g => groundY (view g)) ;;
  let lowBottom := gy - (DUCK_H + 8) in
  let midBottom := gy - (DUCK_H + 26) in
  let highBottom := gy - (STAND_H + 44) in
  let bottom :=
    match useLevel with Level0 => lowBottom | Level1 => midBottom | Level2 => highBottom end in

  let hardness := match useLevel with Level0 => 1.10 | Level1 => 0.75 | Level2 => 0.60 end in

  x <- gets (fun g => viewW (view g) + 40) ;;
  pushOb (mkOb FLYER x (bottom - h) w h (Some useLevel) None None (Some hardness)) ;;
  modify (set_lastKind FLYER) ;;
  modify (set_lastFlyLevel useLevel) ;;
  modify (set_lastSpawnHardness hardness) ;;
  modify (set_lastSpawnWasHard (hardness >=? 1.0)) ;;
  when (FlyLevel_eqb useLevel Level0) (modify (set_guardAfterLowFlyer SAFE_AFTER_LOW_FLYER_DIST)).

Definition computeSafePitWidth (g : Game) : Q :=
  let clearable := worldSpeed (run g) * 0.62 - 45 in
  clamp clearable PIT_MIN_W PIT_MAX_W_HARDCAP.

Definition spawnPit (width : option Q) : M unit :=
  maxW <- gets computeSafePitWidth ;;
  w <- match width with Some w => ret w | None => rand PIT_MIN_W maxW end ;;
  x <- gets (fun g => viewW (view g) + 40) ;;
  y <- gets (fun g => groundY (view g)) ;;
  pushOb (mkOb PIT x y w PIT_VISUAL_DEPTH None None None (Some 1.35)) ;;
  modify (set_lastKind PIT) ;;
  modify (set_lastSpawnHardness 1.35) ;;
  modify (set_lastSpawnWasHard true) ;;
  modify (set_guardAfterPit SAFE_AFTER_PIT_DIST).

Definition computeNextSpawnDist (kind : ObKind) (hardness : Q) : M Q :=
  sf <- gets speedFactor ;;
  st <- gets stage ;;
  let stageMul := match st with EARLY => 1.18 | MID => 1.0 | LATE => 0.90 end in

  let min := 240 * sf * stageMul in
  let max := 440 * sf * stageMul in

  let min := if ObKind_eqb kind FLYER then min + 70 * sf else min in
  let max := if ObKind_eqb kind FLYER then max + 90 * sf else max in
  let min := if ObKind_eqb kind PIT then min + 160 * sf else min in
  let max := if ObKind_eqb kind PIT then max + 240 * sf else max in

  let min := min + hardness * 90 * sf in
  let max := max + hardness * 130 * sf in

  gp <- gets (fun g => guardAfterPit (sched g)) ;;
  gl <- gets (fun g => guardAfterLowFlyer (sched g)) ;;
  let min := if gp >? 0 then min + 80 * sf else min in
  let min := if gl >? 0 then min + 40 * sf else min in

  rand min max.

(** ** Patterns *)

(* [recentPatterns.unshift(id); while (recentPatterns.length > 3) recentPatterns.pop();] *)
Definition pushRecentPattern (id : string) (g : Game) : Game :=
  set_recentPatterns (firstn 3 (id :: recentPatterns (sched g))) g.

Definition recentlyUsed (id : string) (g : Game) : bool :=
  existsb (String.eqb id) (recentPatterns (sched g)).

Definition canStartPattern : M bool :=
  sc <- gets (fun g => score (run g)) ;;
  if sc <? PATTERN_SCORE_GATE then ret false
  else
    q <- gets (fun g => patternQueue (sched g)) ;;
    match q with
    | Some _ => ret false
    | None =>
        cd <- gets (fun g => patternCooldownDist (sched g)) ;;
        if cd >? 0 then ret false
        else
          lk <- gets (fun g => lastKind (sched g)) ;;
          if ObKind_eqb lk PIT then ret false
          else
            st <- gets stage ;;
            d <- gets difficulty01 ;;
            let base := match st with EARLY => 0.10 | MID => 0.20 | LATE => 0.34 end in
            let chance := clamp (base + d * 0.12) 0 0.55 in
            r <- Math_random ;;
            ret (r <? chance)
    end.

Definition setPatternCooldown : M unit :=
  st <- gets stage ;;
  let base := match st with EARLY => 540 | MID => 430 | LATE => 320 end in
  a <- gets (scaledGap base) ;;
  hi <- gets (scaledGap 180) ;;
  b <- rand 0 hi ;;
  modify (set_patternCooldownDist (a + b)).

Definition gapBaseFor (st : Stage) (base : Q) (g : Game) : Q :=
  let d := difficulty01 g in
  let tighten := match st with EARLY => 0.0 | MID => 0.10 | LATE => 0.18 end in
  let out := base * (1 - tighten) - d * (match st with LATE => 35 | _ => 18 end) in
  Math_max 160 out.

(* [set[(Math.random() * set.length) | 0]]; [None] is [undefined] *)
Definition rLevel (set : list FlyLevel) : M (option FlyLevel) :=
  r <- Math_random ;;
  let i := bor0 (r * inject_Z (Z.of_nat (List.length set))) in
  ret (if (i <? 0)%Z then None else nth_error set (Z.to_nat i)).

Definition optLevel_eqb (a b : option FlyLevel) : bool :=
  match a, b with
  | Some x, Some y => FlyLevel_eqb x y
  | None, None => true
  | _, _ => false
  end.

Record Pattern := mkPattern {
  pat_id : string;
  wEarly : Q;
  wMid : Q;
  wLate : Q;
  build : M (list PatternStep)
}.

Definition buildPatterns (g : Game) : list Pattern :=
  let st := stage g in
  let earlyLevels := [Level1; Level2] in
  let midLevels := [Level1; Level2; Level1; Level2; Level0] in
  let lateLevels := [Level0; Level1; Level2; Level1; Level0; Level2] in
  let levels := match st with EARLY => earlyLevels | MID => midLevels | LATE => lateLevels end in
  let gap (base jitterAmt : Q) : M Q :=
    b <- gets (gapBaseFor st base) ;; jitter b jitterAmt in

  [ mkPattern "P1_DOUBLE_FLYERS" 1.6 1.9 2.0
      (a <- rLevel levels ;;
       b <- rLevel levels ;;
       again <- andM (optLevel_eqb b a) (r <- Math_random ;; ret (r <? 0.7)) ;;
       b <- (if again then rLevel levels else ret b) ;;
       g1 <- gap 260 28 ;;
       ret [ StepFlyer 0 a; StepFlyer g1 b ]);
    mkPattern "P2_WAVE_HMH" 1.2 1.6 1.8
      (let high := Level2 in
       let mid := Level1 in
       r <- Math_random ;;
       let seq := if r <? 0.5 then (high, mid, high) else (high, mid, mid) in
       g1 <- gap 240 26 ;;
       g2 <- gap 240 26 ;;
       ret [ StepFlyer 0 (Some (fst (fst seq)));
             StepFlyer g1 (Some (snd (fst seq)));
             StepFlyer g2 (Some (snd seq)) ]);
    mkPattern "P3_BAIT_HIGH_CACTUS" 1.1 1.4 1.6
      (g1 <- gap 240 22 ;;
       ret [ StepFlyer 0 (Some Level2); StepCactus g1 (Some 0.55) ]);
    mkPattern "P4_CACTUS_THEN_FLYER" 1.1 1.4 1.5
      (lvl <- (match st with EARLY => rLevel [Level1; Level2] | _ => rLevel levels end) ;;
       g1 <- gap 280 30 ;;
       ret [ StepCactus 0 (Some 0.42); StepFlyer g1 lvl ]);
    mkPattern "P5_TRIPLE_STUTTER" 0.8 1.3 1.7
      (a <- rLevel levels ;;
       b <- rLevel levels ;;
       c <- rLevel levels ;;
       again <- andM (optLevel_eqb c b) (r <- Math_random ;; ret (r <? 0.7)) ;;
       c <- (if again then rLevel levels else ret c) ;;
       g1 <- gap 220 26 ;;
       g2 <- gap 220 26 ;;
       ret [ StepFlyer 0 a; StepFlyer g1 b; StepFlyer g2 c ]);
    mkPattern "P6_MID_LOW_CHECK" 0.0 1.0 1.7
      (g1 <- gap 265 18 ;;
       ret [ StepFlyer 0 (Some Level1); StepFlyer g1 (Some Level0) ]);
    mkPattern "P7_DUCK_THEN_JUMP" 0.0 0.7 1.6
      (g1 <- gap 300 18 ;;
       ret [ StepFlyer 0 (Some Level0); StepCactus g1 (Some 0.50) ]) ].

Definition patternWeight (st : Stage) (p : Pattern) : Q :=
  match st with EARLY => wEarly p | MID => wMid p | LATE => wLate p end.

(* the [for (let tries = 0; tries < 8; tries++)] loop of [pickPattern];
   [left] counts the iterations that remain *)
Fixpoint pickPatternLoop (st : Stage) (first : Pattern) (candidates : list Pattern)
    (left tries : nat) : M (option (string * list PatternStep)) :=
  match left with
  | O =>
      (* never reached: the iteration at [tries = 5] returns *)
      r <- Math_random ;;
      let i := bor0 (r * inject_Z (Z.of_nat (List.length candidates))) in
      match (if (i <? 0)%Z then None else nth_error candidates (Z.to_nat i)) with
      | Some fallback => steps <- build fallback ;; ret (Some (pat_id fallback, steps))
      | None => ret None
      end
  | S left' =>
      let total := sumWeights (patternWeight st) candidates in
      u <- Math_random ;;
      let r := u * total in
      let chosen :=
        match weightedScan (patternWeight st) candidates r with
        | Some c => c
        | None => first
        end in
      used <- gets (recentlyUsed (pat_id chosen)) ;;
      if negb used || (5 <=? tries)%nat
      then steps <- build chosen ;; ret (Some (pat_id chosen, steps))
      else pickPatternLoop st first candidates left' (S tries)
  end.

Definition pickPattern : M (option (string * list PatternStep)) :=
  st <- gets stage ;;
  all <- gets buildPatterns ;;
  let candidates := filter (fun p => patternWeight st p >? 0) all in
  match candidates with
  | [] => ret None
  | first :: _ => pickPatternLoop st first candidates 8 0
  end.

Definition startPattern : M unit :=
  picked <- pickPattern ;;
  match picked with
  | None => ret tt
  | Some (id, steps) =>
      modify (set_patternQueue (Some steps)) ;;
      modify (pushRecentPattern id) ;;
      setPatternCooldown
  end.

(** ** The spawn director *)

Definition spawnSingleFair : M unit :=
  d <- gets difficulty01 ;;
  st <- gets stage ;;
  sc <- gets (fun g => score (run g)) ;;
  lk <- gets (fun g => lastKind (sched g)) ;;

  let allowFlyers := (sc >? 120) || (d >? 0.15) in

  let allowPits := sc >=? PIT_SPAWN_SCORE_GATE in
  let pitChance := if allowPits then PIT_BASE_CHANCE + d * PIT_DIFFICULTY_BONUS else 0 in

  let canPit := allowPits && negb (ObKind_eqb lk PIT) in
  roll <- Math_random ;;
  gp <- gets (fun g => guardAfterPit (sched g)) ;;
  hard <- gets (fun g => lastSpawnWasHard (sched g)) ;;

  if canPit && (roll <? pitChance) && (gp <=? 0) then
    soften <- andM (ObKind_eqb lk FLYER && hard) (r <- Math_random ;; ret (r <? 0.65)) ;;
    if soften then spawnGroundObstacle 0.42 else spawnPit None
  else
    let flyerChance :=
      if allowFlyers
      then (match st with EARLY => 0.12 | MID => 0.22 | LATE => 0.30 end) + d * 0.12
      else 0 in

    let avoidFlyer := negb allowFlyers || (ObKind_eqb lk FLYER && (sc <? 600)) in
    gl <- gets (fun g => guardAfterLowFlyer (sched g)) ;;
    let avoidGroundTight := (gl >? 0) && (sc <? 900) in

    fly <- andM (negb avoidFlyer) (r <- Math_random ;; ret (r <? flyerChance)) ;;
    if fly then
      soften <- andM hard (r <- Math_random ;; ret (r <? 0.60)) ;;
      if soften then spawnGroundObstacle 0.40 else spawnFlyer None
    else
      mid <- andM avoidGroundTight (r <- Math_random ;; ret (r <? 0.30)) ;;
      if mid then spawnFlyer (Some Level1)
      else spawnGroundObstacle 0.45.

Definition spawnStep (step : PatternStep) : M unit :=
  match step with
  | StepCactus _ tallBias =>
      spawnGroundObstacle (match tallBias with Some b => b | None => 0.45 end)
  | StepFlyer _ level => spawnFlyer level
  | StepPit _ width => spawnPit width
  end.

Definition scheduleNextAfterSpawn : M unit :=
  q <- gets (fun g => patternQueue (sched g)) ;;
  match q with
  | Some (next :: _) =>
      n <- gets (scaledGap (step_gapBase next)) ;;
      modify (set_nextSpawnDist n) ;;
      modify (set_distSinceSpawn 0)
  | _ =>
      lk <- gets (fun g => lastKind (sched g)) ;;
      lh <- gets (fun g => lastSpawnHardness (sched g)) ;;
      n <- computeNextSpawnDist lk lh ;;
      modify (set_nextSpawnDist n) ;;
      modify (set_distSinceSpawn 0)
  end.

(* [const step = patternQueue.shift()!; spawnStep(step);
    if (patternQueue.length === 0) patternQueue = null;
    scheduleNextAfterSpawn();] *)
Definition spawnQueued (step : PatternStep) (rest : list PatternStep) : M unit :=
  modify (set_patternQueue (Some rest)) ;;
  spawnStep step ;;
  q <- gets (fun g => patternQueue (sched g)) ;;
  when (match q with Some [] => true | _ => false end) (modify (set_patternQueue None)) ;;
  scheduleNextAfterSpawn.

Definition spawnManagerTick : M unit :=
  q <- gets (fun g => patternQueue (sched g)) ;;
  match q with
  | Some (step :: rest) => spawnQueued step rest
  | _ =>
      start <- canStartPattern ;;
      when start startPattern ;;
      q <- gets (fun g => patternQueue (sched g)) ;;
      match start, q with
      | true, Some (first :: rest) => spawnQueued first rest
      | _, _ =>
          spawnSingleFair ;;
          scheduleNextAfterSpawn
      end
  end.

(** ** The fixed-timestep update

    The body of [update(dt)] is cut into its consecutive blocks; [update]
    chains them with the early returns of the source. *)

(* [while (a.length && a[0] && test(a[0])) a.shift();] *)
Fixpoint shiftWhile {A : Type} (test : A -> bool) (a : list A) : list A :=
  match a with
  | [] => []
  | x :: rest => if test x then shiftWhile test rest else a
  end.

Definition stepParticle (dt : Q) (p : Particle) : Particle :=
  mkParticle (pt_x p + pt_vx p * dt) (pt_y p + pt_vy p * dt)
             (pt_vx p) (pt_vy p + 260 * dt)
             (pt_life p - dt) (pt_max p) (pt_size p).

(* particles, and the decay of the jump buffer *)
Definition updateParticles (dt : Q) (g : Game) : Game :=
  let g := set_particles (map (stepParticle dt) (particles (scenery g))) g in
  let g := set_particles (shiftWhile (fun p => pt_life p <=? 0) (particles (scenery g))) g in
  if jumpBuffer (input g) >? 0
  then set_jumpBuffer (Math_max 0 (jumpBuffer (input g) - dt)) g
  else g.

(* speed, score and the distance countdowns *)
Definition updatePacing (dt : Q) (g : Game) : Game :=
  let g := set_animTime (animTime (run g) + dt) g in
  let g := set_worldSpeed (worldSpeed (run g) + 8 * dt) g in

  let g := set_score (score (run g) + dt * (worldSpeed (run g) / 20)) g in

  let g := if patternCooldownDist (sched g) >? 0
           then set_patternCooldownDist
                  (Math_max 0 (patternCooldownDist (sched g) - worldSpeed (run g) * dt)) g
           else g in
  let g := if guardAfterPit (sched g) >? 0
           then set_guardAfterPit
                  (Math_max 0 (guardAfterPit (sched g) - worldSpeed (run g) * dt)) g
           else g in
  if guardAfterLowFlyer (sched g) >? 0
  then set_guardAfterLowFlyer
         (Math_max 0 (guardAfterLowFlyer (sched g) - worldSpeed (run g) * dt)) g
  else g.

(* duck, coyote time and the buffered jump *)
Definition updateControls (dt : Q) : M unit :=
  modify (fun g => applyDuckVisual (downDown (input g)) g) ;;

  modify (fun g =>
    if dino_onGround (dino g) then set_coyote COYOTE_TIME g
    else set_coyote (Math_max 0 (coyote (input g) - dt)) g) ;;

  tryConsumeJump.

(* [let g = GRAVITY; ... dino.vy += g * dt; dino.y += dino.vy * dt;] *)
Definition integrateGravity (dt : Q) (g : Game) : Game :=
  let grav := GRAVITY in
  let goingUp := dino_vy (dino g) <? 0 in

  let hold := negb (dino_onGround (dino g)) && jumpDown (input g) && goingUp
              && (jumpHold (input g) <? MAX_JUMP_HOLD) in
  let grav := if hold then grav * HOLD_GRAVITY_MULT else grav in
  let g := if hold then set_jumpHold (jumpHold (input g) + dt) g else g in
  let grav := if negb (dino_onGround (dino g)) && downDown (input g)
              then grav * FAST_FALL_MULT else grav in

  let g := set_dino_vy (dino_vy (dino g) + grav * dt) g in
  set_dino_y (dino_y (dino g) + dino_vy (dino g) * dt) g.

(* gravity, pit-fall lock and ground contact *)
Definition updatePhysics (dt : Q) : M unit :=
  modify (integrateGravity dt) ;;

  groundTop <- gets (fun g => groundY (view g) - dino_h (dino g)) ;;
  overPit <- gets isOverPit ;;

  modify (fun g =>
    if negb (pitFall g) && overPit && (dino_y (dino g) >? groundTop + PIT_FALL_LOCK_DEPTH)
    then set_pitFall true g else g) ;;

  groundExistsHere <- gets (fun g => negb (pitFall g) && negb overPit) ;;
  y <- gets (fun g => dino_y (dino g)) ;;

  if groundExistsHere && (y >=? groundTop) then
    landed <- gets (fun g => negb (dino_onGround (dino g)) && (dino_vy (dino g) >? 0)) ;;
    modify (set_dino_y groundTop) ;;
    modify (set_dino_vy 0) ;;
    modify (set_dino_onGround true) ;;
    modify (set_jumpHold 0) ;;
    modify (fun g => applyDuckVisual (downDown (input g)) g) ;;

    x <- gets (fun g => dino_x (dino g) + 8) ;;
    gy <- gets (fun g => groundY (view g) - 8) ;;
    when landed (spawnDust x gy 8 0.9)
  else
    modify (set_dino_onGround false) ;;
    modify (set_dino_ducking false).

(* the actor: controls, then physics *)
Definition updateActor (dt : Q) : M unit :=
  updateControls dt ;;
  updatePhysics dt.

(* clouds and parallax offsets *)
Definition updateScenery (dt : Q) : M unit :=
  modify (fun g => set_nextCloudSpawn (nextCloudSpawn (scenery g) - dt) g) ;;
  n <- gets (fun g => nextCloudSpawn (scenery g)) ;;
  when (n <=? 0)
    (vw <- gets (fun g => viewW (view g)) ;;
     gy <- gets (fun g => groundY (view g)) ;;
     jx <- rand 20 120 ;;
     y <- rand 18 (Math_max 34 (gy - 110)) ;;
     scale <- rand 0.75 1.35 ;;
     speedMul <- rand 0.10 0.28 ;;
     modify (fun g => set_clouds (clouds (scenery g) ++ [mkCloud (vw + jx) y scale speedMul]) g) ;;
     next <- rand 0.9 1.8 ;;
     modify (set_nextCloudSpawn next)) ;;
  modify (fun g => set_clouds
    (map (fun c => mkCloud (cloud_x c - worldSpeed (run g) * cloud_speedMul c * dt)
                           (cloud_y c) (cloud_scale c) (cloud_speedMul c))
         (clouds (scenery g))) g) ;;
  modify (fun g => set_clouds (shiftWhile (fun c => cloud_x c <? -260) (clouds (scenery g))) g) ;;

  modify (fun g => set_farOff (farOff (scenery g) + worldSpeed (run g) * FAR_MUL * dt) g) ;;
  modify (fun g => set_midOff (midOff (scenery g) + worldSpeed (run g) * MID_MUL * dt) g) ;;
  modify (fun g => set_nearOff (nearOff (scenery g) + worldSpeed (run g) * NEAR_MUL * dt) g) ;;
  modify (fun g => set_groundOff (groundOff (scenery g) + worldSpeed (run g) * dt) g).

(* the spawn opportunity *)
Definition updateSpawn (dt : Q) : M unit :=
  modify (fun g => set_distSinceSpawn
    (clamp (distSinceSpawn (sched g) + worldSpeed (run g) * dt) 0 1000000000) g) ;;
  due <- gets (fun g => distSinceSpawn (sched g) >=? nextSpawnDist (sched g)) ;;
  when due spawnManagerTick.

Definition moveOb (dx : Q) (o : Ob) : Ob :=
  mkOb (ob_kind o) (ob_x o - dx) (ob_y o) (ob_w o) (ob_h o)
       (ob_flightLevel o) (ob_variant o) (ob_seed o) (ob_hardness o).

(* scrolling and culling of the obstacles *)
Definition updateObstacles (dt : Q) (g : Game) : Game :=
  let g := set_obs (map (moveOb (worldSpeed (run g) * dt)) (obs g)) g in
  set_obs (shiftWhile (fun o => ob_x o + ob_w o <? -80) (obs g)) g.

(* the collision scan: the first hit ends the run *)
Definition updateCollisions (g : Game) : Game :=
  let dh := dinoHitbox g in
  if existsb (fun o =>
       if ObKind_eqb (ob_kind o) PIT then false else aabb dh (obHitbox o)) (obs g)
  then gameOver g
  else g.

Definition update (dt : Q) : M unit :=
  modify (updateParticles dt) ;;
  st <- gets (fun g => state (run g)) ;;
  match st with
  | READY =>
      modify (set_coyote COYOTE_TIME) ;;
      tryConsumeJump
  | GAMEOVER => ret tt
  | RUNNING =>
      modify (updatePacing dt) ;;
      updateActor dt ;;
      fell <- gets (fun g => dino_y (dino g) >? viewH (view g) + 120) ;;
      if fell then modify gameOver
      else
        updateScenery dt ;;
        updateSpawn dt ;;
        modify (updateObstacles dt) ;;
        modify updateCollisions
  end.

(** ** Input *)

Record KeyboardEvent := mkKey { code : string; repeat : bool }.

Definition isKey (e : KeyboardEvent) (name : string) : bool := String.eqb (code e) name.

Definition onKeyDown (e : KeyboardEvent) : M unit :=
  if repeat e then ret tt
  else if isKey e "KeyH" then
    modify (fun g => set_showHitboxes (negb (showHitboxes (input g))) g)
  else if isKey e "KeyR" then
    st <- gets (fun g => state (run g)) ;;
    if GameState_eqb st GAMEOVER then modify restartRun
    else resetToReady
  else if isKey e "KeyS" || isKey e "ArrowDown" then
    modify (set_downDown true) ;;
    modify (applyDuckVisual true)
  else if isKey e "KeyW" || isKey e "ArrowUp" || isKey e "Space" then
    modify (fun g => if negb (jumpDown (input g)) then queueJump g else g) ;;
    modify (set_jumpDown true)
  else ret tt.

Definition onKeyUp (e : KeyboardEvent) : M unit :=
  if isKey e "KeyS" || isKey e "ArrowDown" then
    modify (set_downDown false)
  else if isKey e "KeyW" || isKey e "ArrowUp" || isKey e "Space" then
    modify (set_jumpDown false) ;;
    modify cutJumpIfNeeded
  else ret tt.

Definition onPointerDown : M unit :=
  st <- gets (fun g => state (run g)) ;;
  if GameState_eqb st GAMEOVER then modify restartRun
  else
    modify queueJump ;;
    modify (set_jumpDown true).

Definition onPointerUp : M unit :=
  modify (set_jumpDown false) ;;
  modify cutJumpIfNeeded.

(** ** Runs of the engine *)

(* the initialisers of the captured variables; [best0] is the stored best
   score and [draws] the stream behind [Math.random] *)
Definition initialVars (best0 : Q) (draws : nat -> Q) : Game :=
  mkGame
    (mkView MIN_VIEW_W BASE_VIEW_H 272)
    (mkRun READY 260 0 0 best0)
    (mkDino 90 0 STAND_W STAND_H 0 true false)
    []
    (mkSched 0 360 CACTUS Level1 0.55 false None 0 [] 0 0)
    (mkInput false false 0 0 0 false)
    (mkScenery 0 0 0 0 [] 0.7 [])
    false
    draws
    0.

(* [resize(); setStatusUI(); resetToReady();] *)
Definition boot (rectW rectH best0 : Q) (draws : nat -> Q) : Game :=
  exec resetToReady (resize rectW rectH (initialVars best0 draws)).

(** What the browser delivers to the engine. [Tick] is one call
    [update(FIXED_DT)] of the accumulator loop of [frame]; [PointerUp]
    stands for both [pointerup] and [pointercancel]. *)
Inductive Event :=
  | KeyDown (e : KeyboardEvent)
  | KeyUp (e : KeyboardEvent)
  | PointerDown
  | PointerUp
  | Resize (rectW rectH : Q)
  | Tick.

Definition handle (ev : Event) : M unit :=
  match ev with
  | KeyDown e => onKeyDown e
  | KeyUp e => onKeyUp e
  | PointerDown => onPointerDown
  | PointerUp => onPointerUp
  | Resize rectW rectH => modify (resize rectW rectH)
  | Tick => update FIXED_DT
  end.

(* [Math.random()] returns a number in [0, 1) *)
Definition unitDraws (draws : nat -> Q) : Prop := forall n, 0 <= draws n /\ draws n < 1.

Inductive reachable : Game -> Prop :=
  | reach_boot : forall rectW rectH best0 draws,
      unitDraws draws -> reachable (boot rectW rectH best0 draws)
  | reach_step : forall g ev,
      reachable g -> reachable (exec (handle ev) g).

Definition runEvents (evs : list Event) (g : Game) : Game :=
  fold_left (fun g ev => exec (handle ev) g) evs g.

(** ** The frame loop *)

(* the variables [last] and [acc] of the loop *)
Record Clock := mkClock { clock_last : Q; clock_acc : Q }.

(* [while (acc >= FIXED_DT) { update(FIXED_DT); acc -= FIXED_DT; }];
   [fuel] bounds the number of iterations, [None] when it runs out *)
Fixpoint frameLoop (fuel : nat) (acc : Q) (g : Game) : option (Q * Game) :=
  match fuel with
  | O => None
  | S fuel' =>
      if acc >=? FIXED_DT
      then frameLoop fuel' (acc - FIXED_DT) (exec (update FIXED_DT) g)
      else Some (acc, g)
  end.

(* [frame(now)]; [draw()], [present()] and the request of the next frame
   leave the clock and the simulation alone *)
Definition frame (fuel : nat) (now : Q) (c : Clock) (g : Game) : option (Clock * Game) :=
  let dt := Math_min 0.05 ((now - clock_last c) / 1000) in
  let acc := clock_acc c + dt in
  let acc := if acc >? MAX_ACCUM then MAX_ACCUM else acc in
  match frameLoop fuel acc g with
  | Some (acc, g) => Some (mkClock now acc, g)
  | None => None
  end.

(** ** Presentation *)

(* the destination rectangle and the scale of the [drawImage] of [present];
   [screenW] and [screenH] are the canvas size kept by [resize] *)
Record Placement := mkPlacement {
  presentScale : Q;
  place_dx : Q;
  place_dy : Q;
  destW : Q;
  destH : Q
}.

Definition present (screenW screenH : Q) (g : Game) : Placement :=
  let fit := Math_min (screenW / viewW (view g)) (screenH / viewH (view g)) in

  let intScale := Math_floor fit in
  let presentScale := if (fit >=? 2) && (intScale >=? 2) then intScale else fit in

  let destW := viewW (view g) * presentScale in
  let destH := viewH (view g) * presentScale in

  let dx := (screenW - destW) / 2 in
  let dy := (screenH - destH) / 2 in
  mkPlacement presentScale dx dy destW destH.


(** ** The ground line *)

(* a pit of the view as an interval of the ground line *)
Record Seg := mkSeg { seg_a : Q; seg_b : Q }.

(* [segs.sort((p, q) => p.a - q.a)]: a stable sort on the left ends *)
Fixpoint insertSeg (s : Seg) (segs : list Seg) : list Seg :=
  match segs with
  | [] => [s]
  | t :: rest => if seg_a s <=? seg_a t then s :: segs else t :: insertSeg s rest
  end.

Fixpoint sortSegs (segs : list Seg) : list Seg :=
  match segs with
  | [] => []
  | s :: rest => insertSeg s (sortSegs rest)
  end.

Definition pitSegmentsVisible (g : Game) : list Seg :=
  let segs :=
    flat_map (fun o =>
      if negb (ObKind_eqb (ob_kind o) PIT) then []
      else
        let a := ob_x o in
        let b := ob_x o + ob_w o in
        if (b <? -40) || (a >? viewW (view g) + 40) then [] else [mkSeg a b])
      (obs g) in
  sortSegs segs.

(* the sweep of [drawGroundStrip] that draws the line above the ground: the
   rectangles of its [fillRect] calls, in order *)
Fixpoint lineSweep (vw y cursor : Q) (pits : list Seg) : list Rect :=
  match pits with
  | [] => if cursor <? vw then [mkRect cursor y (vw - cursor) 1] else []
  | p :: rest =>
      let a := clamp (seg_a p) 0 vw in
      let b := clamp (seg_b p) 0 vw in
      (if a >? cursor then [mkRect cursor y (a - cursor) 1] else [])
      ++ lineSweep vw y (Math_max cursor b) rest
  end.

Definition groundLine (g : Game) : list Rect :=
  lineSweep (viewW (view g)) (groundY (view g) - 1) 0 (pitSegmentsVisible g).
(** * Vocabulary of the properties

    The relations, predicates and sample states in which the properties
    below are stated. *)

(** A relation between the state before and the state after a
    computation. *)
Definition preserves (R : Game -> Game -> Prop) {A : Type} (m : M A) : Prop :=
  forall g, R g (snd (m g)).

(** Computations that only consume draws. *)
Definition only_draws (g g' : Game) : Prop := g' = with_drawn (drawn g') g.

(** Computations of the spawn director: they consume draws, append
    obstacles and update the spawn schedule, nothing else. *)
Definition spawn_frame (g g' : Game) : Prop :=
  g' = with_obs (obs g') (with_sched (sched g') (with_drawn (drawn g') g)).

(** What a change of the view respects: the stream of draws is not
    replaced, and the world speed does not drop below its baseline. *)
Definition env_ok (g g' : Game) : Prop :=
  entropy g' = entropy g /\
  (260 <= worldSpeed (run g) -> 260 <= worldSpeed (run g')).

(** The tick never moves the lifecycle to READY. *)
Definition stays_out (g g' : Game) : Prop :=
  state (run g') = READY -> state (run g) = READY.

(* the obstacle pushed by [spawnPit] *)
Definition pitOb (w : Q) (g : Game) : Ob :=
  mkOb PIT (viewW (view g) + 40) (groundY (view g)) w PIT_VISUAL_DEPTH
       None None None (Some 1.35).

(* [clearable] of [computeSafePitWidth] *)
Definition clearable (g : Game) : Q := worldSpeed (run g) * 0.62 - 45.

(* the width of a pit lies in [PIT_MIN_W, min(PIT_MAX_W_HARDCAP, clearable)] *)
Definition pitSolvable (g : Game) (o : Ob) : Prop :=
  ob_kind o = PIT ->
  PIT_MIN_W <= ob_w o /\ ob_w o <= Qmin PIT_MAX_W_HARDCAP (clearable g).

(* a pending pattern step that carries no width of its own *)
Definition stepUnsized (s : PatternStep) : Prop :=
  match s with
  | StepPit _ (Some _) => False
  | _ => True
  end.

Definition queueUnsized (g : Game) : Prop :=
  match patternQueue (sched g) with
  | Some q => Forall stepUnsized q
  | None => True
  end.

Definition fairField (g : Game) : Prop :=
  unitDraws (entropy g) /\
  260 <= worldSpeed (run g) /\
  Forall (pitSolvable g) (obs g) /\
  queueUnsized g.

Definition keeps_fair (g g' : Game) : Prop := fairField g -> fairField g'.

(** Values returned by a computation, whatever the state. *)
Definition returns {A : Type} (P : A -> Prop) (m : M A) : Prop := forall g, P (fst (m g)).

Definition pickedUnsized (r : option (string * list PatternStep)) : Prop :=
  match r with
  | Some (_, steps) => Forall stepUnsized steps
  | None => True
  end.

(* a run that has just booted, with every draw equal to [u] *)
Definition bootWith (u : Q) : Game := boot 640 360 0 (fun _ => u).

(* the dino of a fresh run on a 640-wide view and a cactus whose
   hit-rectangle starts where the dino's one ends *)
Definition touchingCactus : Ob :=
  mkOb CACTUS 114 228 26 44 None (Some CACTUS_SINGLE) (Some 1%Z) (Some 0.5).

Definition touchingField : Game :=
  set_obs [touchingCactus] (startRunFresh (bootWith 0.5)).

(** While RUNNING, the actor and scenery blocks leave the view, the run
    record, the obstacles and the spawn schedule alone. *)
Definition running_frame (g g' : Game) : Prop :=
  state (run g) = RUNNING ->
  view g' = view g /\ run g' = run g /\ obs g' = obs g /\ sched g' = sched g.

(* the state after the actor block of a tick *)
Definition afterActor (dt : Q) (g : Game) : Game :=
  exec (updateActor dt) (updatePacing dt (updateParticles dt g)).

(* [dino.y > viewH + 120] *)
Definition fatalFall (dt : Q) (g : Game) : bool :=
  dino_y (dino (afterActor dt g)) >? viewH (view (afterActor dt g)) + 120.

(* the state in which the collision scan of a tick runs *)
Definition beforeCollisions (dt : Q) (g : Game) : Game :=
  updateObstacles dt (exec (updateSpawn dt) (exec (updateScenery dt) (afterActor dt g))).

Definition fatalCollision (dt : Q) (g : Game) : bool :=
  existsb (fun o =>
    if ObKind_eqb (ob_kind o) PIT then false
    else aabb (dinoHitbox (beforeCollisions dt g)) (obHitbox o))
    (obs (beforeCollisions dt g)).

(** Dust only adds particles and consumes draws. *)
Definition dust_frame (g g' : Game) : Prop :=
  g' = with_scenery (scenery g') (with_drawn (drawn g') g).

(* the state of [performJump] when the dust is spawned *)
Definition launched (g : Game) : Game :=
  set_dino_onGround false
    (set_dino_vy JUMP_VELOCITY
       (set_dino_y (groundY (view g) - STAND_H)
          (set_dino_h STAND_H (set_dino_w STAND_W (set_dino_ducking false g))))).

(** A READY run stands at the baseline: initial speed, no score, no
    obstacle. *)
Definition idleField (g : Game) : Prop :=
  state (run g) = READY ->
  worldSpeed (run g) = 260 /\ score (run g) = 0 /\ obs g = [].

Definition keeps_idle (g g' : Game) : Prop := idleField g -> idleField g'.

(* the gravity applied on the first tick of a held jump *)
Definition launchGravity (down : bool) : Q :=
  if down then GRAVITY * HOLD_GRAVITY_MULT * FAST_FALL_MULT
  else GRAVITY * HOLD_GRAVITY_MULT.

(** Computations that leave the actor alone. *)
Definition dino_kept (g g' : Game) : Prop := dino g' = dino g.

(* the key codes of the jump intent in [onKeyDown] and [onKeyUp] *)
Definition jumpKeys : list string := ["KeyW"; "ArrowUp"; "Space"]%string.

(* the restart and reset intent of the keyboard: an unrepeated press of R *)
Definition isResetKey (ev : Event) : Prop :=
  exists e, ev = KeyDown e /\ repeat e = false /\ code e = "KeyR"%string.

(* the jump intent: a tap, or an unrepeated press of W, Up or Space *)
Definition isJumpPress (ev : Event) : Prop :=
  ev = PointerDown \/
  exists e, ev = KeyDown e /\ repeat e = false /\ In (code e) jumpKeys.

(* what one event may do to the lifecycle, from [g] to [g'] *)
Definition lifecycleStep (g : Game) (ev : Event) (g' : Game) : Prop :=
  (state (run g) = GAMEOVER -> state (run g') <> GAMEOVER ->
     state (run g') = RUNNING /\ (ev = PointerDown \/ isResetKey ev)) /\
  (state (run g) = READY -> state (run g') <> READY ->
     state (run g') = RUNNING /\ ev = Tick /\ 0 < jumpBuffer (input g)) /\
  (state (run g) = READY -> jumpBuffer (input g) <= 0 ->
     0 < jumpBuffer (input g') -> isJumpPress ev) /\
  (state (run g) = RUNNING -> state (run g') <> RUNNING ->
     (ev = Tick /\ state (run g') = GAMEOVER /\
      (fatalFall FIXED_DT g = true \/ fatalCollision FIXED_DT g = true)) \/
     (isResetKey ev /\ state (run g') = READY)).

(* a run in progress: a tap on the idle screen and one tick *)
Definition playing : Game :=
  exec (handle Tick) (exec (handle PointerDown) (boot 640 360 0 (fun _ => 0.5))).

(* a flyer at the low altitude (flight level 0) *)
Definition lowFlyer (o : Ob) : bool :=
  ObKind_eqb (ob_kind o) FLYER &&
  match ob_flightLevel o with
  | Some Level0 => true
  | _ => false
  end.

(** What a computation of the spawn director does under the after-pit
    guard: it appends obstacles; if the guard is running when it starts,
    the guard is still running when it ends and none of the obstacles is a
    low flyer; and the guard distance changes only when a pit is among
    them. *)
Definition guarded (g g' : Game) : Prop :=
  exists new,
    obs g' = obs g ++ new /\
    (0 < guardAfterPit (sched g) ->
       0 < guardAfterPit (sched g') /\ Forall (fun o => lowFlyer o = false) new) /\
    (guardAfterPit (sched g') = guardAfterPit (sched g) \/
     Exists (fun o => ob_kind o = PIT) new).

(* the level [spawnFlyer] settles on, given the level asked or picked *)
Definition guardedLevel (level : FlyLevel) (g : Game) : FlyLevel :=
  if (guardAfterPit (sched g) >? 0) && FlyLevel_eqb level Level0 then Level1 else level.

(* the obstacle pushed by [spawnFlyer] *)
Definition flyerOb (useLevel : FlyLevel) (g : Game) : Ob :=
  mkOb FLYER (viewW (view g) + 40)
       (match useLevel with
        | Level0 => groundY (view g) - (DUCK_H + 8)
        | Level1 => groundY (view g) - (DUCK_H + 26)
        | Level2 => groundY (view g) - (STAND_H + 44)
        end - 24)
       48 24 (Some useLevel) None None
       (Some (match useLevel with Level0 => 1.10 | Level1 => 0.75 | Level2 => 0.60 end)).

(** Computations that leave the obstacle list alone. *)
Definition obs_kept (g g' : Game) : Prop := obs g' = obs g.

(** Counting the obstacles a computation appends. *)
Definition pushes {A : Type} (n : nat) (m : M A) : Prop :=
  forall g, exists new, obs (exec m g) = obs g ++ new /\ List.length new = n.

(* the obstacles of a tick: scrolled by the distance of the tick, then
   culled at the left *)
Definition scrolled (dt : Q) (g' : Game) (field : list Ob) : list Ob :=
  shiftWhile (fun o => ob_x o + ob_w o <? -80)
             (map (moveOb (worldSpeed (run g') * dt)) field).

(* a run in progress in which a pit has just been spawned *)
Definition afterPit : Game := exec (spawnPit None) playing.


(** ** Vocabulary of the further properties *)

(* [viewW] as [resize] computes it from the size of the canvas *)
Definition cameraWidth (rectW rectH : Q) : Q :=
  clamp (snapTo (Math_round (BASE_VIEW_H *
           (Math_max 1 (Math_floor rectW) / Math_max 1 (Math_floor rectH)))) SNAP)
        MIN_VIEW_W MAX_VIEW_W.

(* [dino.x] as [resize] computes it from the width of the camera *)
Definition actorX (vw : Q) : Q :=
  clamp (clamp (Math_round (vw * 0.14)) 86 140) 70 (Math_max 70 (vw - 140)).

(* [allowLow] of [pickFlyLevel] *)
Definition allowLow (g : Game) : Prop :=
  (stage g = MID /\ 650 < score (run g)) \/
  (stage g = LATE /\ (900 < score (run g) \/ 0.5 < difficulty01 g)).

(* the accumulator of [frame] once the elapsed time is added and capped *)
Definition accumulated (now : Q) (c : Clock) : Q :=
  let acc := clock_acc c + Math_min 0.05 ((now - clock_last c) / 1000) in
  if acc >? MAX_ACCUM then MAX_ACCUM else acc.

(* the bottom edge of a flyer at each flight level, for the ground line
   at 272 *)
Definition flyerBottom (l : FlyLevel) : Q :=
  match l with Level0 => 240 | Level1 => 222 | Level2 => 196 end.

(** The shape of an obstacle, as the three spawn functions build it. *)
Definition obShaped (o : Ob) : Prop :=
  match ob_kind o with
  | CACTUS =>
      14 <= ob_w o /\ ob_w o <= 250 /\ 14 <= ob_h o /\ ob_h o <= 90 /\
      ob_y o + ob_h o == 272
  | FLYER =>
      ob_w o == 48 /\ ob_h o == 24 /\
      exists l, ob_flightLevel o = Some l /\ ob_y o + ob_h o == flyerBottom l
  | PIT => ob_y o == 272 /\ ob_h o == PIT_VISUAL_DEPTH
  end.

(** The camera that [resize] sets up. *)
Definition camera (g : Game) : Prop :=
  viewH (view g) = BASE_VIEW_H /\ groundY (view g) = 272 /\
  MIN_VIEW_W <= viewW (view g) /\ viewW (view g) <= MAX_VIEW_W /\
  exists k : Z, viewW (view g) == inject_Z (16 * k).

(** The posture of the actor for a ground line at [gy]: it is 32 wide and
    either standing or duck high; it ducks only on the ground; on the
    ground it stands on the ground line, at rest. *)
Definition posed (gy : Q) (d : Dino) : Prop :=
  dino_w d = STAND_W /\
  (dino_h d = STAND_H \/ dino_h d = DUCK_H) /\
  (dino_ducking d = true -> dino_onGround d = true /\ dino_h d = DUCK_H) /\
  (dino_onGround d = true -> dino_y d = gy - dino_h d /\ dino_vy d = 0) /\
  90 <= dino_x d /\ dino_x d <= 140.

Definition posture (g : Game) : Prop := posed (groundY (view g)) (dino g).

Definition shapely (g : Game) : Prop :=
  camera g /\ posture g /\ Forall obShaped (obs g).

Definition keeps_shape (g g' : Game) : Prop := shapely g -> shapely g'.

(* the obstacle pushed by [spawnGroundObstacle] for a variant and a seed *)
Definition groundOb (v : GroundVariant) (seed : Z) (g : Game) : Ob :=
  let dims := makeGroundDims v seed g in
  mkOb CACTUS (viewW (view g) + 40) (groundY (view g) - dims_h dims)
       (dims_w dims) (dims_h dims) None (Some v) (Some seed)
       (Some (computeGroundHardness (dims_w dims) (dims_h dims) v g)).

(** Values returned by a computation run on draws of [0, 1). *)
Definition yields {A : Type} (P : A -> Prop) (m : M A) : Prop :=
  forall g, unitDraws (entropy g) -> P (eval m g).

(* a flight level that a pattern may ask for at score [sc]: the low level
   only from score 600 on *)
Definition fineLevel (sc : Q) (l : option FlyLevel) : Prop :=
  match l with
  | Some Level0 => 600 <= sc
  | _ => True
  end.

(* a pattern step at score [sc]: never a pit, a low flyer only from 600 on *)
Definition stepFine (sc : Q) (s : PatternStep) : Prop :=
  match s with
  | StepPit _ _ => False
  | StepFlyer _ l => fineLevel sc l
  | StepCactus _ _ => True
  end.

Definition stepSpaced (s : PatternStep) : Prop := 130 <= step_gapBase s.

(* the steps of a pattern as it is built: the first one is spawned at
   once, the others after a gap *)
Definition patternOk (sc : Q) (steps : list PatternStep) : Prop :=
  Forall (stepFine sc) steps /\ Forall stepSpaced (tl steps).

Definition pickedOk (sc : Q) (r : option (string * list PatternStep)) : Prop :=
  match r with
  | Some (_, steps) => patternOk sc steps
  | None => True
  end.

(* the pattern queue between two spawns *)
Definition queueOk (g : Game) : Prop :=
  match patternQueue (sched g) with
  | Some q => Forall (fun s => stepSpaced s /\ stepFine (score (run g)) s) q
  | None => True
  end.

(* the pattern queue right after [startPattern] *)
Definition queueHead (g : Game) : Prop :=
  match patternQueue (sched g) with
  | Some q => patternOk (score (run g)) q
  | None => True
  end.

(* no two pits in a row, on the kinds of the obstacles from left to right *)
Fixpoint pitsApart (kinds : list ObKind) : Prop :=
  match kinds with
  | a :: rest =>
      match rest with
      | b :: _ => (a = PIT -> b <> PIT) /\ pitsApart rest
      | [] => True
      end
  | [] => True
  end.

Definition kinds (g : Game) : list ObKind := map ob_kind (obs g).

(** What the score allows on the field: no low flyer below 600, no pit
    below 120; pits never follow each other, and [lastKind] remembers a pit
    at the end of the list. *)
Definition fieldOk (g : Game) : Prop :=
  (score (run g) < 600 -> Forall (fun o => lowFlyer o = false) (obs g)) /\
  (score (run g) < 120 -> Forall (fun o => ob_kind o <> PIT) (obs g)) /\
  pitsApart (kinds g) /\
  (last (kinds g) CACTUS = PIT -> lastKind (sched g) = PIT).

(* the schedule and the score between two spawns *)
Definition schedOk (g : Game) : Prop :=
  0 <= lastSpawnHardness (sched g) /\ 130 <= nextSpawnDist (sched g) /\
  0 <= score (run g).

Definition directed (g : Game) : Prop :=
  fairField g /\ schedOk g /\ queueOk g /\ fieldOk g.

Definition keeps_directed (g g' : Game) : Prop := directed g -> directed g'.

(* what the three spawn functions leave alone in the schedule *)
Definition plan_kept (g g' : Game) : Prop :=
  patternQueue (sched g') = patternQueue (sched g) /\
  nextSpawnDist (sched g') = nextSpawnDist (sched g).

(* the state a computation of the director runs in, when only draws were
   made since [g] *)
Definition lands {A : Type} (g : Game) (m : M A) : Prop :=
  forall g', only_draws g g' -> directed (exec m g').

(* what [startPattern] leaves alone: the score, the obstacles and the
   schedule but its queue *)
Definition slate_kept (g g' : Game) : Prop :=
  score (run g') = score (run g) /\ obs g' = obs g /\
  lastSpawnHardness (sched g') = lastSpawnHardness (sched g) /\
  nextSpawnDist (sched g') = nextSpawnDist (sched g) /\
  lastKind (sched g') = lastKind (sched g).

(* two neighbours of the obstacle list are never both pits *)
Definition pitsSeparated (field : list Ob) : Prop :=
  forall front a b back,
    field = front ++ a :: b :: back -> ob_kind a = PIT -> ob_kind b <> PIT.

(* segments in the order of their left ends *)
Fixpoint segsSorted (segs : list Seg) : Prop :=
  match segs with
  | [] => True
  | p :: rest => Forall (fun q => seg_a p <= seg_a q) rest /\ segsSorted rest
  end.

(* [x] lies on a rectangle of the line *)
Definition onLine (x : Q) (r : Rect) : Prop := rx r <= x /\ x < rx r + rw r.

(* [x] lies over the pit [o], cut to a view [vw] wide *)
Definition overPitSpan (vw x : Q) (o : Ob) : Prop :=
  clamp (ob_x o) 0 vw <= x /\ x < clamp (ob_x o + ob_w o) 0 vw.

(* a pit that reaches into the band 40 wide around the view *)
Definition pitInBand (g : Game) (o : Ob) : bool :=
  ObKind_eqb (ob_kind o) PIT &&
  negb ((ob_x o + ob_w o <? -40) || (ob_x o >? viewW (view g) + 40)).

(** * Properties *)

(** ** Comparisons and clamping *)

Lemma Qltb_lt (a b : Q) : (a <? b) = true <-> a < b.
Proof.
  unfold Qltb. rewrite negb_true_iff, <- not_true_iff_false, Qle_bool_iff.
  split; intro H; [apply Qnot_le_lt | apply Qlt_not_le]; exact H.
Qed.

Lemma Qltb_ge (a b : Q) : (a <? b) = false <-> b <= a.
Proof.
  unfold Qltb. rewrite negb_false_iff. apply Qle_bool_iff.
Qed.

Lemma Qleb_le (a b : Q) : (a <=? b) = true <-> a <= b.
Proof. apply Qle_bool_iff. Qed.

Lemma Qleb_gt (a b : Q) : (a <=? b) = false <-> b < a.
Proof.
  unfold Qleb. rewrite <- not_true_iff_false, Qle_bool_iff.
  split; intro H; [apply Qnot_le_lt | apply Qlt_not_le]; exact H.
Qed.

(* turn the boolean tests of the context into order facts *)
Ltac qprop :=
  unfold Qgtb, Qgeb in *;
  repeat match goal with
  | H : (_ <? _) = true |- _ => apply Qltb_lt in H
  | H : (_ <? _) = false |- _ => apply Qltb_ge in H
  | H : (_ <=? _) = true |- _ => apply Qleb_le in H
  | H : (_ <=? _) = false |- _ => apply Qleb_gt in H
  end.

Lemma Math_max_cases (a b : Q) :
  (a < b /\ Math_max a b == b) \/ (b <= a /\ Math_max a b == a).
Proof. apply Q.max_spec. Qed.

Lemma Math_min_cases (a b : Q) :
  (a < b /\ Math_min a b == a) \/ (b <= a /\ Math_min a b == b).
Proof. apply Q.min_spec. Qed.

(* case analysis on every [Math.max] and [Math.min] in sight *)
Ltac minmax_at a b cases op :=
  let H := fresh "Hm" in
  let v := fresh "m" in
  destruct (cases a b) as [[? H] | [? H]];
  remember (op a b) as v in *;
  match goal with E : v = op a b |- _ => clear E end.

Ltac minmax :=
  unfold clamp in *;
  repeat match goal with
  | |- context [Math_max ?a ?b] => minmax_at a b Math_max_cases Math_max
  | |- context [Math_min ?a ?b] => minmax_at a b Math_min_cases Math_min
  | _ : context [Math_max ?a ?b] |- _ => minmax_at a b Math_max_cases Math_max
  | _ : context [Math_min ?a ?b] |- _ => minmax_at a b Math_min_cases Math_min
  end.

Lemma clamp_bounds (n a b : Q) : a <= b -> a <= clamp n a b /\ clamp n a b <= b.
Proof. intros Hab. minmax; lra. Qed.

Lemma clamp_above (n a b : Q) : a <= n -> a <= b -> clamp n a b == Qmin b n.
Proof. intros Hn Hab. unfold clamp. fold (Math_min b n). minmax; lra. Qed.

(** ** Frames of the state monad *)

Section Preservation.

Context (R : Game -> Game -> Prop) `{!PreOrder R}.

Lemma preserves_ret {A : Type} (a : A) : preserves R (ret a).
Proof. intros g; reflexivity. Qed.

Lemma preserves_gets {A : Type} (f : Game -> A) : preserves R (gets f).
Proof. intros g; reflexivity. Qed.

Lemma preserves_modify (f : Game -> Game) :
  (forall g, R g (f g)) -> preserves R (modify f).
Proof. intros H g; apply H. Qed.

Lemma preserves_bind {A B : Type} (m : M A) (k : A -> M B) :
  preserves R m -> (forall a, preserves R (k a)) -> preserves R (bind m k).
Proof.
  intros Hm Hk g. unfold bind. cbn.
  transitivity (snd (m g)); [apply Hm | apply Hk].
Qed.

Lemma preserves_when (a : bool) (m : M unit) : preserves R m -> preserves R (when a m).
Proof. intros Hm; destruct a; [exact Hm | apply preserves_ret]. Qed.

Lemma preserves_andM (a : bool) (m : M bool) : preserves R m -> preserves R (andM a m).
Proof. intros Hm; destruct a; [exact Hm | apply preserves_ret]. Qed.

Lemma preserves_exec {A : Type} (m : M A) (g : Game) : preserves R m -> R g (exec m g).
Proof. intros H; apply H. Qed.

End Preservation.

Create HintDb frames.

(* decompose a computation along its syntax; what is left are the
   assignments and the calls *)
Ltac frame_step :=
  match goal with
  | |- preserves _ (bind _ _) => apply preserves_bind; [exact _ | | intros ?]
  | |- preserves _ (ret _) => apply preserves_ret; exact _
  | |- preserves _ (gets _) => apply preserves_gets; exact _
  | |- preserves _ (when _ _) => apply preserves_when; [exact _ | ]
  | |- preserves _ (andM _ _) => apply preserves_andM; [exact _ | ]
  | |- preserves _ (modify _) => apply preserves_modify; intros ?
  | |- preserves _ (if ?b then _ else _) => destruct b
  | |- preserves _ (match ?x with _ => _ end) => destruct x
  end.

Ltac frames :=
  repeat frame_step;
  lazymatch goal with
  | |- preserves _ _ => auto with frames
  | |- _ => try reflexivity
  end.

#[local] Instance only_draws_PreOrder : PreOrder only_draws.
Proof.
  split.
  - intros g. unfold only_draws. destruct g; reflexivity.
  - intros g1 g2 g3 H12 H23. unfold only_draws in *.
    rewrite H23, H12. reflexivity.
Qed.

#[local] Instance spawn_frame_PreOrder : PreOrder spawn_frame.
Proof.
  split.
  - intros g. unfold spawn_frame. destruct g; reflexivity.
  - intros g1 g2 g3 H12 H23. unfold spawn_frame in *.
    rewrite H23, H12. reflexivity.
Qed.

Lemma only_draws_spawn_frame {A : Type} (m : M A) :
  preserves only_draws m -> preserves spawn_frame m.
Proof.
  intros H g. specialize (H g). unfold only_draws, spawn_frame in *.
  rewrite H. reflexivity.
Qed.

Lemma Math_random_draws : preserves only_draws Math_random.
Proof. intros g. reflexivity. Qed.
#[local] Hint Resolve Math_random_draws : frames.

Lemma rand_draws (a b : Q) : preserves only_draws (rand a b).
Proof. unfold rand. frames. Qed.
#[local] Hint Resolve rand_draws : frames.

Lemma jitter_draws (n amount : Q) : preserves only_draws (jitter n amount).
Proof. unfold jitter. frames. Qed.
#[local] Hint Resolve jitter_draws : frames.

Lemma seedInt_draws : preserves only_draws seedInt.
Proof. unfold seedInt. frames. Qed.
#[local] Hint Resolve seedInt_draws : frames.

Lemma pickGroundVariant_draws (tallBias : Q) :
  preserves only_draws (pickGroundVariant tallBias).
Proof. intros g. reflexivity. Qed.
#[local] Hint Resolve pickGroundVariant_draws : frames.

Lemma pickFlyLevel_draws : preserves only_draws pickFlyLevel.
Proof. unfold pickFlyLevel. frames. Qed.
#[local] Hint Resolve pickFlyLevel_draws : frames.

Lemma computeNextSpawnDist_draws (kind : ObKind) (hardness : Q) :
  preserves only_draws (computeNextSpawnDist kind hardness).
Proof. unfold computeNextSpawnDist. frames. Qed.
#[local] Hint Resolve computeNextSpawnDist_draws : frames.

Lemma canStartPattern_draws : preserves only_draws canStartPattern.
Proof. unfold canStartPattern. frames. Qed.
#[local] Hint Resolve canStartPattern_draws : frames.

Lemma rLevel_draws (set : list FlyLevel) : preserves only_draws (rLevel set).
Proof. unfold rLevel. frames. Qed.
#[local] Hint Resolve rLevel_draws : frames.

Lemma weightedScan_In {A : Type} (weight : A -> Q) (pool : list A) (r : Q) (c : A) :
  weightedScan weight pool r = Some c -> In c pool.
Proof.
  revert r. induction pool as [| p rest IH]; intros r H; cbn in H.
  - discriminate.
  - destruct (r - weight p <=? 0).
    + injection H as ->. now left.
    + right. eapply IH; eassumption.
Qed.

Lemma buildPatterns_draws (g : Game) (p : Pattern) :
  In p (buildPatterns g) -> preserves only_draws (build p).
Proof.
  unfold buildPatterns. cbv zeta. intros Hin.
  repeat (destruct Hin as [<- | Hin]; [cbn [build]; frames | ]).
  destruct Hin.
Qed.

Lemma pickPatternLoop_draws (st : Stage) (first : Pattern) (candidates : list Pattern)
    (left tries : nat) :
  preserves only_draws (build first) ->
  (forall p, In p candidates -> preserves only_draws (build p)) ->
  preserves only_draws (pickPatternLoop st first candidates left tries).
Proof.
  intros Hfirst Hall. revert tries.
  induction left as [| left IH]; intros tries; cbn [pickPatternLoop].
  - apply preserves_bind; [exact _ | auto with frames | intros r].
    destruct (bor0 _ <? 0)%Z; [frames | ].
    destruct (nth_error candidates _) as [fallback |] eqn:E; [ | frames].
    apply nth_error_In in E. frames.
  - apply preserves_bind; [exact _ | auto with frames | intros u].
    destruct (weightedScan _ candidates _) as [c |] eqn:E.
    + apply weightedScan_In in E. frames.
    + frames.
Qed.

Lemma pickPattern_draws : preserves only_draws pickPattern.
Proof.
  intros g. unfold pickPattern, bind, gets. cbn [fst snd].
  destruct (filter _ (buildPatterns g)) as [| first rest] eqn:E.
  - reflexivity.
  - apply pickPatternLoop_draws.
    + apply (buildPatterns_draws g).
      eapply proj1, filter_In. rewrite E. now left.
    + intros p Hp. apply (buildPatterns_draws g).
      eapply proj1, filter_In. rewrite E. exact Hp.
Qed.
#[local] Hint Resolve pickPattern_draws : frames.

#[local] Hint Resolve only_draws_spawn_frame : frames.

Lemma pushOb_spawn (o : Ob) : preserves spawn_frame (pushOb o).
Proof. unfold pushOb. frames. Qed.
#[local] Hint Resolve pushOb_spawn : frames.

Lemma spawnGroundObstacle_spawn (tallBias : Q) :
  preserves spawn_frame (spawnGroundObstacle tallBias).
Proof. unfold spawnGroundObstacle. frames. Qed.
#[local] Hint Resolve spawnGroundObstacle_spawn : frames.

Lemma spawnFlyer_spawn (level : option FlyLevel) : preserves spawn_frame (spawnFlyer level).
Proof. unfold spawnFlyer. frames. Qed.
#[local] Hint Resolve spawnFlyer_spawn : frames.

Lemma spawnPit_spawn (width : option Q) : preserves spawn_frame (spawnPit width).
Proof. unfold spawnPit. frames. Qed.
#[local] Hint Resolve spawnPit_spawn : frames.

Lemma setPatternCooldown_spawn : preserves spawn_frame setPatternCooldown.
Proof. unfold setPatternCooldown. frames. Qed.
#[local] Hint Resolve setPatternCooldown_spawn : frames.

Lemma startPattern_spawn : preserves spawn_frame startPattern.
Proof. unfold startPattern. frames. Qed.
#[local] Hint Resolve startPattern_spawn : frames.

Lemma spawnSingleFair_spawn : preserves spawn_frame spawnSingleFair.
Proof. unfold spawnSingleFair. frames. Qed.
#[local] Hint Resolve spawnSingleFair_spawn : frames.

Lemma spawnStep_spawn (step : PatternStep) : preserves spawn_frame (spawnStep step).
Proof. unfold spawnStep. frames. Qed.
#[local] Hint Resolve spawnStep_spawn : frames.

Lemma scheduleNextAfterSpawn_spawn : preserves spawn_frame scheduleNextAfterSpawn.
Proof. unfold scheduleNextAfterSpawn. frames. Qed.
#[local] Hint Resolve scheduleNextAfterSpawn_spawn : frames.

Lemma spawnQueued_spawn (step : PatternStep) (rest : list PatternStep) :
  preserves spawn_frame (spawnQueued step rest).
Proof. unfold spawnQueued. frames. Qed.
#[local] Hint Resolve spawnQueued_spawn : frames.

Lemma spawnManagerTick_spawn : preserves spawn_frame spawnManagerTick.
Proof. unfold spawnManagerTick. frames. Qed.
#[local] Hint Resolve spawnManagerTick_spawn : frames.

Lemma updateSpawn_spawn (dt : Q) : preserves spawn_frame (updateSpawn dt).
Proof. unfold updateSpawn. frames. Qed.
#[local] Hint Resolve updateSpawn_spawn : frames.

(* read a variable back through the assignments that precede it *)
Ltac lookup :=
  cbn [
    view run dino obs sched input scenery pitFall entropy drawn with_view
    with_run with_dino with_obs with_sched with_input with_scenery
    with_pitFall with_entropy with_drawn viewW viewH groundY set_viewW
    set_viewH set_groundY state worldSpeed score animTime best set_state
    set_worldSpeed set_score set_animTime set_best dino_x dino_y dino_w
    dino_h dino_vy dino_onGround dino_ducking set_dino_x set_dino_y
    set_dino_w set_dino_h set_dino_vy set_dino_onGround set_dino_ducking
    distSinceSpawn nextSpawnDist lastKind lastFlyLevel lastSpawnHardness
    lastSpawnWasHard patternQueue patternCooldownDist recentPatterns
    guardAfterPit guardAfterLowFlyer set_distSinceSpawn set_nextSpawnDist
    set_lastKind set_lastFlyLevel set_lastSpawnHardness set_lastSpawnWasHard
    set_patternQueue set_patternCooldownDist set_recentPatterns
    set_guardAfterPit set_guardAfterLowFlyer jumpDown downDown jumpBuffer
    coyote jumpHold showHitboxes set_jumpDown set_downDown set_jumpBuffer
    set_coyote set_jumpHold set_showHitboxes farOff midOff nearOff groundOff
    clouds nextCloudSpawn particles set_farOff set_midOff set_nearOff
    set_groundOff set_clouds set_nextCloudSpawn set_particles set_obs
    set_pitFall set_drawn fst snd exec eval bind ret gets modify when andM ] in *.

#[local] Instance stays_out_PreOrder : PreOrder stays_out.
Proof.
  split.
  - intros g H. exact H.
  - intros g1 g2 g3 H12 H23 H. auto.
Qed.

Lemma spawn_frame_stays {A : Type} (m : M A) :
  preserves spawn_frame m -> preserves stays_out m.
Proof.
  intros H g. specialize (H g). unfold spawn_frame in H.
  rewrite H. intros E; exact E.
Qed.

(* the assignments: split the tests, then read the variables back *)
Ltac assigned :=
  cbv zeta;
  repeat match goal with
  | |- context [if ?b then _ else _] => destruct b
  end;
  first [ split; lookup; solve [auto | intros; lra | discriminate]
        | intros ?; lookup; solve [auto | discriminate] ].

Ltac frames_stays :=
  repeat frame_step;
  lazymatch goal with
  | |- preserves _ _ => auto with frames
  | |- _ => try assigned
  end.

#[local] Hint Resolve spawn_frame_stays : frames.

Lemma spawnDust_stays (x y : Q) (count : nat) (intensity : Q) :
  preserves stays_out (spawnDust x y count intensity).
Proof.
  induction count as [| n IH]; cbn [spawnDust]; unfold spawnDust1; frames_stays.
Qed.
#[local] Hint Resolve spawnDust_stays : frames.

Lemma performJump_stays : preserves stays_out performJump.
Proof. unfold performJump. frames_stays. Qed.
#[local] Hint Resolve performJump_stays : frames.

Lemma startRunFresh_state (g : Game) : state (run (startRunFresh g)) = RUNNING.
Proof. reflexivity. Qed.

Lemma tryConsumeJump_stays : preserves stays_out tryConsumeJump.
Proof.
  unfold tryConsumeJump. frames_stays.
Qed.
#[local] Hint Resolve tryConsumeJump_stays : frames.

Lemma gameOver_state (g : Game) : state (run (gameOver g)) = GAMEOVER.
Proof. unfold gameOver. cbv zeta. destruct (_ >? _); reflexivity. Qed.

Lemma gameOver_stays (g : Game) : stays_out g (gameOver g).
Proof. intros E. rewrite gameOver_state in E. discriminate E. Qed.

Lemma applyDuckVisual_run (duck : bool) (g : Game) : run (applyDuckVisual duck g) = run g.
Proof.
  unfold applyDuckVisual.
  repeat match goal with |- context [if ?b then _ else _] => destruct b end; reflexivity.
Qed.

Lemma applyDuckVisual_stays (duck : bool) (g : Game) : stays_out g (applyDuckVisual duck g).
Proof. unfold stays_out. now rewrite applyDuckVisual_run. Qed.

Lemma updateParticles_run (dt : Q) (g : Game) : run (updateParticles dt g) = run g.
Proof. unfold updateParticles. cbv zeta. destruct (_ >? _); reflexivity. Qed.

Lemma updatePacing_state (dt : Q) (g : Game) :
  state (run (updatePacing dt g)) = state (run g).
Proof.
  unfold updatePacing. cbv zeta.
  repeat match goal with |- context [if ?b then _ else _] => destruct b end; reflexivity.
Qed.

Lemma updateActor_stays (dt : Q) : preserves stays_out (updateActor dt).
Proof.
  unfold updateActor, updateControls, updatePhysics, integrateGravity. frames_stays; apply applyDuckVisual_stays.
Qed.

Lemma updateScenery_stays (dt : Q) : preserves stays_out (updateScenery dt).
Proof. unfold updateScenery. frames_stays. Qed.

Lemma updateObstacles_run (dt : Q) (g : Game) : run (updateObstacles dt g) = run g.
Proof. reflexivity. Qed.

Lemma updateCollisions_stays (g : Game) : stays_out g (updateCollisions g).
Proof.
  unfold updateCollisions. cbv zeta.
  destruct (existsb _ _); [apply gameOver_stays | reflexivity].
Qed.

#[local] Hint Resolve updateActor_stays updateScenery_stays updateSpawn_spawn : frames.

Lemma resize_env (rectW rectH : Q) (g : Game) : env_ok g (resize rectW rectH g).
Proof. unfold resize. assigned. Qed.

Lemma FIXED_DT_value : FIXED_DT == 1 # 120.
Proof. reflexivity. Qed.

Lemma FIXED_DT_pos : 0 <= FIXED_DT.
Proof. rewrite FIXED_DT_value. lra. Qed.

(** ** Pit sizing *)

Lemma rand_value (lo hi : Q) (g : Game) :
  eval (rand lo hi) g = lo + entropy g (drawn g) * (hi - lo).
Proof. reflexivity. Qed.

Lemma spawnPit_given (w : Q) (g : Game) :
  obs (exec (spawnPit (Some w)) g) = obs g ++ [pitOb w g] /\
  drawn (exec (spawnPit (Some w)) g) = drawn g.
Proof. split; reflexivity. Qed.

Lemma spawnPit_random (g : Game) :
  obs (exec (spawnPit None) g) =
    obs g ++ [pitOb (eval (rand PIT_MIN_W (computeSafePitWidth g)) g) g].
Proof. reflexivity. Qed.

Lemma spawnPit_guard (width : option Q) (g : Game) :
  guardAfterPit (sched (exec (spawnPit width) g)) = SAFE_AFTER_PIT_DIST.
Proof. destruct width; reflexivity. Qed.

Lemma rand_between (lo hi : Q) (g : Game) :
  unitDraws (entropy g) -> lo <= hi ->
  lo <= eval (rand lo hi) g /\ eval (rand lo hi) g <= hi.
Proof.
  intros Hd Hle. rewrite rand_value.
  destruct (Hd (drawn g)) as [H0 H1].
  set (u := entropy g (drawn g)) in *. clearbody u.
  split; nra.
Qed.

Lemma computeSafePitWidth_range (g : Game) :
  PIT_MIN_W <= computeSafePitWidth g /\ computeSafePitWidth g <= PIT_MAX_W_HARDCAP.
Proof.
  unfold computeSafePitWidth. cbv zeta. apply clamp_bounds.
  unfold PIT_MIN_W, PIT_MAX_W_HARDCAP. lra.
Qed.

Lemma computeSafePitWidth_clearance (g : Game) :
  260 <= worldSpeed (run g) ->
  computeSafePitWidth g == Qmin PIT_MAX_W_HARDCAP (worldSpeed (run g) * 0.62 - 45).
Proof.
  intros Hs. unfold computeSafePitWidth. cbv zeta. apply clamp_above.
  - unfold PIT_MIN_W. lra.
  - unfold PIT_MIN_W, PIT_MAX_W_HARDCAP. lra.
Qed.

(** *** Solvability of every pit on the field *)

#[local] Instance keeps_fair_PreOrder : PreOrder keeps_fair.
Proof.
  split.
  - intros g H. exact H.
  - intros g1 g2 g3 H12 H23 H. auto.
Qed.

Lemma pitSolvable_faster (g g' : Game) (o : Ob) :
  worldSpeed (run g) <= worldSpeed (run g') -> pitSolvable g o -> pitSolvable g' o.
Proof.
  unfold pitSolvable, clearable. intros Hs H Hk.
  destruct (H Hk) as [Hlo Hhi]. split; [exact Hlo | ].
  apply Q.min_glb_iff in Hhi. destruct Hhi as [Hcap Hclear].
  apply Q.min_glb; lra.
Qed.

Lemma fairField_same (g g' : Game) :
  entropy g' = entropy g -> run g' = run g -> obs g' = obs g -> sched g' = sched g ->
  keeps_fair g g'.
Proof.
  intros He Hr Ho Hs (Hd & Hw & Hp & Hq).
  unfold fairField, queueUnsized. rewrite He, Hr, Ho, Hs.
  split; [exact Hd | split; [exact Hw | split; [ | exact Hq]]].
  eapply Forall_impl; [ | exact Hp].
  intros o. apply pitSolvable_faster. rewrite Hr. lra.
Qed.

Lemma only_draws_fair {A : Type} (m : M A) :
  preserves only_draws m -> preserves keeps_fair m.
Proof.
  intros H g. specialize (H g). unfold only_draws in H.
  apply fairField_same; rewrite H; reflexivity.
Qed.
#[local] Hint Resolve only_draws_fair : frames.

(* the assignments that leave draws, run, obstacles and schedule alone *)
Ltac untouched :=
  cbv zeta;
  repeat match goal with
  | |- context [if ?b then _ else _] => destruct b
  end;
  solve [ apply fairField_same; reflexivity | reflexivity ].

Ltac frames_fair :=
  repeat frame_step;
  lazymatch goal with
  | |- preserves _ _ => auto with frames
  | |- _ => try untouched
  end.

Lemma pushOb_fair (o : Ob) : ob_kind o <> PIT -> preserves keeps_fair (pushOb o).
Proof.
  intros Hk g (Hd & Hw & Hp & Hq). unfold pushOb, modify. lookup.
  split; [exact Hd | split; [exact Hw | split; [ | exact Hq]]].
  apply Forall_app. split.
  - exact Hp.
  - constructor; [ | constructor]. intros E. contradiction.
Qed.

Lemma sched_only_fair (f : Sched -> Sched) (g : Game) :
  (forall s, patternQueue (f s) = patternQueue s) ->
  keeps_fair g (with_sched (f (sched g)) g).
Proof.
  intros Hf (Hd & Hw & Hp & Hq). unfold fairField, queueUnsized in *. lookup.
  rewrite Hf. split; [exact Hd | split; [exact Hw | split; [exact Hp | exact Hq]]].
Qed.

(* assignments to schedule variables other than the pattern queue *)
Ltac rescheduled :=
  cbv zeta;
  repeat match goal with
  | |- context [if ?b then _ else _] => destruct b
  end;
  solve [ reflexivity
        | match goal with
          | |- keeps_fair ?g (?set ?v ?g) =>
              unfold set; cbv zeta;
              match goal with
              | |- keeps_fair g (with_sched ?s g) =>
                  let f := eval pattern (sched g) in s in
                  match f with
                  | ?F _ => apply (sched_only_fair F g); intros ?; reflexivity
                  end
              end
          end ].

Ltac frames_sched :=
  repeat frame_step;
  lazymatch goal with
  | |- preserves _ _ => auto with frames
  | |- _ => try rescheduled
  end.

Lemma spawnGroundObstacle_fair (tallBias : Q) :
  preserves keeps_fair (spawnGroundObstacle tallBias).
Proof.
  unfold spawnGroundObstacle. frames_sched.
  apply pushOb_fair. discriminate.
Qed.

Lemma spawnFlyer_fair (level : option FlyLevel) : preserves keeps_fair (spawnFlyer level).
Proof.
  unfold spawnFlyer. frames_sched; apply pushOb_fair; discriminate.
Qed.

Lemma spawnPit_None_fair : preserves keeps_fair (spawnPit None).
Proof.
  intros g (Hd & Hw & Hp & Hq).
  change (snd (spawnPit None g)) with (exec (spawnPit None) g).
  unfold fairField, queueUnsized.
  rewrite spawnPit_random.
  change (entropy (exec (spawnPit None) g)) with (entropy g).
  change (run (exec (spawnPit None) g)) with (run g).
  change (patternQueue (sched (exec (spawnPit None) g))) with (patternQueue (sched g)).
  split; [exact Hd | split; [exact Hw | split; [ | exact Hq]]].
  apply Forall_app. split.
  - exact Hp.
  - constructor; [ | constructor]. intros _.
    change (ob_w (pitOb ?w g)) with w.
    destruct (computeSafePitWidth_range g) as [Hlo Hhi].
    destruct (rand_between PIT_MIN_W (computeSafePitWidth g) g Hd Hlo) as [Hr1 Hr2].
    split; [exact Hr1 | ].
    change (clearable (exec (spawnPit None) g)) with (worldSpeed (run g) * 0.62 - 45).
    rewrite <- (computeSafePitWidth_clearance g Hw). exact Hr2.
Qed.

Lemma returns_ret {A : Type} (P : A -> Prop) (a : A) : P a -> returns P (ret a).
Proof. intros H g. exact H. Qed.

Lemma returns_bind {A B : Type} (P : B -> Prop) (m : M A) (k : A -> M B) :
  (forall a, returns P (k a)) -> returns P (bind m k).
Proof. intros H g. apply H. Qed.

Ltac returns_step :=
  match goal with
  | |- returns _ (bind _ _) => apply returns_bind; intros ?
  | |- returns _ (ret _) => apply returns_ret
  | |- returns _ (if ?b then _ else _) => destruct b
  | |- returns _ (match ?x with _ => _ end) => destruct x
  end.

Lemma buildPatterns_unsized (g : Game) (p : Pattern) :
  In p (buildPatterns g) -> returns (Forall stepUnsized) (build p).
Proof.
  unfold buildPatterns. cbv zeta. intros Hin.
  repeat (destruct Hin as [<- | Hin];
          [cbn [build]; repeat returns_step; repeat constructor | ]).
  destruct Hin.
Qed.

Lemma build_picked (p : Pattern) :
  returns (Forall stepUnsized) (build p) ->
  returns pickedUnsized (steps <- build p ;; ret (Some (pat_id p, steps))).
Proof. intros H g. apply H. Qed.

Lemma pickPatternLoop_unsized (st : Stage) (first : Pattern) (candidates : list Pattern)
    (left tries : nat) :
  returns (Forall stepUnsized) (build first) ->
  (forall p, In p candidates -> returns (Forall stepUnsized) (build p)) ->
  returns pickedUnsized (pickPatternLoop st first candidates left tries).
Proof.
  intros Hfirst Hall. revert tries.
  induction left as [| left IH]; intros tries; cbn [pickPatternLoop].
  - apply returns_bind; intros r.
    destruct (bor0 _ <? 0)%Z; [apply returns_ret; exact I | ].
    destruct (nth_error candidates _) as [fallback |] eqn:E.
    + apply nth_error_In in E. apply build_picked. auto.
    + apply returns_ret; exact I.
  - apply returns_bind; intros u.
    apply returns_bind; intros used.
    destruct (negb used || (5 <=? tries)%nat); [ | apply IH].
    apply build_picked.
    destruct (weightedScan _ candidates _) as [c |] eqn:E.
    + apply weightedScan_In in E. auto.
    + exact Hfirst.
Qed.

Lemma pickPattern_unsized : returns pickedUnsized pickPattern.
Proof.
  intros g. unfold pickPattern, bind, gets. cbn [fst snd].
  destruct (filter _ (buildPatterns g)) as [| first rest] eqn:E.
  - exact I.
  - apply pickPatternLoop_unsized.
    + apply (buildPatterns_unsized g).
      eapply proj1, filter_In. rewrite E. now left.
    + intros p Hp. apply (buildPatterns_unsized g).
      eapply proj1, filter_In. rewrite E. exact Hp.
Qed.

Lemma set_patternQueue_fair (q : option (list PatternStep)) (g : Game) :
  match q with Some steps => Forall stepUnsized steps | None => True end ->
  keeps_fair g (set_patternQueue q g).
Proof.
  intros Hq (Hd & Hw & Hp & _).
  split; [exact Hd | split; [exact Hw | split; [exact Hp | exact Hq]]].
Qed.

Lemma pushRecentPattern_fair (id : string) (g : Game) : keeps_fair g (pushRecentPattern id g).
Proof. unfold pushRecentPattern. rescheduled. Qed.

Lemma setPatternCooldown_fair : preserves keeps_fair setPatternCooldown.
Proof. unfold setPatternCooldown. frames_sched. Qed.

Lemma startPattern_fair : preserves keeps_fair startPattern.
Proof.
  intros g Hfair. unfold startPattern, bind. cbn [fst snd].
  pose proof (pickPattern_unsized g) as Hret.
  pose proof (only_draws_fair _ pickPattern_draws g Hfair) as Hfair1.
  destruct (fst (pickPattern g)) as [[id steps] |]; cbn [fst snd].
  - apply setPatternCooldown_fair, pushRecentPattern_fair.
    apply (set_patternQueue_fair (Some steps)); assumption.
  - exact Hfair1.
Qed.

Lemma scheduleNextAfterSpawn_fair : preserves keeps_fair scheduleNextAfterSpawn.
Proof. unfold scheduleNextAfterSpawn. frames_sched. Qed.

Lemma spawnSingleFair_fair : preserves keeps_fair spawnSingleFair.
Proof.
  pose proof spawnGroundObstacle_fair. pose proof spawnFlyer_fair.
  pose proof spawnPit_None_fair.
  unfold spawnSingleFair. frames_fair.
Qed.

Lemma spawnStep_fair (step : PatternStep) :
  stepUnsized step -> preserves keeps_fair (spawnStep step).
Proof.
  destruct step as [gap tb | gap lvl | gap [w |]]; cbn [stepUnsized spawnStep]; intros H.
  - apply spawnGroundObstacle_fair.
  - apply spawnFlyer_fair.
  - destruct H.
  - apply spawnPit_None_fair.
Qed.

Lemma spawnQueued_fair (step : PatternStep) (rest : list PatternStep) :
  stepUnsized step -> Forall stepUnsized rest ->
  preserves keeps_fair (spawnQueued step rest).
Proof.
  intros Hstep Hrest. unfold spawnQueued.
  apply preserves_bind; [exact _ | | intros _].
  { apply preserves_modify. intros g. now apply (set_patternQueue_fair (Some rest)). }
  apply preserves_bind; [exact _ | now apply spawnStep_fair | intros _].
  apply preserves_bind; [exact _ | apply preserves_gets; exact _ | intros q].
  apply preserves_bind; [exact _ | | intros _].
  { apply preserves_when; [exact _ | ]. apply preserves_modify.
    intros g. now apply (set_patternQueue_fair None). }
  apply scheduleNextAfterSpawn_fair.
Qed.

Lemma queue_head_unsized (g : Game) (step : PatternStep) (rest : list PatternStep) :
  fairField g -> patternQueue (sched g) = Some (step :: rest) ->
  stepUnsized step /\ Forall stepUnsized rest.
Proof.
  intros (_ & _ & _ & Hq) E. unfold queueUnsized in Hq. rewrite E in Hq.
  inversion Hq; subst. split; assumption.
Qed.

Lemma spawnManagerTick_fair : preserves keeps_fair spawnManagerTick.
Proof.
  intros g Hfair. unfold spawnManagerTick.
  unfold bind at 1. unfold gets at 1. cbn [fst snd].
  assert (Hfresh : fairField (snd
            ((start <- canStartPattern ;;
              when start startPattern ;;
              q <- gets (fun g => patternQueue (sched g)) ;;
              match start, q with
              | true, Some (first :: rest) => spawnQueued first rest
              | _, _ => spawnSingleFair ;; scheduleNextAfterSpawn
              end) g))).
  { unfold bind at 1. cbn [fst snd].
    pose proof (only_draws_fair _ canStartPattern_draws g Hfair) as H1.
    set (g1 := snd (canStartPattern g)) in *.
    set (start := fst (canStartPattern g)).
    unfold bind at 1. cbn [fst snd].
    assert (H2 : fairField (snd (when start startPattern g1))).
    { destruct start; [now apply startPattern_fair | exact H1]. }
    set (g2 := snd (when start startPattern g1)) in *.
    unfold bind at 1. unfold gets at 1. cbn [fst snd].
    assert (Hsingle : fairField (snd ((spawnSingleFair ;; scheduleNextAfterSpawn) g2))).
    { unfold bind. cbn [fst snd].
      apply scheduleNextAfterSpawn_fair, spawnSingleFair_fair, H2. }
    destruct start; [ | exact Hsingle].
    destruct (patternQueue (sched g2)) as [[| first rest] |] eqn:E; try exact Hsingle.
    destruct (queue_head_unsized g2 first rest H2 E) as [Hf Hr].
    now apply spawnQueued_fair. }
  destruct (patternQueue (sched g)) as [[| step rest] |] eqn:E; try exact Hfresh.
  destruct (queue_head_unsized g step rest Hfair E) as [Hs Hr].
  now apply spawnQueued_fair.
Qed.

Lemma fairField_faster (g g' : Game) :
  entropy g' = entropy g ->
  worldSpeed (run g) <= worldSpeed (run g') ->
  obs g' = obs g ->
  patternQueue (sched g') = patternQueue (sched g) ->
  keeps_fair g g'.
Proof.
  intros He Hr Ho Hs (Hd & Hw & Hp & Hq).
  unfold fairField, queueUnsized. rewrite He, Ho, Hs.
  split; [exact Hd | split; [lra | split; [ | exact Hq]]].
  eapply Forall_impl; [ | exact Hp].
  intros o. apply pitSolvable_faster. exact Hr.
Qed.

Lemma fairField_fresh (g : Game) :
  unitDraws (entropy g) ->
  worldSpeed (run g) = 260 -> obs g = [] -> patternQueue (sched g) = None ->
  fairField g.
Proof.
  intros Hd Hw Ho Hq. unfold fairField, queueUnsized. rewrite Hw, Ho, Hq.
  split; [exact Hd | split; [lra | split; [constructor | exact I]]].
Qed.

Lemma startRunFresh_fair (g : Game) : keeps_fair g (startRunFresh g).
Proof. intros (Hd & _). apply fairField_fresh; [exact Hd | reflexivity ..]. Qed.

Lemma resetToReady_fresh (g : Game) :
  entropy (exec resetToReady g) = entropy g /\
  state (run (exec resetToReady g)) = READY /\
  worldSpeed (run (exec resetToReady g)) = 260 /\
  score (run (exec resetToReady g)) = 0 /\
  obs (exec resetToReady g) = [] /\
  patternQueue (sched (exec resetToReady g)) = None.
Proof. repeat split. Qed.

Lemma resetToReady_fair : preserves keeps_fair resetToReady.
Proof.
  intros g (Hd & _).
  destruct (resetToReady_fresh g) as (He & _ & Hw & _ & Ho & Hq).
  apply fairField_fresh; [ | assumption ..].
  unfold exec in He. rewrite He. exact Hd.
Qed.

Lemma spawnDust_fair (x y : Q) (count : nat) (intensity : Q) :
  preserves keeps_fair (spawnDust x y count intensity).
Proof.
  induction count as [| n IH]; cbn [spawnDust]; unfold spawnDust1; frames_fair.
Qed.
#[local] Hint Resolve spawnDust_fair : frames.

Lemma performJump_fair : preserves keeps_fair performJump.
Proof. unfold performJump. frames_fair. Qed.
#[local] Hint Resolve performJump_fair : frames.

Lemma tryConsumeJump_fair : preserves keeps_fair tryConsumeJump.
Proof.
  unfold tryConsumeJump. frames_fair. apply startRunFresh_fair.
Qed.
#[local] Hint Resolve tryConsumeJump_fair : frames.

Lemma applyDuckVisual_fair (duck : bool) (g : Game) : keeps_fair g (applyDuckVisual duck g).
Proof. unfold applyDuckVisual. untouched. Qed.

Lemma gameOver_fair (g : Game) : keeps_fair g (gameOver g).
Proof.
  unfold gameOver. cbv zeta.
  destruct (_ >? _); apply fairField_faster; lookup; try reflexivity; lra.
Qed.

Lemma updateParticles_fair (dt : Q) (g : Game) : keeps_fair g (updateParticles dt g).
Proof. unfold updateParticles. untouched. Qed.

Lemma updatePacing_fair (dt : Q) (g : Game) : 0 <= dt -> keeps_fair g (updatePacing dt g).
Proof.
  intros Hdt. unfold updatePacing. cbv zeta.
  repeat match goal with |- context [if ?b then _ else _] => destruct b end;
    apply fairField_faster; lookup; try reflexivity; lra.
Qed.

Lemma updateActor_fair (dt : Q) : preserves keeps_fair (updateActor dt).
Proof. unfold updateActor, updateControls, updatePhysics, integrateGravity. frames_fair; apply applyDuckVisual_fair. Qed.

Lemma updateScenery_fair (dt : Q) : preserves keeps_fair (updateScenery dt).
Proof. unfold updateScenery. frames_fair. Qed.

Lemma updateSpawn_fair (dt : Q) : preserves keeps_fair (updateSpawn dt).
Proof.
  pose proof spawnManagerTick_fair.
  unfold updateSpawn. frames_sched.
Qed.

Lemma shiftWhile_Forall {A : Type} (P : A -> Prop) (test : A -> bool) (a : list A) :
  Forall P a -> Forall P (shiftWhile test a).
Proof.
  induction 1 as [| x rest Hx Hrest IH]; cbn [shiftWhile].
  - constructor.
  - destruct (test x); [exact IH | now constructor].
Qed.

Lemma updateObstacles_fair (dt : Q) (g : Game) : keeps_fair g (updateObstacles dt g).
Proof.
  intros (Hd & Hw & Hp & Hq). unfold updateObstacles. cbv zeta.
  split; [exact Hd | split; [exact Hw | split; [ | exact Hq]]].
  lookup. apply shiftWhile_Forall, Forall_map.
  eapply Forall_impl; [ | exact Hp].
  intros o Ho. exact Ho.
Qed.

Lemma updateCollisions_fair (g : Game) : keeps_fair g (updateCollisions g).
Proof.
  unfold updateCollisions. cbv zeta.
  destruct (existsb _ _); [apply gameOver_fair | reflexivity].
Qed.

Lemma update_fair (dt : Q) : 0 <= dt -> preserves keeps_fair (update dt).
Proof.
  intros Hdt. unfold update.
  apply preserves_bind; [exact _ | | intros _].
  { apply preserves_modify. apply updateParticles_fair. }
  apply preserves_bind; [exact _ | apply preserves_gets; exact _ | intros st].
  destruct st.
  - frames_fair.
  - apply preserves_bind; [exact _ | | intros _].
    { apply preserves_modify. intros g. apply updatePacing_fair. exact Hdt. }
    apply preserves_bind; [exact _ | apply updateActor_fair | intros _].
    apply preserves_bind; [exact _ | apply preserves_gets; exact _ | intros fell].
    destruct fell.
    + apply preserves_modify. apply gameOver_fair.
    + apply preserves_bind; [exact _ | apply updateScenery_fair | intros _].
      apply preserves_bind; [exact _ | apply updateSpawn_fair | intros _].
      apply preserves_bind; [exact _ | | intros _].
      * apply preserves_modify. apply updateObstacles_fair.
      * apply preserves_modify. apply updateCollisions_fair.
  - apply preserves_ret; exact _.
Qed.

Lemma resize_fair (rectW rectH : Q) (g : Game) : keeps_fair g (resize rectW rectH g).
Proof. unfold resize. untouched. Qed.

Lemma handle_fair (ev : Event) : preserves keeps_fair (handle ev).
Proof.
  pose proof resetToReady_fair.
  destruct ev as [e | e | | | rectW rectH |]; cbn [handle].
  - unfold onKeyDown, queueJump. frames_fair;
      first [apply startRunFresh_fair | apply applyDuckVisual_fair].
  - unfold onKeyUp, cutJumpIfNeeded. frames_fair.
  - unfold onPointerDown, queueJump. frames_fair. apply startRunFresh_fair.
  - unfold onPointerUp, cutJumpIfNeeded. frames_fair.
  - apply preserves_modify. apply resize_fair.
  - apply update_fair, FIXED_DT_pos.
Qed.

Lemma boot_fair (rectW rectH best0 : Q) (draws : nat -> Q) :
  unitDraws draws -> fairField (boot rectW rectH best0 draws).
Proof.
  intros Hd. unfold boot.
  set (g := resize rectW rectH (initialVars best0 draws)).
  destruct (resetToReady_fresh g) as (He & _ & Hw & _ & Ho & Hq).
  apply fairField_fresh; [ | assumption ..].
  rewrite He. subst g.
  destruct (resize_env rectW rectH (initialVars best0 draws)) as [He' _].
  rewrite He'. exact Hd.
Qed.

(** Every state of a run is a fair field. *)
Lemma reachable_fair (g : Game) : reachable g -> fairField g.
Proof.
  induction 1 as [rectW rectH best0 draws Hd | g ev _ IH].
  - now apply boot_fair.
  - now apply handle_fair.
Qed.

(** ** Claims on pit sizing *)

(** C1. In every state [g] reached during a run (the world speed starts
    at 260 and only increases while RUNNING), every pit on the field has
    a width within [PIT_MIN_W, min(PIT_MAX_W_HARDCAP, clearable)] for
    [clearable = worldSpeed * 0.62 - 45], and a pit spawned there without
    a width of its own gets a width drawn from that interval; in particular
    its width never exceeds the clearance. *)
Theorem pit_width_within_clearance (g : Game) :
  reachable g ->
  Forall (pitSolvable g) (obs g) /\
  exists w,
    obs (exec (spawnPit None) g) = obs g ++ [pitOb w g] /\
    PIT_MIN_W <= w /\
    w <= Qmin PIT_MAX_W_HARDCAP (worldSpeed (run g) * 0.62 - 45) /\
    w <= worldSpeed (run g) * 0.62 - 45.
Proof.
  intros Hreach.
  destruct (reachable_fair g Hreach) as (Hd & Hw & Hp & _).
  split; [exact Hp | ].
  exists (eval (rand PIT_MIN_W (computeSafePitWidth g)) g).
  destruct (computeSafePitWidth_range g) as [Hlo Hhi].
  destruct (rand_between PIT_MIN_W (computeSafePitWidth g) g Hd Hlo) as [Hr1 Hr2].
  assert (Hr3 : eval (rand PIT_MIN_W (computeSafePitWidth g)) g
                <= Qmin PIT_MAX_W_HARDCAP (worldSpeed (run g) * 0.62 - 45)).
  { eapply Qle_trans; [exact Hr2 | ].
    rewrite (computeSafePitWidth_clearance g Hw). apply Qle_refl. }
  split; [apply spawnPit_random | split; [exact Hr1 | split; [exact Hr3 | ]]].
  apply Q.min_glb_iff in Hr3. apply Hr3.
Qed.

Lemma pit_width_within_clearance_witness :
  Forall (pitSolvable (bootWith 0.5)) (obs (bootWith 0.5)) /\
  exists w,
    obs (exec (spawnPit None) (bootWith 0.5)) = obs (bootWith 0.5) ++ [pitOb w (bootWith 0.5)] /\
    PIT_MIN_W <= w /\
    w <= Qmin PIT_MAX_W_HARDCAP (worldSpeed (run (bootWith 0.5)) * 0.62 - 45) /\
    w <= worldSpeed (run (bootWith 0.5)) * 0.62 - 45.
Proof.
  apply (pit_width_within_clearance (bootWith 0.5)).
  refine (reach_boot 640 360 0 (fun _ => 0.5) _).
  intros n. split; [discriminate | reflexivity].
Defined.

(** C2 (as the code has it). At world speed 260, [computeSafePitWidth]
    returns [min(240, 260 * 0.62 - 45)], a value in the interval from 90
    to that minimum, which lies between 116 and 116.3 and so above 115.2;
    a pit spawned at that speed without a width of its own uses a width
    between 90 and the value that [computeSafePitWidth] returns. *)
Theorem safe_pit_width_at_initial_speed (g : Game) :
  worldSpeed (run g) == 260 ->
  unitDraws (entropy g) ->
  computeSafePitWidth g == Qmin 240 (260 * 0.62 - 45) /\
  90 <= computeSafePitWidth g /\
  116 < computeSafePitWidth g /\ computeSafePitWidth g < 116.3 /\
  exists w,
    obs (exec (spawnPit None) g) = obs g ++ [pitOb w g] /\
    90 <= w /\ w <= computeSafePitWidth g.
Proof.
  intros Hs Hd.
  assert (Hw : computeSafePitWidth g == Qmin 240 (260 * 0.62 - 45)).
  { unfold computeSafePitWidth, PIT_MIN_W, PIT_MAX_W_HARDCAP. cbv zeta.
    fold (Math_min 240 (260 * 0.62 - 45)). minmax; lra. }
  assert (Hv : 116 < Qmin 240 (260 * 0.62 - 45) /\ Qmin 240 (260 * 0.62 - 45) < 116.3).
  { fold (Math_min 240 (260 * 0.62 - 45)). minmax; lra. }
  destruct (computeSafePitWidth_range g) as [Hlo _].
  split; [exact Hw | split; [exact Hlo | split; [ | split]]].
  - rewrite Hw. apply Hv.
  - rewrite Hw. apply Hv.
  - exists (eval (rand PIT_MIN_W (computeSafePitWidth g)) g).
    destruct (rand_between PIT_MIN_W (computeSafePitWidth g) g Hd Hlo) as [Hr1 Hr2].
    split; [apply spawnPit_random | ].
    unfold PIT_MIN_W in Hr1. split; assumption.
Qed.

Lemma safe_pit_width_at_initial_speed_witness :
  computeSafePitWidth (bootWith 0.5) == Qmin 240 (260 * 0.62 - 45) /\
  90 <= computeSafePitWidth (bootWith 0.5) /\
  116 < computeSafePitWidth (bootWith 0.5) /\ computeSafePitWidth (bootWith 0.5) < 116.3 /\
  exists w,
    obs (exec (spawnPit None) (bootWith 0.5)) = obs (bootWith 0.5) ++ [pitOb w (bootWith 0.5)] /\
    90 <= w /\ w <= computeSafePitWidth (bootWith 0.5).
Proof.
  apply (safe_pit_width_at_initial_speed (bootWith 0.5)).
  - reflexivity.
  - intros n. split; [discriminate | reflexivity].
Defined.

(** C2 fails with the bound 115.2: at world speed 260 the safe width is
    above 116, and a draw of 0.99 spawns a pit wider than 115.2. *)
Lemma safe_pit_width_exceeds_115_2 :
  worldSpeed (run (bootWith 0.99)) == 260 /\
  unitDraws (entropy (bootWith 0.99)) /\
  ~ (computeSafePitWidth (bootWith 0.99) <= 115.2) /\
  exists o,
    obs (exec (spawnPit None) (bootWith 0.99)) = obs (bootWith 0.99) ++ [o] /\
    ob_kind o = PIT /\
    ~ (ob_w o <= 115.2).
Proof.
  split; [reflexivity | split; [ | split]].
  - intros n. split; [discriminate | reflexivity].
  - apply Qlt_not_le. vm_compute. reflexivity.
  - exists (pitOb (eval (rand PIT_MIN_W (computeSafePitWidth (bootWith 0.99)))
                         (bootWith 0.99)) (bootWith 0.99)).
    split; [apply spawnPit_random | split; [reflexivity | ]].
    apply Qlt_not_le. vm_compute. reflexivity.
Qed.

(** C10. For every explicit width [w], [spawnPit] called with that width,
    directly or through a pattern step of kind PIT, spawns a pit whose
    width is exactly [w], whatever [computeSafePitWidth] is, and draws
    nothing; the clamp applies only when no width is given. *)
Theorem explicit_pit_width_is_not_clamped (w gap : Q) (g : Game) :
  obs (exec (spawnPit (Some w)) g) = obs g ++ [pitOb w g] /\
  obs (exec (spawnStep (StepPit gap (Some w))) g) = obs g ++ [pitOb w g] /\
  ob_kind (pitOb w g) = PIT /\
  ob_w (pitOb w g) = w /\
  drawn (exec (spawnPit (Some w)) g) = drawn g /\
  obs (exec (spawnPit None) g) =
    obs g ++ [pitOb (PIT_MIN_W + entropy g (drawn g) * (computeSafePitWidth g - PIT_MIN_W)) g].
Proof. repeat split. Qed.

(* a width of 1000 at the initial speed, where the safe width is 116.2 *)
Example explicit_pit_width_1000 :
  exists o,
    obs (exec (spawnPit (Some 1000)) (bootWith 0.5)) = [o] /\
    ob_w o = 1000 /\
    computeSafePitWidth (bootWith 0.5) < ob_w o.
Proof.
  exists (pitOb 1000 (bootWith 0.5)).
  split; [apply spawnPit_given | split; [reflexivity | ]].
  vm_compute. reflexivity.
Qed.

(** ** Claims on the collision test *)

Lemma aabb_closed (a b : Rect) :
  aabb a b = true <->
  rx b <= rx a + rw a /\ rx a <= rx b + rw b /\
  ry b <= ry a + rh a /\ ry a <= ry b + rh b.
Proof.
  unfold aabb, Qgtb. rewrite negb_true_iff.
  repeat rewrite orb_false_iff. repeat rewrite Qltb_ge. tauto.
Qed.

Lemma updateCollisions_hit (g : Game) (o : Ob) :
  In o (obs g) -> ob_kind o <> PIT -> aabb (dinoHitbox g) (obHitbox o) = true ->
  state (run (updateCollisions g)) = GAMEOVER.
Proof.
  intros Hin Hk Hit. unfold updateCollisions. cbv zeta.
  destruct (existsb _ (obs g)) eqn:E.
  - apply gameOver_state.
  - assert (Hfalse : existsb
              (fun o => if ObKind_eqb (ob_kind o) PIT then false
                        else aabb (dinoHitbox g) (obHitbox o)) (obs g) = true).
    { apply existsb_exists. exists o. split; [exact Hin | ].
      destruct (ob_kind o); [exact Hit | exact Hit | contradiction]. }
    rewrite E in Hfalse. discriminate Hfalse.
Qed.

(** C5 (as the code has it). [aabb] reports an overlap exactly when the
    closed rectangles intersect: it reports none only when the rectangles
    are strictly separated along an axis, so rectangles whose edges exactly
    touch (the right edge of one on the left edge of the other, or bottom
    on top, with the other axis overlapping) do overlap, and such a contact
    between the actor and an obstacle that is not a pit ends the run. *)
Theorem aabb_counts_touching_edges (a b : Rect) :
  (aabb a b = true <->
     rx b <= rx a + rw a /\ rx a <= rx b + rw b /\
     ry b <= ry a + rh a /\ ry a <= ry b + rh b) /\
  (aabb a b = false <->
     rx a + rw a < rx b \/ rx b + rw b < rx a \/
     ry a + rh a < ry b \/ ry b + rh b < ry a) /\
  (rx a + rw a == rx b -> 0 <= rw a -> 0 <= rw b ->
     ry b <= ry a + rh a -> ry a <= ry b + rh b -> aabb a b = true) /\
  (ry a + rh a == ry b -> 0 <= rh a -> 0 <= rh b ->
     rx b <= rx a + rw a -> rx a <= rx b + rw b -> aabb a b = true) /\
  (forall g o,
     a = dinoHitbox g -> b = obHitbox o -> In o (obs g) -> ob_kind o <> PIT ->
     aabb a b = true -> state (run (updateCollisions g)) = GAMEOVER).
Proof.
  split; [apply aabb_closed | ].
  split.
  { rewrite <- not_true_iff_false, aabb_closed. split.
    - intros H.
      destruct (Qlt_le_dec (rx a + rw a) (rx b)) as [? | H1]; [tauto | ].
      destruct (Qlt_le_dec (rx b + rw b) (rx a)) as [? | H2]; [tauto | ].
      destruct (Qlt_le_dec (ry a + rh a) (ry b)) as [? | H3]; [tauto | ].
      destruct (Qlt_le_dec (ry b + rh b) (ry a)) as [? | H4]; [tauto | ].
      exfalso. apply H. tauto.
    - intros H (H1 & H2 & H3 & H4). lra. }
  split; [ | split].
  - intros Ht Hwa Hwb H3 H4. apply aabb_closed. repeat split; lra.
  - intros Ht Hha Hhb H1 H2. apply aabb_closed. repeat split; lra.
  - intros g o -> -> Hin Hk Hit. eapply updateCollisions_hit; eassumption.
Qed.

Lemma aabb_counts_touching_edges_witness :
  aabb (dinoHitbox touchingField) (obHitbox touchingCactus) = true /\
  state (run (updateCollisions touchingField)) = GAMEOVER.
Proof.
  destruct (aabb_counts_touching_edges
              (dinoHitbox touchingField) (obHitbox touchingCactus))
    as (_ & _ & Hx & _ & Hrun).
  assert (Hit : aabb (dinoHitbox touchingField) (obHitbox touchingCactus) = true).
  { apply Hx; [reflexivity | discriminate ..]. }
  split; [exact Hit | ].
  apply (Hrun touchingField touchingCactus);
    [reflexivity | reflexivity | left; reflexivity | discriminate | exact Hit].
Defined.

(** C5 fails as stated: two rectangles with disjoint interiors whose edges
    touch (right on left, and bottom on top) are reported as overlapping,
    and the contact of the dino's hit-rectangle with a cactus's one ends a
    run in progress. *)
Lemma touching_edges_overlap :
  (rx (mkRect 0 0 10 10) + rw (mkRect 0 0 10 10) == rx (mkRect 10 0 10 10) /\
   aabb (mkRect 0 0 10 10) (mkRect 10 0 10 10) = true) /\
  (ry (mkRect 0 0 10 10) + rh (mkRect 0 0 10 10) == ry (mkRect 0 10 10 10) /\
   aabb (mkRect 0 0 10 10) (mkRect 0 10 10 10) = true) /\
  (state (run touchingField) = RUNNING /\
   rx (dinoHitbox touchingField) + rw (dinoHitbox touchingField)
     == rx (obHitbox touchingCactus) /\
   state (run (updateCollisions touchingField)) = GAMEOVER).
Proof.
  split; [split; reflexivity | ].
  split; [split; reflexivity | ].
  split; [reflexivity | split; [reflexivity | ]].
  vm_compute. reflexivity.
Qed.

(** ** Claims on reset and restart *)

(** C4 (as the code has it). [restartRun] and [resetToReady] give the
    actor, the obstacle list, the guard windows, the score, the world speed
    and the spawn schedule the same initial values, except that the first
    spawn distance is 320 after a restart and 360 after a reset; the
    lifecycle state is RUNNING after a restart and READY after a reset. A
    reset also clears the jump buffer and the particles and draws two new
    clouds, which a restart leaves as they are. *)
Theorem restart_and_reset_initial_values (g : Game) :
  let a := restartRun g in
  let b := exec resetToReady g in
  run a = mkRun RUNNING 260 0 0 (best (run g)) /\
  run b = mkRun READY 260 0 0 (best (run g)) /\
  dino a = mkDino (dino_x (dino g)) (groundY (view g) - STAND_H)
                  STAND_W STAND_H 0 true false /\
  dino b = dino a /\
  obs a = [] /\ obs b = [] /\
  sched a = mkSched 0 320 CACTUS Level1 0.55 false None 0 [] 0 0 /\
  sched b = mkSched 0 360 CACTUS Level1 0.55 false None 0 [] 0 0 /\
  pitFall a = false /\ pitFall b = false /\
  coyote (input a) = COYOTE_TIME /\ coyote (input b) = COYOTE_TIME /\
  jumpHold (input a) = 0 /\ jumpHold (input b) = 0 /\
  jumpBuffer (input a) = jumpBuffer (input g) /\ jumpBuffer (input b) = 0 /\
  particles (scenery a) = particles (scenery g) /\ particles (scenery b) = [] /\
  clouds (scenery a) = clouds (scenery g) /\ List.length (clouds (scenery b)) = 2%nat /\
  drawn a = drawn g /\ drawn b = (drawn g + 9)%nat.
Proof.
  cbv zeta. repeat split.
  change (drawn (exec resetToReady g)) with (S (S (S (S (S (S (S (S (S (drawn g)))))))))).
  lia.
Qed.

(** C4 fails as stated: the spawn schedules after a restart and after a
    reset differ in the distance to the first spawn. *)
Lemma restart_reset_differ_in_schedule :
  nextSpawnDist (sched (restartRun (bootWith 0.5))) == 320 /\
  nextSpawnDist (sched (exec resetToReady (bootWith 0.5))) == 360 /\
  ~ (nextSpawnDist (sched (restartRun (bootWith 0.5)))
       == nextSpawnDist (sched (exec resetToReady (bootWith 0.5)))).
Proof.
  split; [reflexivity | split; [reflexivity | ]].
  intros H. vm_compute in H. discriminate H.
Qed.

(** ** Claims on the shape generator *)

Lemma maxGroundWidthCap_reads (g1 g2 : Game) :
  score (run g1) = score (run g2) ->
  worldSpeed (run g1) = worldSpeed (run g2) ->
  (guardAfterPit (sched g1) >? 0) = (guardAfterPit (sched g2) >? 0) ->
  (guardAfterLowFlyer (sched g1) >? 0) = (guardAfterLowFlyer (sched g2) >? 0) ->
  maxGroundWidthCap g1 = maxGroundWidthCap g2.
Proof.
  intros Hs Hw Hp Hl. unfold maxGroundWidthCap, stage.
  rewrite Hs, Hw, Hp, Hl. reflexivity.
Qed.

(** C9 (as the code has it). For a fixed seed and variant, the dimension
    generator is a function of the score (through the stage), the world
    speed and whether each of the two guard windows is active: two
    invocations that agree on these produce the same width and height,
    whatever the rest of the state and the gameplay draws are; it consumes
    no gameplay draw. *)
Theorem makeGroundDims_deterministic (v : GroundVariant) (s : Z) (g1 g2 : Game) :
  score (run g1) = score (run g2) ->
  worldSpeed (run g1) = worldSpeed (run g2) ->
  (guardAfterPit (sched g1) >? 0) = (guardAfterPit (sched g2) >? 0) ->
  (guardAfterLowFlyer (sched g1) >? 0) = (guardAfterLowFlyer (sched g2) >? 0) ->
  makeGroundDims v s g1 = makeGroundDims v s g2.
Proof.
  intros Hs Hw Hp Hl. unfold makeGroundDims.
  rewrite (maxGroundWidthCap_reads g1 g2 Hs Hw Hp Hl).
  unfold maxGroundHeightCap, difficulty01, stage.
  rewrite Hs, Hw. reflexivity.
Qed.

Lemma makeGroundDims_deterministic_witness :
  makeGroundDims ROCK_WIDE 1 (bootWith 0.5) = makeGroundDims ROCK_WIDE 1 (bootWith 0.25).
Proof.
  apply (makeGroundDims_deterministic ROCK_WIDE 1 (bootWith 0.5) (bootWith 0.25));
    vm_compute; reflexivity.
Defined.

(** C9 fails as stated: with the same seed and variant, the height differs
    between the early and the middle stage, and the width differs when the
    after-pit guard is active. *)
Lemma dims_depend_on_stage_and_guard :
  ~ (dims_h (makeGroundDims CACTUS_SINGLE 1 (bootWith 0.5))
       == dims_h (makeGroundDims CACTUS_SINGLE 1 (set_score 700 (bootWith 0.5)))) /\
  ~ (dims_w (makeGroundDims ROCK_WIDE 1 (bootWith 0.5))
       == dims_w (makeGroundDims ROCK_WIDE 1 (set_guardAfterPit 240 (bootWith 0.5)))).
Proof.
  split; intros H; vm_compute in H; discriminate H.
Qed.

(** ** The tick of a run in progress *)

#[local] Instance running_frame_PreOrder : PreOrder running_frame.
Proof.
  split.
  - intros g _. repeat split.
  - intros g1 g2 g3 H12 H23 Hs.
    destruct (H12 Hs) as (Hv & Hr & Ho & Hc).
    destruct H23 as (Hv' & Hr' & Ho' & Hc'); [rewrite Hr; exact Hs | ].
    repeat split; congruence.
Qed.

Ltac kept :=
  cbv zeta;
  repeat match goal with
  | |- context [if ?b then _ else _] => destruct b
  end;
  solve [ intros _; repeat split | reflexivity ].

Ltac frames_running :=
  repeat frame_step;
  lazymatch goal with
  | |- preserves _ _ => auto with frames
  | |- _ => try kept
  end.

Lemma only_draws_running {A : Type} (m : M A) :
  preserves only_draws m -> preserves running_frame m.
Proof.
  intros H g _. specialize (H g). unfold only_draws in H.
  rewrite H. repeat split.
Qed.
#[local] Hint Resolve only_draws_running : frames.

Lemma spawnDust_running (x y : Q) (count : nat) (intensity : Q) :
  preserves running_frame (spawnDust x y count intensity).
Proof.
  induction count as [| n IH]; cbn [spawnDust]; unfold spawnDust1; frames_running.
Qed.

Lemma performJump_running : preserves running_frame performJump.
Proof.
  pose proof spawnDust_running. unfold performJump. frames_running.
Qed.

Lemma tryConsumeJump_running : preserves running_frame tryConsumeJump.
Proof.
  intros g Hs. unfold tryConsumeJump, bind, gets. cbn [fst snd].
  destruct (jumpBuffer (input g) <=? 0); [repeat split | ].
  rewrite Hs. cbn [GameState_eqb when ret fst snd negb]. rewrite Hs.
  cbn [GameState_eqb negb].
  destruct (dino_onGround (dino g) || (coyote (input g) >? 0)); cbn [when].
  - now apply performJump_running.
  - repeat split.
Qed.

Lemma applyDuckVisual_running (duck : bool) (g : Game) :
  running_frame g (applyDuckVisual duck g).
Proof. unfold applyDuckVisual. kept. Qed.

Lemma updateActor_running (dt : Q) : preserves running_frame (updateActor dt).
Proof.
  pose proof tryConsumeJump_running. pose proof spawnDust_running.
  unfold updateActor, updateControls, updatePhysics, integrateGravity. frames_running; apply applyDuckVisual_running.
Qed.

Lemma updateScenery_running (dt : Q) : preserves running_frame (updateScenery dt).
Proof. unfold updateScenery. frames_running. Qed.

(** Symbolic execution of the monad, one rewriting step at a time. *)
Lemma exec_bind {A B : Type} (m : M A) (k : A -> M B) (g : Game) :
  exec (bind m k) g = exec (k (eval m g)) (exec m g).
Proof. reflexivity. Qed.

Lemma eval_bind {A B : Type} (m : M A) (k : A -> M B) (g : Game) :
  eval (bind m k) g = eval (k (eval m g)) (exec m g).
Proof. reflexivity. Qed.

Lemma exec_modify (f : Game -> Game) (g : Game) : exec (modify f) g = f g.
Proof. reflexivity. Qed.

Lemma exec_gets {A : Type} (f : Game -> A) (g : Game) : exec (gets f) g = g.
Proof. reflexivity. Qed.

Lemma eval_gets {A : Type} (f : Game -> A) (g : Game) : eval (gets f) g = f g.
Proof. reflexivity. Qed.

Lemma exec_ret {A : Type} (a : A) (g : Game) : exec (ret a) g = g.
Proof. reflexivity. Qed.

Lemma eval_ret {A : Type} (a : A) (g : Game) : eval (ret a) g = a.
Proof. reflexivity. Qed.

Ltac mstep :=
  repeat (rewrite ?exec_bind, ?eval_bind, ?exec_modify, ?exec_gets, ?eval_gets,
            ?exec_ret, ?eval_ret; cbv beta).

Lemma update_running (dt : Q) (g : Game) :
  state (run g) = RUNNING ->
  exec (update dt) g =
    if fatalFall dt g then gameOver (afterActor dt g)
    else updateCollisions (beforeCollisions dt g).
Proof.
  intros Hs. unfold fatalFall, beforeCollisions, afterActor, update.
  rewrite exec_bind, exec_modify, exec_bind, exec_gets, eval_gets.
  rewrite updateParticles_run, Hs.
  rewrite exec_bind, exec_modify, exec_bind, exec_bind, exec_gets, eval_gets.
  match goal with |- context [if ?b then _ else _] => destruct b end.
  - rewrite exec_modify. reflexivity.
  - rewrite !exec_bind, !exec_modify. reflexivity.
Qed.

Lemma update_ready (dt : Q) (g : Game) :
  state (run g) = READY ->
  exec (update dt) g =
    exec tryConsumeJump (set_coyote COYOTE_TIME (updateParticles dt g)).
Proof.
  intros Hs. unfold update.
  rewrite exec_bind, exec_modify, exec_bind, exec_gets, eval_gets.
  rewrite updateParticles_run, Hs.
  rewrite exec_bind, exec_modify. reflexivity.
Qed.

Lemma update_gameover (dt : Q) (g : Game) :
  state (run g) = GAMEOVER -> exec (update dt) g = updateParticles dt g.
Proof.
  intros Hs. unfold update.
  rewrite exec_bind, exec_modify, exec_bind, exec_gets, eval_gets.
  rewrite updateParticles_run, Hs.
  rewrite exec_ret. reflexivity.
Qed.

Lemma updateParticles_kept (dt : Q) (g : Game) :
  view (updateParticles dt g) = view g /\ obs (updateParticles dt g) = obs g /\
  sched (updateParticles dt g) = sched g /\ dino (updateParticles dt g) = dino g.
Proof. unfold updateParticles. cbv zeta. destruct (_ >? _); repeat split. Qed.

Lemma updatePacing_kept (dt : Q) (g : Game) :
  view (updatePacing dt g) = view g /\ obs (updatePacing dt g) = obs g /\
  dino (updatePacing dt g) = dino g /\ input (updatePacing dt g) = input g /\
  pitFall (updatePacing dt g) = pitFall g.
Proof.
  unfold updatePacing. cbv zeta.
  repeat match goal with |- context [if ?b then _ else _] => destruct b end;
    lookup; repeat split.
Qed.

Lemma afterActor_frame (dt : Q) (g : Game) :
  state (run g) = RUNNING ->
  view (afterActor dt g) = view g /\
  run (afterActor dt g) = run (updatePacing dt (updateParticles dt g)) /\
  obs (afterActor dt g) = obs g /\
  sched (afterActor dt g) = sched (updatePacing dt (updateParticles dt g)).
Proof.
  intros Hs. unfold afterActor.
  destruct (updateActor_running dt (updatePacing dt (updateParticles dt g)))
    as (Hv & Hr & Ho & Hc).
  { rewrite updatePacing_state, updateParticles_run. exact Hs. }
  destruct (updatePacing_kept dt (updateParticles dt g)) as (Hv1 & Ho1 & _).
  destruct (updateParticles_kept dt g) as (Hv2 & Ho2 & _).
  unfold exec. rewrite Hv, Hr, Ho, Hc, Hv1, Ho1, Hv2, Ho2. repeat split.
Qed.

(** ** The jump *)

#[local] Instance dust_frame_PreOrder : PreOrder dust_frame.
Proof.
  split.
  - intros g. unfold dust_frame. destruct g; reflexivity.
  - intros g1 g2 g3 H12 H23. unfold dust_frame in *.
    rewrite H23, H12. reflexivity.
Qed.

Lemma only_draws_dust {A : Type} (m : M A) :
  preserves only_draws m -> preserves dust_frame m.
Proof.
  intros H g. specialize (H g). unfold only_draws, dust_frame in *.
  rewrite H. reflexivity.
Qed.
#[local] Hint Resolve only_draws_dust : frames.

Lemma spawnDust_dust (x y : Q) (count : nat) (intensity : Q) :
  preserves dust_frame (spawnDust x y count intensity).
Proof.
  induction count as [| n IH]; cbn [spawnDust]; unfold spawnDust1; frames.
Qed.

Lemma spawnDust_kept (x y : Q) (count : nat) (intensity : Q) (g : Game) :
  let g' := exec (spawnDust x y count intensity) g in
  view g' = view g /\ run g' = run g /\ dino g' = dino g /\ obs g' = obs g /\
  sched g' = sched g /\ input g' = input g /\ pitFall g' = pitFall g.
Proof.
  cbv zeta. pose proof (spawnDust_dust x y count intensity g) as H.
  unfold dust_frame in H. unfold exec. rewrite H. repeat split.
Qed.

Lemma performJump_exec (g : Game) :
  exec performJump g =
    set_jumpBuffer 0
      (set_coyote 0
         (set_jumpHold 0
            (exec (spawnDust (dino_x (dino g) + 10) (groundY (view g) - 8) 10 1)
                  (launched g)))).
Proof.
  unfold performJump. mstep. reflexivity.
Qed.

Lemma performJump_kept (g : Game) :
  let g' := exec performJump g in
  view g' = view g /\ run g' = run g /\ obs g' = obs g /\ sched g' = sched g /\
  pitFall g' = pitFall g /\
  dino g' = mkDino (dino_x (dino g)) (groundY (view g) - STAND_H)
                   STAND_W STAND_H JUMP_VELOCITY false false /\
  input g' = mkInput (jumpDown (input g)) (downDown (input g)) 0 0 0
                     (showHitboxes (input g)).
Proof.
  cbv zeta. rewrite performJump_exec.
  destruct (spawnDust_kept (dino_x (dino g) + 10) (groundY (view g) - 8) 10 1 (launched g))
    as (Hv & Hr & Hd & Ho & Hs & Hi & Hp).
  revert Hv Hr Hd Ho Hs Hi Hp.
  generalize (exec (spawnDust (dino_x (dino g) + 10) (groundY (view g) - 8) 10 1)
                   (launched g)).
  intros g' Hv Hr Hd Ho Hs Hi Hp.
  lookup. rewrite Hv, Hr, Hd, Ho, Hs, Hi, Hp. repeat split.
Qed.

Lemma tryConsumeJump_ready (g : Game) :
  state (run g) = READY ->
  exec tryConsumeJump g =
    if jumpBuffer (input g) <=? 0 then g else exec performJump (startRunFresh g).
Proof.
  intros Hs. unfold tryConsumeJump.
  rewrite exec_bind, exec_gets, eval_gets.
  destruct (jumpBuffer (input g) <=? 0); [apply exec_ret | ].
  rewrite exec_bind, exec_gets, eval_gets, Hs.
  cbn [GameState_eqb when].
  rewrite exec_bind, exec_modify, exec_bind, exec_gets, eval_gets.
  rewrite startRunFresh_state. cbn [GameState_eqb negb].
  rewrite exec_bind, exec_gets, eval_gets.
  change (dino_onGround (dino (startRunFresh g))) with true.
  reflexivity.
Qed.

Lemma tryConsumeJump_in_run (g : Game) :
  state (run g) = RUNNING ->
  exec tryConsumeJump g =
    if jumpBuffer (input g) <=? 0 then g
    else if dino_onGround (dino g) || (coyote (input g) >? 0)
         then exec performJump g else g.
Proof.
  intros Hs. unfold tryConsumeJump.
  rewrite exec_bind, exec_gets, eval_gets.
  destruct (jumpBuffer (input g) <=? 0); [apply exec_ret | ].
  rewrite exec_bind, exec_gets, eval_gets, Hs.
  cbn [GameState_eqb when].
  rewrite exec_bind, exec_ret, exec_bind, exec_gets, eval_gets, Hs.
  cbn [GameState_eqb negb].
  rewrite exec_bind, exec_gets, eval_gets.
  destruct (dino_onGround (dino g) || (coyote (input g) >? 0)); reflexivity.
Qed.

(** ** The idle states *)

#[local] Instance keeps_idle_PreOrder : PreOrder keeps_idle.
Proof.
  split.
  - intros g H. exact H.
  - intros g1 g2 g3 H12 H23 H. auto.
Qed.

Lemma idleField_same (g g' : Game) :
  run g' = run g -> obs g' = obs g -> keeps_idle g g'.
Proof. intros Hr Ho H. unfold idleField. rewrite Hr, Ho. exact H. Qed.

Lemma idleField_busy (g : Game) : state (run g) <> READY -> idleField g.
Proof. intros Hs E. contradiction. Qed.

Ltac idle :=
  cbv zeta;
  repeat match goal with
  | |- context [if ?b then _ else _] => destruct b
  end;
  solve [ apply idleField_same; reflexivity | reflexivity ].

Ltac frames_idle :=
  repeat frame_step;
  lazymatch goal with
  | |- preserves _ _ => auto with frames
  | |- _ => try idle
  end.

Lemma startRunFresh_idle (g : Game) : keeps_idle g (startRunFresh g).
Proof. intros _. apply idleField_busy. discriminate. Qed.

Lemma resetToReady_idle : preserves keeps_idle resetToReady.
Proof.
  intros g _ _. destruct (resetToReady_fresh g) as (_ & _ & Hw & Hs & Ho & _).
  repeat split; assumption.
Qed.

Lemma exec_stays {A : Type} (m : M A) (g : Game) :
  preserves stays_out m -> state (run g) <> READY -> state (run (exec m g)) <> READY.
Proof.
  intros Hm Hs E. apply Hs.
  exact (preserves_exec stays_out m g Hm E).
Qed.

Lemma update_stays (dt : Q) (g : Game) :
  state (run g) <> READY -> state (run (exec (update dt) g)) <> READY.
Proof.
  intros Hs. destruct (state (run g)) eqn:E; [contradiction | | ].
  - rewrite (update_running dt g E).
    destruct (fatalFall dt g).
    + rewrite gameOver_state. discriminate.
    + assert (H1 : state (run (afterActor dt g)) <> READY).
      { unfold afterActor. apply exec_stays; [apply updateActor_stays | ].
        rewrite updatePacing_state, updateParticles_run, E. discriminate. }
      assert (H2 : state (run (beforeCollisions dt g)) <> READY).
      { unfold beforeCollisions. rewrite updateObstacles_run.
        apply exec_stays; [apply spawn_frame_stays, updateSpawn_spawn | ].
        apply exec_stays; [apply updateScenery_stays | exact H1]. }
      intros H. apply H2. exact (updateCollisions_stays _ H).
  - rewrite (update_gameover dt g E), updateParticles_run, E. discriminate.
Qed.

Lemma update_idle (dt : Q) : preserves keeps_idle (update dt).
Proof.
  intros g Hidle.
  destruct (state (run g)) eqn:E.
  - change (snd (update dt g)) with (exec (update dt) g).
    rewrite (update_ready dt g E), tryConsumeJump_ready.
    2:{ lookup. rewrite updateParticles_run. exact E. }
    destruct (_ <=? _).
    + revert Hidle. apply idleField_same; lookup.
      * apply updateParticles_run.
      * apply updateParticles_kept.
    + apply idleField_busy.
      destruct (performJump_kept
                  (startRunFresh (set_coyote COYOTE_TIME (updateParticles dt g))))
        as (_ & Hr & _).
      rewrite Hr. discriminate.
  - apply idleField_busy. apply update_stays. rewrite E. discriminate.
  - apply idleField_busy. apply update_stays. rewrite E. discriminate.
Qed.

Lemma handle_idle (ev : Event) : preserves keeps_idle (handle ev).
Proof.
  pose proof resetToReady_idle.
  destruct ev as [e | e | | | rectW rectH |]; cbn [handle].
  - unfold onKeyDown, queueJump, applyDuckVisual. frames_idle.
    apply startRunFresh_idle.
  - unfold onKeyUp, cutJumpIfNeeded. frames_idle.
  - unfold onPointerDown, queueJump. frames_idle. apply startRunFresh_idle.
  - unfold onPointerUp, cutJumpIfNeeded. frames_idle.
  - apply preserves_modify. intros g. unfold resize. idle.
  - apply update_idle.
Qed.

Lemma reachable_idle (g : Game) : reachable g -> idleField g.
Proof.
  induction 1 as [rectW rectH best0 draws Hd | g ev _ IH].
  - intros _. unfold boot.
    destruct (resetToReady_fresh (resize rectW rectH (initialVars best0 draws)))
      as (_ & _ & Hw & Hs & Ho & _).
    repeat split; assumption.
  - now apply handle_idle.
Qed.

(** C8. In a state of a run whose lifecycle is READY or GAMEOVER, a
    fixed-timestep update leaves the world speed and the score unchanged
    and spawns nothing: the obstacle list after the update is the one
    before it, neither extended, moved nor trimmed. *)
Theorem idle_update_freezes_world (dt : Q) (g : Game) :
  reachable g ->
  state (run g) = READY \/ state (run g) = GAMEOVER ->
  worldSpeed (run (exec (update dt) g)) = worldSpeed (run g) /\
  score (run (exec (update dt) g)) = score (run g) /\
  obs (exec (update dt) g) = obs g.
Proof.
  intros Hreach [E | E].
  - destruct (reachable_idle g Hreach E) as (Hw & Hs & Ho).
    rewrite (update_ready dt g E), tryConsumeJump_ready.
    2:{ lookup. rewrite updateParticles_run. exact E. }
    destruct (_ <=? _).
    + lookup. rewrite updateParticles_run.
      destruct (updateParticles_kept dt g) as (_ & Ho' & _).
      rewrite Ho'. repeat split.
    + destruct (performJump_kept
                  (startRunFresh (set_coyote COYOTE_TIME (updateParticles dt g))))
        as (_ & Hr & Ho' & _).
      rewrite Hr, Ho', Hw, Hs, Ho. repeat split.
  - rewrite (update_gameover dt g E), updateParticles_run.
    destruct (updateParticles_kept dt g) as (_ & Ho' & _).
    rewrite Ho'. repeat split.
Qed.

Lemma idle_update_freezes_world_witness :
  worldSpeed (run (exec (update FIXED_DT) (bootWith 0.5)))
    = worldSpeed (run (bootWith 0.5)) /\
  score (run (exec (update FIXED_DT) (bootWith 0.5))) = score (run (bootWith 0.5)) /\
  obs (exec (update FIXED_DT) (bootWith 0.5)) = obs (bootWith 0.5).
Proof.
  apply (idle_update_freezes_world FIXED_DT (bootWith 0.5)).
  - refine (reach_boot 640 360 0 (fun _ => 0.5) _).
    intros n. split; [discriminate | reflexivity].
  - left. reflexivity.
Defined.

(** ** Claims on the jump cut *)

Lemma integrateGravity_kept (dt : Q) (g : Game) :
  view (integrateGravity dt g) = view g /\
  run (integrateGravity dt g) = run g /\
  pitFall (integrateGravity dt g) = pitFall g /\
  obs (integrateGravity dt g) = obs g /\
  dino_h (dino (integrateGravity dt g)) = dino_h (dino g) /\
  dino_onGround (dino (integrateGravity dt g)) = dino_onGround (dino g).
Proof.
  unfold integrateGravity. cbv zeta.
  repeat match goal with |- context [if ?b then _ else _] => destruct b end;
    repeat split.
Qed.

Lemma integrateGravity_launch (dt : Q) (g : Game) :
  dino_onGround (dino g) = false ->
  dino_vy (dino g) = JUMP_VELOCITY ->
  jumpDown (input g) = true ->
  jumpHold (input g) = 0 ->
  dino_vy (dino (integrateGravity dt g))
    = JUMP_VELOCITY + launchGravity (downDown (input g)) * dt /\
  dino_y (dino (integrateGravity dt g))
    = dino_y (dino g) + (JUMP_VELOCITY + launchGravity (downDown (input g)) * dt) * dt.
Proof.
  intros Hg Hv Hj Hh. unfold integrateGravity. cbv zeta.
  rewrite Hg, Hv, Hj, Hh.
  change (negb false && true && (JUMP_VELOCITY <? 0) && (0 <? MAX_JUMP_HOLD)) with true.
  cbv iota. lookup. rewrite Hg. cbn [negb andb].
  unfold launchGravity.
  destruct (downDown (input g)); lookup; rewrite Hv; split; reflexivity.
Qed.

Lemma updatePhysics_airborne (dt : Q) (g : Game) :
  dino_y (dino (integrateGravity dt g)) < groundY (view g) - dino_h (dino g) ->
  dino_vy (dino (exec (updatePhysics dt) g)) = dino_vy (dino (integrateGravity dt g)).
Proof.
  intros Hy. unfold updatePhysics. mstep.
  destruct (integrateGravity_kept dt g) as (Hv & _ & _ & _ & Hh & _).
  rewrite Hv, Hh.
  revert Hy.
  generalize (integrateGravity dt g). intros g4 Hy.
  set (c := negb (pitFall g4) && isOverPit g4
            && (dino_y (dino g4) >? groundY (view g) - dino_h (dino g) + PIT_FALL_LOCK_DEPTH)).
  assert (Hd : dino (if c then set_pitFall true g4 else g4) = dino g4)
    by (destruct c; reflexivity).
  rewrite Hd.
  assert (Hge : (dino_y (dino g4) >=? groundY (view g) - dino_h (dino g)) = false).
  { unfold Qgeb. apply Qleb_gt. exact Hy. }
  rewrite Hge, andb_false_r. mstep. lookup. exact (f_equal dino_vy Hd).
Qed.

#[local] Instance dino_kept_PreOrder : PreOrder dino_kept.
Proof.
  split.
  - intros g. reflexivity.
  - intros g1 g2 g3 H12 H23. unfold dino_kept in *. congruence.
Qed.

Lemma only_draws_dino {A : Type} (m : M A) :
  preserves only_draws m -> preserves dino_kept m.
Proof.
  intros H g. specialize (H g). unfold only_draws, dino_kept in *.
  rewrite H. reflexivity.
Qed.
#[local] Hint Resolve only_draws_dino : frames.

Lemma spawn_frame_dino {A : Type} (m : M A) :
  preserves spawn_frame m -> preserves dino_kept m.
Proof.
  intros H g. specialize (H g). unfold spawn_frame, dino_kept in *.
  rewrite H. reflexivity.
Qed.

Lemma updateScenery_dino (dt : Q) : preserves dino_kept (updateScenery dt).
Proof. unfold updateScenery. frames. Qed.

Lemma gameOver_dino (g : Game) : dino (gameOver g) = dino g.
Proof. unfold gameOver. cbv zeta. destruct (_ >? _); reflexivity. Qed.

Lemma updateCollisions_dino (g : Game) : dino (updateCollisions g) = dino g.
Proof.
  unfold updateCollisions. cbv zeta.
  destruct (existsb _ _); [apply gameOver_dino | reflexivity].
Qed.

Lemma updateObstacles_dino (dt : Q) (g : Game) : dino (updateObstacles dt g) = dino g.
Proof. reflexivity. Qed.

Lemma beforeCollisions_dino (dt : Q) (g : Game) :
  dino (beforeCollisions dt g) = dino (afterActor dt g).
Proof.
  unfold beforeCollisions. rewrite updateObstacles_dino.
  rewrite (preserves_exec dino_kept _ _ (spawn_frame_dino _ (updateSpawn_spawn dt))).
  apply (preserves_exec dino_kept _ _ (updateScenery_dino dt)).
Qed.

Lemma update_running_dino (dt : Q) (g : Game) :
  state (run g) = RUNNING -> dino (exec (update dt) g) = dino (afterActor dt g).
Proof.
  intros Hs. rewrite (update_running dt g Hs).
  destruct (fatalFall dt g).
  - apply gameOver_dino.
  - rewrite updateCollisions_dino. apply beforeCollisions_dino.
Qed.

Lemma applyDuckVisual_kept (duck : bool) (g : Game) :
  let g' := applyDuckVisual duck g in
  view g' = view g /\ input g' = input g /\ obs g' = obs g /\ sched g' = sched g /\
  pitFall g' = pitFall g /\
  dino_onGround (dino g') = dino_onGround (dino g) /\
  dino_x (dino g') = dino_x (dino g) /\
  dino_vy (dino g') = dino_vy (dino g).
Proof.
  cbv zeta. unfold applyDuckVisual.
  repeat match goal with |- context [if ?b then _ else _] => destruct b end;
    repeat split.
Qed.

Lemma updateParticles_input (dt : Q) (g : Game) :
  jumpDown (input (updateParticles dt g)) = jumpDown (input g) /\
  downDown (input (updateParticles dt g)) = downDown (input g) /\
  jumpBuffer (input (updateParticles dt g))
    = (if jumpBuffer (input g) >? 0 then Math_max 0 (jumpBuffer (input g) - dt)
       else jumpBuffer (input g)).
Proof.
  unfold updateParticles. cbv zeta. lookup.
  destruct (jumpBuffer (input g) >? 0); repeat split.
Qed.

Lemma updateControls_launch (dt : Q) (g : Game) :
  state (run g) = RUNNING ->
  dino_onGround (dino g) = true ->
  (jumpBuffer (input g) <=? 0) = false ->
  exec (updateControls dt) g =
    exec performJump (set_coyote COYOTE_TIME (applyDuckVisual (downDown (input g)) g)).
Proof.
  intros Hs Hg Hjb. unfold updateControls. mstep.
  destruct (applyDuckVisual_kept (downDown (input g)) g)
    as (_ & Hi & _ & _ & _ & Hg' & _).
  pose proof (applyDuckVisual_run (downDown (input g)) g) as Hr.
  revert Hi Hg' Hr. generalize (applyDuckVisual (downDown (input g)) g).
  intros g1 Hi Hg' Hr.
  rewrite Hg', Hg.
  rewrite tryConsumeJump_in_run by (lookup; rewrite Hr; exact Hs).
  lookup. rewrite Hi, Hjb, Hg', Hg. reflexivity.
Qed.

Lemma launch_speeds (down : bool) :
  JUMP_VELOCITY + launchGravity down * FIXED_DT < JUMP_CUT_VELOCITY /\
  (JUMP_VELOCITY + launchGravity down * FIXED_DT) * FIXED_DT < 0.
Proof. destruct down; split; vm_compute; reflexivity. Qed.

(** On the tick that starts a jump from the ground with the jump intent
    held, the actor leaves the ground faster than the cut velocity. *)
Lemma jump_tick_rising (g : Game) :
  state (run g) <> GAMEOVER ->
  dino_onGround (dino g) = true ->
  jumpBuffer (input g) = JUMP_BUFFER_TIME ->
  jumpDown (input g) = true ->
  dino_vy (dino (exec (update FIXED_DT) g)) < JUMP_CUT_VELOCITY.
Proof.
  intros Hs Hg Hjb Hj.
  destruct (updateParticles_input FIXED_DT g) as (Hj1 & Hd1 & Hb1).
  rewrite Hjb in Hb1.
  assert (Hb2 : (jumpBuffer (input (updateParticles FIXED_DT g)) <=? 0) = false).
  { rewrite Hb1. vm_compute. reflexivity. }
  destruct (updateParticles_kept FIXED_DT g) as (Hv1 & _ & _ & Hdino1).
  pose proof (updateParticles_run FIXED_DT g) as Hr1.
  clear Hb1. revert Hj1 Hd1 Hb2 Hv1 Hdino1 Hr1.
  destruct (state (run g)) eqn:E; [ | | contradiction].
  - (* READY: the run starts and the jump is performed *)
    rewrite (update_ready FIXED_DT g E).
    generalize (updateParticles FIXED_DT g). intros g1 Hj1 Hd1 Hb2 Hv1 Hdino1 Hr1.
    rewrite tryConsumeJump_ready by (lookup; rewrite Hr1; exact E).
    lookup. rewrite Hb2.
    destruct (performJump_kept (startRunFresh (set_coyote COYOTE_TIME g1)))
      as (_ & _ & _ & _ & _ & Hdino & _).
    rewrite Hdino. lookup. vm_compute. reflexivity.
  - (* RUNNING *)
    rewrite (update_running_dino FIXED_DT g E). unfold afterActor.
    destruct (updatePacing_kept FIXED_DT (updateParticles FIXED_DT g))
      as (Hv2 & _ & Hdino2 & Hi2 & _).
    pose proof (updatePacing_state FIXED_DT (updateParticles FIXED_DT g)) as Hs2.
    revert Hv2 Hdino2 Hi2 Hs2.
    generalize (updateParticles FIXED_DT g). intros g1.
    generalize (updatePacing FIXED_DT g1).
    intros g2 Hv2 Hdino2 Hi2 Hs2 Hj1 Hd1 Hb2 Hv1 Hdino1 Hr1.
    unfold updateActor. rewrite exec_bind.
    rewrite updateControls_launch.
    2:{ rewrite Hs2, Hr1. exact E. }
    2:{ rewrite Hdino2, Hdino1. exact Hg. }
    2:{ rewrite Hi2. exact Hb2. }
    destruct (applyDuckVisual_kept (downDown (input g2)) g2)
      as (Hv3 & Hi3 & _).
    revert Hv3 Hi3. generalize (applyDuckVisual (downDown (input g2)) g2).
    intros g3 Hv3 Hi3.
    destruct (performJump_kept (set_coyote COYOTE_TIME g3))
      as (Hv4 & _ & _ & _ & _ & Hdino4 & Hi4).
    lookup.
    revert Hv4 Hdino4 Hi4. generalize (exec performJump (set_coyote COYOTE_TIME g3)).
    intros g4 Hv4 Hdino4 Hi4.
    assert (Hdown : downDown (input g4) = downDown (input g3))
      by (rewrite Hi4; reflexivity).
    destruct (integrateGravity_launch FIXED_DT g4) as (Hvy & Hy).
    { rewrite Hdino4. reflexivity. }
    { rewrite Hdino4. reflexivity. }
    { rewrite Hi4, Hi3, Hi2. lookup. rewrite Hj1. exact Hj. }
    { rewrite Hi4. reflexivity. }
    destruct (launch_speeds (downDown (input g4))) as (Hfast & Hup).
    rewrite updatePhysics_airborne.
    + rewrite Hvy. exact Hfast.
    + rewrite Hy, Hdino4, Hv4. lookup.
      set (rise := (JUMP_VELOCITY + launchGravity (downDown (input g4)) * FIXED_DT)
                   * FIXED_DT) in *.
      clearbody rise. lra.
Qed.

Lemma press_jump_key (key : string) (g : Game) :
  In key jumpKeys ->
  exec (handle (KeyDown (mkKey key false))) g =
    set_jumpDown true (if negb (jumpDown (input g)) then queueJump g else g).
Proof. intros [<- | [<- | [<- | []]]]; reflexivity. Qed.

Lemma release_jump_key (key : string) (g : Game) :
  In key jumpKeys ->
  exec (handle (KeyUp (mkKey key false))) g = cutJumpIfNeeded (set_jumpDown false g).
Proof. intros [<- | [<- | [<- | []]]]; reflexivity. Qed.

Lemma cutJumpIfNeeded_vy (g : Game) :
  dino_vy (dino (cutJumpIfNeeded g))
    = (if dino_vy (dino g) <? JUMP_CUT_VELOCITY then JUMP_CUT_VELOCITY
       else dino_vy (dino g)).
Proof. unfold cutJumpIfNeeded. destruct (_ <? _); reflexivity. Qed.

Lemma runEvents_cons (ev : Event) (evs : list Event) (g : Game) :
  runEvents (ev :: evs) g = runEvents evs (exec (handle ev) g).
Proof. reflexivity. Qed.

Lemma runEvents_nil (g : Game) : runEvents [] g = g.
Proof. reflexivity. Qed.

Lemma pointer_down_in_play (g : Game) :
  state (run g) <> GAMEOVER ->
  exec (handle PointerDown) g = set_jumpDown true (queueJump g).
Proof.
  intros Hs. cbn [handle]. unfold onPointerDown.
  rewrite exec_bind, exec_gets, eval_gets.
  destruct (state (run g)); [reflexivity | reflexivity | contradiction].
Qed.

Lemma pointer_up (g : Game) :
  exec (handle PointerUp) g = cutJumpIfNeeded (set_jumpDown false g).
Proof. reflexivity. Qed.

Lemma cut_floor (v : Q) :
  JUMP_CUT_VELOCITY <= (if v <? JUMP_CUT_VELOCITY then JUMP_CUT_VELOCITY else v).
Proof.
  destruct (v <? JUMP_CUT_VELOCITY) eqn:E; qprop; [apply Qle_refl | exact E].
Qed.

(** What a release does once the jump has started. Releasing the jump
    intent clamps the vertical velocity of the actor to the jump-cut
    velocity: a velocity that rises faster than the cut becomes the cut,
    any other is kept, so that after a release the actor never rises
    faster than the cut. In the scenario of a grounded actor, a jump
    press, the tick on which the jump starts and a release before the
    apex, the velocity after the release equals the jump-cut velocity,
    with the keys as with the pointer. *)
Theorem jump_release_cuts_velocity (g : Game) (key : string) :
  In key jumpKeys ->
  state (run g) <> GAMEOVER ->
  dino_onGround (dino g) = true ->
  jumpDown (input g) = false ->
  let press := KeyDown (mkKey key false) in
  let release := KeyUp (mkKey key false) in
  (forall h,
     dino_vy (dino (exec (handle release) h))
       = (if dino_vy (dino h) <? JUMP_CUT_VELOCITY then JUMP_CUT_VELOCITY
          else dino_vy (dino h))) /\
  (forall h,
     dino_vy (dino (exec (handle PointerUp) h))
       = (if dino_vy (dino h) <? JUMP_CUT_VELOCITY then JUMP_CUT_VELOCITY
          else dino_vy (dino h))) /\
  (forall h, JUMP_CUT_VELOCITY <= dino_vy (dino (exec (handle release) h))) /\
  (forall h, dino_vy (dino h) < JUMP_CUT_VELOCITY ->
     dino_vy (dino (exec (handle release) h)) = JUMP_CUT_VELOCITY) /\
  dino_vy (dino (runEvents [press; Tick] g)) < JUMP_CUT_VELOCITY /\
  dino_vy (dino (runEvents [press; Tick; release] g)) = JUMP_CUT_VELOCITY /\
  dino_vy (dino (runEvents [PointerDown; Tick; PointerUp] g)) = JUMP_CUT_VELOCITY.
Proof.
  intros Hkey Hs Hg Hj. cbv zeta.
  assert (Hrel : forall h,
            dino_vy (dino (exec (handle (KeyUp (mkKey key false))) h))
              = (if dino_vy (dino h) <? JUMP_CUT_VELOCITY then JUMP_CUT_VELOCITY
                 else dino_vy (dino h))).
  { intros h. rewrite (release_jump_key key h Hkey).
    apply (cutJumpIfNeeded_vy (set_jumpDown false h)). }
  assert (Hptr : forall h,
            dino_vy (dino (exec (handle PointerUp) h))
              = (if dino_vy (dino h) <? JUMP_CUT_VELOCITY then JUMP_CUT_VELOCITY
                 else dino_vy (dino h))).
  { intros h. rewrite pointer_up.
    apply (cutJumpIfNeeded_vy (set_jumpDown false h)). }
  assert (Hcut : forall v, v < JUMP_CUT_VELOCITY ->
            (if v <? JUMP_CUT_VELOCITY then JUMP_CUT_VELOCITY else v) = JUMP_CUT_VELOCITY).
  { intros v Hv. apply Qltb_lt in Hv. rewrite Hv. reflexivity. }
  assert (Hkeys : dino_vy (dino (exec (handle Tick)
                    (exec (handle (KeyDown (mkKey key false))) g))) < JUMP_CUT_VELOCITY).
  { rewrite (press_jump_key key g Hkey), Hj. cbn [negb handle].
    apply jump_tick_rising; [exact Hs | exact Hg | reflexivity | reflexivity]. }
  assert (Htap : dino_vy (dino (exec (handle Tick) (exec (handle PointerDown) g)))
                 < JUMP_CUT_VELOCITY).
  { rewrite (pointer_down_in_play g Hs). cbn [handle].
    apply jump_tick_rising; [exact Hs | exact Hg | reflexivity | reflexivity]. }
  split; [exact Hrel | split; [exact Hptr | ]].
  split; [intros h; rewrite Hrel; apply cut_floor | ].
  split; [intros h Hv; rewrite Hrel; apply Hcut; exact Hv | ].
  rewrite !runEvents_cons, !runEvents_nil.
  split; [exact Hkeys | split].
  - rewrite Hrel. apply Hcut. exact Hkeys.
  - rewrite Hptr. apply Hcut. exact Htap.
Qed.

Lemma jump_release_cuts_velocity_witness :
  dino_vy (dino (runEvents [KeyDown (mkKey "Space" false); Tick;
                            KeyUp (mkKey "Space" false)] (bootWith 0.5)))
    = JUMP_CUT_VELOCITY.
Proof.
  assert (Hkey : In "Space"%string jumpKeys) by (right; right; left; reflexivity).
  assert (Hs : state (run (bootWith 0.5)) <> GAMEOVER) by (vm_compute; discriminate).
  assert (Hg : dino_onGround (dino (bootWith 0.5)) = true) by (vm_compute; reflexivity).
  assert (Hj : jumpDown (input (bootWith 0.5)) = false) by (vm_compute; reflexivity).
  pose proof (jump_release_cuts_velocity (bootWith 0.5) "Space" Hkey Hs Hg Hj) as H.
  cbv zeta in H.
  exact (proj1 (proj2 (proj2 (proj2 (proj2 (proj2 H)))))).
Defined.

(** A release that arrives before the tick on which the buffered jump
    starts finds the actor at rest: [onKeyDown] only queues the jump, so
    there is nothing to cut and the velocity stays as it was. *)
Remark release_before_first_tick (g : Game) (key : string) :
  In key jumpKeys ->
  jumpDown (input g) = false ->
  dino_vy (dino g) == 0 ->
  dino_vy (dino (runEvents [KeyDown (mkKey key false); KeyUp (mkKey key false)] g))
    = dino_vy (dino g).
Proof.
  intros Hkey Hj Hv.
  rewrite !runEvents_cons, runEvents_nil.
  rewrite (release_jump_key key _ Hkey), cutJumpIfNeeded_vy.
  rewrite (press_jump_key key g Hkey), Hj. cbn [negb].
  unfold queueJump. lookup.
  destruct (dino_vy (dino g) <? JUMP_CUT_VELOCITY) eqn:E; [ | reflexivity].
  qprop. rewrite Hv in E. unfold JUMP_CUT_VELOCITY in E. lra.
Qed.

(** C7, where the code departs from it. A grounded actor, a press of the
    jump key and its release at once, before any update: the release finds
    the jump only queued, so [cutJumpIfNeeded] has nothing to cut and the
    velocity after the release is 0, not the jump-cut velocity. The next
    update starts the buffered jump at the full jump velocity with the key
    already up, and the update after it still has the actor rising faster
    than the cut: the hop is never shortened. The tap does the same. *)
Theorem tap_release_before_update_is_lost :
  let g := bootWith 0.5 in
  let press := KeyDown (mkKey "Space" false) in
  let release := KeyUp (mkKey "Space" false) in
  dino_onGround (dino g) = true /\
  dino_vy (dino (runEvents [press; release] g)) == 0 /\
  ~ dino_vy (dino (runEvents [press; release] g)) == JUMP_CUT_VELOCITY /\
  dino_vy (dino (runEvents [press; release; Tick] g)) == JUMP_VELOCITY /\
  jumpDown (input (runEvents [press; release; Tick] g)) = false /\
  dino_vy (dino (runEvents [press; release; Tick; Tick] g)) < JUMP_CUT_VELOCITY /\
  dino_vy (dino (runEvents [PointerDown; PointerUp] g)) == 0 /\
  dino_vy (dino (runEvents [PointerDown; PointerUp; Tick; Tick] g)) < JUMP_CUT_VELOCITY.
Proof.
  cbv zeta.
  split; [reflexivity | ].
  split; [vm_compute; reflexivity | ].
  split; [intros H; vm_compute in H; discriminate H | ].
  split; [vm_compute; reflexivity | ].
  split; [vm_compute; reflexivity | ].
  split; [vm_compute; reflexivity | ].
  split; vm_compute; reflexivity.
Qed.

(** ** Claims on the run state machine *)

Lemma isKey_code (e : KeyboardEvent) (name : string) :
  isKey e name = true -> code e = name.
Proof. unfold isKey. apply String.eqb_eq. Qed.

Lemma onKeyDown_run (e : KeyboardEvent) (g : Game) :
  run (exec (onKeyDown e) g) = run g \/
  (repeat e = false /\ code e = "KeyR"%string /\
   state (run (exec (onKeyDown e) g))
     = (if GameState_eqb (state (run g)) GAMEOVER then RUNNING else READY)).
Proof.
  unfold onKeyDown.
  destruct (repeat e) eqn:Erep; [left; reflexivity | ].
  destruct (isKey e "KeyH") eqn:EH; [left; reflexivity | ].
  destruct (isKey e "KeyR") eqn:ER.
  { right. apply isKey_code in ER.
    split; [reflexivity | split; [exact ER | ]].
    rewrite exec_bind, exec_gets, eval_gets.
    destruct (GameState_eqb (state (run g)) GAMEOVER); [reflexivity | ].
    apply resetToReady_fresh. }
  left.
  destruct (isKey e "KeyS" || isKey e "ArrowDown").
  { mstep. rewrite applyDuckVisual_run. reflexivity. }
  destruct (isKey e "KeyW" || isKey e "ArrowUp" || isKey e "Space"); [ | reflexivity].
  mstep. destruct (negb (jumpDown (input g))); reflexivity.
Qed.

Lemma onKeyDown_jumpBuffer (e : KeyboardEvent) (g : Game) :
  (repeat e = false /\ In (code e) jumpKeys) \/
  jumpBuffer (input (exec (onKeyDown e) g)) = jumpBuffer (input g) \/
  jumpBuffer (input (exec (onKeyDown e) g)) = 0.
Proof.
  unfold onKeyDown.
  destruct (repeat e) eqn:Erep; [right; left; reflexivity | ].
  destruct (isKey e "KeyH") eqn:EH; [right; left; reflexivity | ].
  destruct (isKey e "KeyR") eqn:ER.
  { right. rewrite exec_bind, exec_gets, eval_gets.
    destruct (GameState_eqb (state (run g)) GAMEOVER).
    - left. reflexivity.
    - right. reflexivity. }
  destruct (isKey e "KeyS" || isKey e "ArrowDown").
  { right. left. mstep.
    destruct (applyDuckVisual_kept true (set_downDown true g)) as (_ & Hi & _).
    rewrite Hi. reflexivity. }
  destruct (isKey e "KeyW") eqn:EW;
    [left; apply isKey_code in EW; rewrite EW; split; [reflexivity | now left] | ].
  destruct (isKey e "ArrowUp") eqn:EU;
    [left; apply isKey_code in EU; rewrite EU;
     split; [reflexivity | right; now left] | ].
  destruct (isKey e "Space") eqn:ES;
    [left; apply isKey_code in ES; rewrite ES;
     split; [reflexivity | right; right; now left] | ].
  right. left. reflexivity.
Qed.

Lemma onKeyUp_run (e : KeyboardEvent) (g : Game) :
  run (exec (onKeyUp e) g) = run g /\
  jumpBuffer (input (exec (onKeyUp e) g)) = jumpBuffer (input g).
Proof.
  unfold onKeyUp.
  destruct (isKey e "KeyS" || isKey e "ArrowDown"); [split; reflexivity | ].
  destruct (isKey e "KeyW" || isKey e "ArrowUp" || isKey e "Space");
    [ | split; reflexivity].
  mstep. unfold cutJumpIfNeeded. destruct (_ <? _); split; reflexivity.
Qed.

Lemma onPointerUp_run (g : Game) :
  run (exec onPointerUp g) = run g /\
  jumpBuffer (input (exec onPointerUp g)) = jumpBuffer (input g).
Proof.
  unfold onPointerUp. mstep. unfold cutJumpIfNeeded.
  destruct (_ <? _); split; reflexivity.
Qed.

Lemma onPointerDown_run (g : Game) :
  run (exec onPointerDown g) =
    (if GameState_eqb (state (run g)) GAMEOVER then run (restartRun g) else run g).
Proof.
  unfold onPointerDown. rewrite exec_bind, exec_gets, eval_gets.
  destruct (GameState_eqb (state (run g)) GAMEOVER); reflexivity.
Qed.

Lemma resize_kept (rectW rectH : Q) (g : Game) :
  run (resize rectW rectH g) = run g /\ input (resize rectW rectH g) = input g.
Proof. unfold resize. cbv zeta. destruct (dino_onGround _); split; reflexivity. Qed.

Lemma update_ready_state (dt : Q) (g : Game) :
  state (run g) = READY ->
  state (run (exec (update dt) g))
    = (if jumpBuffer (input (updateParticles dt g)) <=? 0 then READY else RUNNING) /\
  ((jumpBuffer (input (updateParticles dt g)) <=? 0) = true ->
   jumpBuffer (input (exec (update dt) g)) = jumpBuffer (input (updateParticles dt g))).
Proof.
  intros E. rewrite (update_ready dt g E), tryConsumeJump_ready.
  2:{ lookup. rewrite updateParticles_run. exact E. }
  lookup. destruct (_ <=? _).
  - lookup. rewrite updateParticles_run. split; [exact E | reflexivity].
  - destruct (performJump_kept
                (startRunFresh (set_coyote COYOTE_TIME (updateParticles dt g))))
      as (_ & Hr & _).
    rewrite Hr. split; [reflexivity | discriminate].
Qed.

Lemma spawn_frame_kept (g g' : Game) :
  spawn_frame g g' ->
  view g' = view g /\ run g' = run g /\ dino g' = dino g /\ input g' = input g /\
  pitFall g' = pitFall g.
Proof. intros H. rewrite H. repeat split. Qed.

Lemma beforeCollisions_run (dt : Q) (g : Game) :
  state (run g) = RUNNING ->
  state (run (beforeCollisions dt g)) = RUNNING.
Proof.
  intros E.
  destruct (afterActor_frame dt g E) as (_ & Hr & _).
  assert (Hs : state (run (afterActor dt g)) = RUNNING).
  { rewrite Hr, updatePacing_state, updateParticles_run. exact E. }
  unfold beforeCollisions. rewrite updateObstacles_run.
  destruct (spawn_frame_kept _ _
              (preserves_exec spawn_frame _
                 (exec (updateScenery dt) (afterActor dt g)) (updateSpawn_spawn dt)))
    as (_ & Hsp & _).
  rewrite Hsp.
  destruct (preserves_exec running_frame _ (afterActor dt g)
              (updateScenery_running dt) Hs) as (_ & Hr' & _).
  rewrite Hr'. exact Hs.
Qed.

Lemma update_running_state (dt : Q) (g : Game) :
  state (run g) = RUNNING ->
  state (run (exec (update dt) g))
    = (if fatalFall dt g || fatalCollision dt g then GAMEOVER else RUNNING).
Proof.
  intros E. rewrite (update_running dt g E).
  destruct (fatalFall dt g); cbn [orb]; [apply gameOver_state | ].
  unfold updateCollisions, fatalCollision. cbv zeta.
  destruct (existsb _ _); [apply gameOver_state | ].
  apply beforeCollisions_run. exact E.
Qed.

Lemma decayed_buffer_positive (dt : Q) (g : Game) :
  (jumpBuffer (input (updateParticles dt g)) <=? 0) = false ->
  0 < jumpBuffer (input g).
Proof.
  destruct (updateParticles_input dt g) as (_ & _ & Hb). rewrite Hb.
  destruct (jumpBuffer (input g) >? 0) eqn:E; intros H; qprop; assumption.
Qed.

Lemma idle_buffer_stays (dt : Q) (g : Game) :
  jumpBuffer (input g) <= 0 ->
  jumpBuffer (input (updateParticles dt g)) = jumpBuffer (input g) /\
  (jumpBuffer (input (updateParticles dt g)) <=? 0) = true.
Proof.
  intros Hle. destruct (updateParticles_input dt g) as (_ & _ & Hb).
  assert (E : (jumpBuffer (input g) >? 0) = false) by (apply Qltb_ge; exact Hle).
  rewrite E in Hb. rewrite Hb. split; [reflexivity | apply Qleb_le; exact Hle].
Qed.

Lemma quiet_step (g : Game) (ev : Event) (g' : Game) :
  run g' = run g ->
  (jumpBuffer (input g') = jumpBuffer (input g) \/ jumpBuffer (input g') = 0
   \/ isJumpPress ev) ->
  lifecycleStep g ev g'.
Proof.
  intros Hr Hb. unfold lifecycleStep. rewrite Hr.
  split; [intros E H; contradiction | ].
  split; [intros E H; contradiction | ].
  split; [ | intros E H; contradiction].
  intros _ Hle Hpos.
  destruct Hb as [Hb | [Hb | Hb]]; [ | | exact Hb]; rewrite Hb in Hpos; lra.
Qed.

Lemma reset_key_step (g : Game) (e : KeyboardEvent) (g' : Game) :
  repeat e = false -> code e = "KeyR"%string ->
  state (run g') = (if GameState_eqb (state (run g)) GAMEOVER then RUNNING else READY) ->
  (jumpBuffer (input g') = jumpBuffer (input g) \/ jumpBuffer (input g') = 0) ->
  lifecycleStep g (KeyDown e) g'.
Proof.
  intros Hrep Hcode Hst Hb.
  assert (Hkey : isResetKey (KeyDown e)) by (exists e; auto).
  unfold lifecycleStep. rewrite Hst.
  split; [ | split; [ | split]]; intros E; rewrite ?E; cbn [GameState_eqb].
  - intros _. split; [reflexivity | right; exact Hkey].
  - intros H; contradiction.
  - intros Hle Hpos. destruct Hb as [Hb | Hb]; rewrite Hb in Hpos; lra.
  - intros _. right. split; [exact Hkey | reflexivity].
Qed.

Lemma tick_step (g : Game) : lifecycleStep g Tick (exec (update FIXED_DT) g).
Proof.
  unfold lifecycleStep.
  split; [ | split; [ | split]]; intros E.
  - rewrite (update_gameover FIXED_DT g E), updateParticles_run.
    intros H; contradiction.
  - destruct (update_ready_state FIXED_DT g E) as (Hs & _). rewrite Hs.
    destruct (_ <=? _) eqn:Eb; [intros H; contradiction | intros _].
    split; [reflexivity | split; [reflexivity | ]].
    exact (decayed_buffer_positive FIXED_DT g Eb).
  - intros Hle Hpos. exfalso.
    destruct (idle_buffer_stays FIXED_DT g Hle) as (Hsame & Hidle).
    destruct (update_ready_state FIXED_DT g E) as (_ & Hb).
    rewrite (Hb Hidle), Hsame in Hpos. lra.
  - rewrite (update_running_state FIXED_DT g E).
    destruct (fatalFall FIXED_DT g); cbn [orb].
    + intros _. left. split; [reflexivity | split; [reflexivity | now left]].
    + destruct (fatalCollision FIXED_DT g); [ | intros H; contradiction].
      intros _. left. split; [reflexivity | split; [reflexivity | now right]].
Qed.

Lemma pointer_down_step (g : Game) :
  lifecycleStep g PointerDown (exec onPointerDown g).
Proof.
  unfold lifecycleStep. rewrite onPointerDown_run.
  split; [ | split; [ | split]]; intros E; rewrite ?E; cbn [GameState_eqb].
  - intros _. split; [reflexivity | left; reflexivity].
  - intros H; contradiction.
  - intros _ _. left. reflexivity.
  - intros H; contradiction.
Qed.

Lemma buffered_jump_starts_run (g : Game) :
  state (run g) = READY ->
  jumpBuffer (input g) = JUMP_BUFFER_TIME ->
  state (run (exec (update FIXED_DT) g)) = RUNNING.
Proof.
  intros E Hb. destruct (update_ready_state FIXED_DT g E) as (Hs & _). rewrite Hs.
  destruct (updateParticles_input FIXED_DT g) as (_ & _ & Hb'). rewrite Hb', Hb.
  vm_compute. reflexivity.
Qed.

Lemma jump_press_starts_run (g : Game) (ev : Event) :
  state (run g) = READY ->
  ev = PointerDown \/
    (exists key, In key jumpKeys /\ ev = KeyDown (mkKey key false) /\
                 jumpDown (input g) = false) ->
  state (run (exec (handle Tick) (exec (handle ev) g))) = RUNNING.
Proof.
  intros E [-> | (key & Hkey & -> & Hj)]; cbn [handle].
  - change (exec onPointerDown g) with (exec (handle PointerDown) g).
    rewrite pointer_down_in_play by (rewrite E; discriminate).
    apply buffered_jump_starts_run; [exact E | reflexivity].
  - change (exec (onKeyDown (mkKey key false)) g)
      with (exec (handle (KeyDown (mkKey key false))) g).
    rewrite (press_jump_key key g Hkey), Hj. cbn [negb].
    apply buffered_jump_starts_run; [exact E | reflexivity].
Qed.

(** C3 (as the code has it). From GAMEOVER only the restart intent (a tap
    or the R key) changes the lifecycle state, to RUNNING; from READY the
    state changes only on a tick that finds a jump buffered, to RUNNING,
    and only a jump intent buffers a jump; RUNNING is left by a tick with a
    fatal fall or a fatal collision, to GAMEOVER, and by the R key, which
    resets the run to READY; no other input leaves RUNNING. From READY, a
    jump press followed by a tick puts the run in RUNNING. *)
Theorem lifecycle_transitions (g : Game) (ev : Event) :
  let g' := exec (handle ev) g in
  (state (run g) = GAMEOVER -> state (run g') <> GAMEOVER ->
     state (run g') = RUNNING /\ (ev = PointerDown \/ isResetKey ev)) /\
  (state (run g) = READY -> state (run g') <> READY ->
     state (run g') = RUNNING /\ ev = Tick /\ 0 < jumpBuffer (input g)) /\
  (state (run g) = READY -> jumpBuffer (input g) <= 0 ->
     0 < jumpBuffer (input g') -> isJumpPress ev) /\
  (state (run g) = RUNNING -> state (run g') <> RUNNING ->
     (ev = Tick /\ state (run g') = GAMEOVER /\
      (fatalFall FIXED_DT g = true \/ fatalCollision FIXED_DT g = true)) \/
     (isResetKey ev /\ state (run g') = READY)) /\
  (state (run g) = READY ->
     ev = PointerDown \/
       (exists key, In key jumpKeys /\ ev = KeyDown (mkKey key false) /\
                    jumpDown (input g) = false) ->
     state (run (exec (handle Tick) g')) = RUNNING).
Proof.
  cbv zeta.
  assert (Hstep : lifecycleStep g ev (exec (handle ev) g));
    [ | destruct Hstep as (H1 & H2 & H3 & H4);
        split; [exact H1 | split; [exact H2 | split; [exact H3 | split; [exact H4 | ]]]];
        apply jump_press_starts_run].
  destruct ev as [e | e | | | rectW rectH |]; cbn [handle].
  - destruct (onKeyDown_run e g) as [Hr | (Hrep & Hcode & Hst)].
    + apply quiet_step; [exact Hr | ].
      destruct (onKeyDown_jumpBuffer e g) as [(Hrep & Hjump) | [Hb | Hb]]; auto.
      right. right. right. exists e. auto.
    + apply reset_key_step; try assumption.
      destruct (onKeyDown_jumpBuffer e g) as [(_ & Hjump) | Hb]; [ | exact Hb].
      rewrite Hcode in Hjump.
      destruct Hjump as [H | [H | [H | []]]]; discriminate H.
  - destruct (onKeyUp_run e g) as (Hr & Hb). apply quiet_step; auto.
  - apply pointer_down_step.
  - destruct (onPointerUp_run g) as (Hr & Hb). apply quiet_step; auto.
  - rewrite exec_modify. destruct (resize_kept rectW rectH g) as (Hr & Hi).
    apply quiet_step; [exact Hr | left; rewrite Hi; reflexivity].
  - apply tick_step.
Qed.

Lemma playing_reachable : reachable playing.
Proof.
  unfold playing. apply reach_step, reach_step.
  refine (reach_boot 640 360 0 (fun _ => 0.5) _).
  intros n. split; [discriminate | reflexivity].
Qed.

(** C3 fails as stated: the R key, an input intent, takes a run in
    progress from RUNNING to READY. *)
Lemma reset_key_leaves_running :
  reachable playing /\
  state (run playing) = RUNNING /\
  state (run (exec (handle (KeyDown (mkKey "KeyR" false))) playing)) = READY.
Proof.
  split; [exact playing_reachable | split; vm_compute; reflexivity].
Qed.

(** ** Claims on the after-pit guard *)

#[local] Instance guarded_PreOrder : PreOrder guarded.
Proof.
  split.
  - intros g. exists []. rewrite app_nil_r.
    split; [reflexivity | split; [intros H; split; [exact H | constructor] | now left]].
  - intros g1 g2 g3 (n1 & Ho1 & Hg1 & Hp1) (n2 & Ho2 & Hg2 & Hp2).
    exists (n1 ++ n2). split; [ | split].
    + rewrite Ho2, Ho1, app_assoc. reflexivity.
    + intros H. destruct (Hg1 H) as (H2 & F1). destruct (Hg2 H2) as (H3 & F2).
      split; [exact H3 | apply Forall_app; split; assumption].
    + destruct Hp2 as [E2 | X2]; [ | right; apply Exists_app; now right].
      destruct Hp1 as [E1 | X1]; [left; congruence | right; apply Exists_app; now left].
Qed.

Lemma guarded_quiet (g g' : Game) :
  obs g' = obs g -> guardAfterPit (sched g') = guardAfterPit (sched g) -> guarded g g'.
Proof.
  intros Ho Hg. exists []. rewrite app_nil_r, Hg.
  split; [exact Ho | split; [intros H; split; [exact H | constructor] | now left]].
Qed.

Lemma guarded_push (g g' : Game) (o : Ob) :
  obs g' = obs g ++ [o] ->
  guardAfterPit (sched g') = guardAfterPit (sched g) ->
  (0 < guardAfterPit (sched g) -> lowFlyer o = false) ->
  guarded g g'.
Proof.
  intros Ho Hg Hlow. exists [o]. rewrite Hg.
  split; [exact Ho | split; [ | now left]].
  intros H. split; [exact H | ]. constructor; [auto | constructor].
Qed.

Lemma only_draws_guarded {A : Type} (m : M A) :
  preserves only_draws m -> preserves guarded m.
Proof.
  intros H g. specialize (H g). unfold only_draws in H.
  apply guarded_quiet; rewrite H; reflexivity.
Qed.
#[local] Hint Resolve only_draws_guarded : frames.

Ltac silent :=
  cbv zeta;
  repeat match goal with
  | |- context [if ?b then _ else _] => destruct b
  end;
  solve [ apply guarded_quiet; reflexivity | reflexivity ].

Ltac frames_guarded :=
  repeat frame_step;
  lazymatch goal with
  | |- preserves _ _ => auto with frames
  | |- _ => try silent
  end.

Lemma pushOb_guarded (o : Ob) : lowFlyer o = false -> preserves guarded (pushOb o).
Proof.
  intros Hlow g. apply (guarded_push _ _ o); [reflexivity | reflexivity | auto].
Qed.

Lemma spawnGroundObstacle_guarded (tallBias : Q) :
  preserves guarded (spawnGroundObstacle tallBias).
Proof.
  unfold spawnGroundObstacle. frames_guarded.
  apply pushOb_guarded. reflexivity.
Qed.

Lemma spawnPit_guarded (width : option Q) : preserves guarded (spawnPit width).
Proof.
  intros g.
  exists [pitOb (match width with
                 | Some w => w
                 | None => eval (rand PIT_MIN_W (computeSafePitWidth g)) g
                 end) g].
  split; [destruct width; reflexivity | split].
  - intros _. split; [ | constructor; [reflexivity | constructor]].
    change (snd (spawnPit width g)) with (exec (spawnPit width) g).
    rewrite spawnPit_guard. reflexivity.
  - right. constructor. reflexivity.
Qed.

Lemma spawnFlyer_exec (level : option FlyLevel) (g : Game) :
  let pick := match level with Some l => ret l | None => pickFlyLevel end in
  let g1 := exec pick g in
  let useLevel := guardedLevel (eval pick g) g1 in
  obs (exec (spawnFlyer level) g) = obs g1 ++ [flyerOb useLevel g1] /\
  guardAfterPit (sched (exec (spawnFlyer level) g)) = guardAfterPit (sched g1).
Proof.
  cbv zeta. unfold spawnFlyer.
  rewrite exec_bind.
  generalize (eval (match level with Some l => ret l | None => pickFlyLevel end) g).
  generalize (exec (match level with Some l => ret l | None => pickFlyLevel end) g).
  intros g1 l. unfold pushOb, guardedLevel. mstep.
  destruct ((guardAfterPit (sched g1) >? 0) && FlyLevel_eqb l Level0);
    [ | destruct l]; split; reflexivity.
Qed.

Lemma guardedLevel_high (level : FlyLevel) (g : Game) :
  0 < guardAfterPit (sched g) -> guardedLevel level g <> Level0.
Proof.
  intros H. unfold guardedLevel.
  assert (E : (guardAfterPit (sched g) >? 0) = true) by (apply Qltb_lt; exact H).
  rewrite E. destruct level; discriminate.
Qed.

Lemma flyerOb_low (useLevel : FlyLevel) (g : Game) :
  useLevel <> Level0 -> lowFlyer (flyerOb useLevel g) = false.
Proof. destruct useLevel; [contradiction | reflexivity | reflexivity]. Qed.

Lemma spawnFlyer_guarded (level : option FlyLevel) : preserves guarded (spawnFlyer level).
Proof.
  intros g. change (snd (spawnFlyer level g)) with (exec (spawnFlyer level) g).
  destruct (spawnFlyer_exec level g) as (Ho & Hg). cbv zeta in Ho, Hg.
  assert (Hpick : only_draws g (exec (match level with
                                      | Some l => ret l
                                      | None => pickFlyLevel
                                      end) g)).
  { destruct level; [apply (preserves_exec only_draws); apply preserves_ret; exact _ | ].
    apply (preserves_exec only_draws), pickFlyLevel_draws. }
  revert Ho Hg Hpick.
  generalize (eval (match level with Some l => ret l | None => pickFlyLevel end) g).
  generalize (exec (match level with Some l => ret l | None => pickFlyLevel end) g).
  intros g1 l Ho Hg Hpick.
  assert (Ho1 : obs g1 = obs g) by (rewrite Hpick; reflexivity).
  assert (Hg1 : guardAfterPit (sched g1) = guardAfterPit (sched g))
    by (rewrite Hpick; reflexivity).
  apply (guarded_push _ _ (flyerOb (guardedLevel l g1) g1)).
  - rewrite Ho, Ho1. reflexivity.
  - rewrite Hg, Hg1. reflexivity.
  - intros H. apply flyerOb_low, guardedLevel_high. rewrite Hg1. exact H.
Qed.

#[local] Hint Resolve spawnGroundObstacle_guarded spawnFlyer_guarded spawnPit_guarded
  : frames.

Lemma setPatternCooldown_guarded : preserves guarded setPatternCooldown.
Proof. unfold setPatternCooldown. frames_guarded. Qed.
#[local] Hint Resolve setPatternCooldown_guarded : frames.

Lemma startPattern_guarded : preserves guarded startPattern.
Proof. unfold startPattern, pushRecentPattern. frames_guarded. Qed.

Lemma scheduleNextAfterSpawn_guarded : preserves guarded scheduleNextAfterSpawn.
Proof. unfold scheduleNextAfterSpawn. frames_guarded. Qed.

Lemma spawnSingleFair_guarded : preserves guarded spawnSingleFair.
Proof. unfold spawnSingleFair. frames_guarded. Qed.

Lemma spawnStep_guarded (step : PatternStep) : preserves guarded (spawnStep step).
Proof. unfold spawnStep. frames_guarded. Qed.

#[local] Hint Resolve startPattern_guarded scheduleNextAfterSpawn_guarded
  spawnSingleFair_guarded spawnStep_guarded : frames.

Lemma spawnQueued_guarded (step : PatternStep) (rest : list PatternStep) :
  preserves guarded (spawnQueued step rest).
Proof. unfold spawnQueued. frames_guarded. Qed.
#[local] Hint Resolve spawnQueued_guarded : frames.

Lemma spawnManagerTick_guarded : preserves guarded spawnManagerTick.
Proof. unfold spawnManagerTick. frames_guarded. Qed.
#[local] Hint Resolve spawnManagerTick_guarded : frames.

Lemma updateSpawn_guarded (dt : Q) : preserves guarded (updateSpawn dt).
Proof. unfold updateSpawn. frames_guarded. Qed.

#[local] Instance obs_kept_PreOrder : PreOrder obs_kept.
Proof.
  split.
  - intros g. reflexivity.
  - intros g1 g2 g3 H12 H23. unfold obs_kept in *. congruence.
Qed.

Lemma pushes_after_quiet {A B : Type} (n : nat) (m : M A) (k : A -> M B) :
  preserves obs_kept m -> (forall a, pushes n (k a)) -> pushes n (bind m k).
Proof.
  intros Hm Hk g. rewrite exec_bind.
  destruct (Hk (eval m g) (exec m g)) as (new & Ho & Hn).
  exists new. rewrite Ho, (preserves_exec obs_kept m g Hm). auto.
Qed.

Lemma pushes_then_quiet {A B : Type} (n : nat) (m : M A) (k : A -> M B) :
  pushes n m -> (forall a, preserves obs_kept (k a)) -> pushes n (bind m k).
Proof.
  intros Hm Hk g. rewrite exec_bind.
  destruct (Hm g) as (new & Ho & Hn).
  exists new. rewrite (preserves_exec obs_kept _ _ (Hk (eval m g))), Ho. auto.
Qed.

Lemma pushOb_pushes (o : Ob) : pushes 1 (pushOb o).
Proof. intros g. exists [o]. split; reflexivity. Qed.

Lemma only_draws_obs {A : Type} (m : M A) :
  preserves only_draws m -> preserves obs_kept m.
Proof.
  intros H g. specialize (H g). unfold only_draws, obs_kept in *.
  rewrite H. reflexivity.
Qed.
#[local] Hint Resolve only_draws_obs : frames.

Create HintDb pushing.

(* a computation that appends [n] obstacles: the quiet steps around the
   one that pushes *)
Ltac push_step :=
  match goal with
  | |- pushes _ (bind _ _) =>
      first [ apply pushes_after_quiet; [solve [frames] | intros ?]
            | apply pushes_then_quiet; [solve [auto with pushing] | intros ?; solve [frames]] ]
  | |- pushes _ (if ?b then _ else _) => destruct b
  | |- pushes _ (match ?x with _ => _ end) => destruct x
  end.

Ltac pushing := repeat push_step; auto with pushing.

#[local] Hint Resolve pushOb_pushes : pushing.

Lemma spawnGroundObstacle_pushes (tallBias : Q) : pushes 1 (spawnGroundObstacle tallBias).
Proof. unfold spawnGroundObstacle. pushing. Qed.

Lemma spawnFlyer_pushes (level : option FlyLevel) : pushes 1 (spawnFlyer level).
Proof. unfold spawnFlyer. pushing. Qed.

Lemma spawnPit_pushes (width : option Q) : pushes 1 (spawnPit width).
Proof. unfold spawnPit. pushing. Qed.
#[local] Hint Resolve spawnGroundObstacle_pushes spawnFlyer_pushes spawnPit_pushes
  : pushing.

Lemma setPatternCooldown_obs : preserves obs_kept setPatternCooldown.
Proof. unfold setPatternCooldown. frames. Qed.
#[local] Hint Resolve setPatternCooldown_obs : frames.

Lemma startPattern_obs : preserves obs_kept startPattern.
Proof. unfold startPattern. frames. Qed.

Lemma scheduleNextAfterSpawn_obs : preserves obs_kept scheduleNextAfterSpawn.
Proof. unfold scheduleNextAfterSpawn. frames. Qed.
#[local] Hint Resolve startPattern_obs scheduleNextAfterSpawn_obs : frames.

Lemma spawnSingleFair_pushes : pushes 1 spawnSingleFair.
Proof. unfold spawnSingleFair. pushing. Qed.

Lemma spawnStep_pushes (step : PatternStep) : pushes 1 (spawnStep step).
Proof. unfold spawnStep. pushing. Qed.
#[local] Hint Resolve spawnSingleFair_pushes spawnStep_pushes : pushing.

Lemma spawnQueued_pushes (step : PatternStep) (rest : list PatternStep) :
  pushes 1 (spawnQueued step rest).
Proof. unfold spawnQueued. pushing. Qed.
#[local] Hint Resolve spawnQueued_pushes : pushing.

(** One spawn opportunity spawns exactly one obstacle. *)
Lemma spawnManagerTick_pushes : pushes 1 spawnManagerTick.
Proof. unfold spawnManagerTick. pushing. Qed.

Lemma pit_is_no_low_flyer (o : Ob) : ob_kind o = PIT -> lowFlyer o = false.
Proof. intros E. unfold lowFlyer. rewrite E. reflexivity. Qed.

Lemma updateSpawn_exec (dt : Q) (g : Game) :
  let g1 := set_distSinceSpawn
              (clamp (distSinceSpawn (sched g) + worldSpeed (run g) * dt) 0 1000000000) g in
  exec (updateSpawn dt) g =
    if distSinceSpawn (sched g1) >=? nextSpawnDist (sched g1)
    then exec spawnManagerTick g1 else g1.
Proof.
  cbv zeta. unfold updateSpawn. mstep.
  destruct (_ >=? _); reflexivity.
Qed.

(** A spawn opportunity appends at most one obstacle, and none that is a
    low flyer if the after-pit guard is running once it is over. *)
Lemma updateSpawn_one (dt : Q) (g : Game) :
  exists new,
    obs (exec (updateSpawn dt) g) = obs g ++ new /\
    (List.length new <= 1)%nat /\
    (0 < guardAfterPit (sched (exec (updateSpawn dt) g)) ->
     Forall (fun o => lowFlyer o = false) new).
Proof.
  destruct (preserves_exec guarded _ g (updateSpawn_guarded dt)) as (new & Ho & Hg & Hp).
  exists new. split; [exact Ho | ].
  assert (Hlen : (List.length new <= 1)%nat).
  { revert Ho. rewrite updateSpawn_exec. cbv zeta.
    destruct (_ >=? _).
    - destruct (spawnManagerTick_pushes
                  (set_distSinceSpawn
                     (clamp (distSinceSpawn (sched g) + worldSpeed (run g) * dt)
                            0 1000000000) g)) as (new' & Ho' & Hn').
      rewrite Ho'. lookup. intros Ho. apply app_inv_head in Ho.
      rewrite <- Ho, Hn'. constructor.
    - lookup. intros Ho. rewrite <- (app_nil_r (obs g)) in Ho at 1.
      apply app_inv_head in Ho. rewrite <- Ho. cbn. lia. }
  split; [exact Hlen | ].
  intros Hpos.
  destruct (Qlt_le_dec 0 (guardAfterPit (sched g))) as [Hopen | Hclosed].
  - apply Hg. exact Hopen.
  - destruct Hp as [Esame | Hpit]; [rewrite Esame in Hpos; lra | ].
    destruct new as [| o [| o' rest]]; [constructor | | cbn in Hlen; lia].
    inversion Hpit as [? ? Hk | ? ? Hrest]; subst; [ | inversion Hrest].
    constructor; [apply pit_is_no_low_flyer; exact Hk | constructor].
Qed.

Lemma gameOver_kept (g : Game) :
  obs (gameOver g) = obs g /\ sched (gameOver g) = sched g /\
  worldSpeed (run (gameOver g)) = worldSpeed (run g).
Proof. unfold gameOver. cbv zeta. destruct (_ >? _); repeat split. Qed.

Lemma updateCollisions_kept (g : Game) :
  obs (updateCollisions g) = obs g /\ sched (updateCollisions g) = sched g /\
  worldSpeed (run (updateCollisions g)) = worldSpeed (run g).
Proof.
  unfold updateCollisions. cbv zeta.
  destruct (existsb _ _); [apply gameOver_kept | repeat split].
Qed.

Lemma updateObstacles_kept (dt : Q) (g : Game) :
  obs (updateObstacles dt g)
    = shiftWhile (fun o => ob_x o + ob_w o <? -80)
                 (map (moveOb (worldSpeed (run g) * dt)) (obs g)) /\
  sched (updateObstacles dt g) = sched g.
Proof. split; reflexivity. Qed.

(** A tick of a run in progress spawns at most one obstacle, and no low
    flyer when the after-pit guard is running at the end of the tick. *)
Lemma tick_spawns_no_low_flyer (dt : Q) (g : Game) :
  state (run g) = RUNNING ->
  exists new,
    (List.length new <= 1)%nat /\
    ((fatalFall dt g = true /\ new = [] /\ obs (exec (update dt) g) = obs g) \/
     (fatalFall dt g = false /\
      obs (exec (update dt) g) = scrolled dt (exec (update dt) g) (obs g ++ new))) /\
    (0 < guardAfterPit (sched (exec (update dt) g)) ->
     Forall (fun o => lowFlyer o = false) new).
Proof.
  intros E. rewrite (update_running dt g E).
  destruct (afterActor_frame dt g E) as (_ & Hr & Ho & _).
  destruct (fatalFall dt g).
  - exists []. split; [cbn; lia | split; [ | intros _; constructor]].
    left. destruct (gameOver_kept (afterActor dt g)) as (Ho' & _).
    rewrite Ho', Ho. auto.
  - assert (Hs : state (run (afterActor dt g)) = RUNNING).
    { rewrite Hr, updatePacing_state, updateParticles_run. exact E. }
    destruct (preserves_exec running_frame _ (afterActor dt g)
                (updateScenery_running dt) Hs) as (_ & _ & Ho1 & _).
    destruct (updateSpawn_one dt (exec (updateScenery dt) (afterActor dt g)))
      as (new & Ho2 & Hlen & Hlow).
    exists new. split; [exact Hlen | ].
    destruct (updateCollisions_kept (beforeCollisions dt g)) as (Ho4 & Hs4 & Hw4).
    unfold scrolled. rewrite Ho4, Hs4, Hw4.
    unfold beforeCollisions.
    destruct (updateObstacles_kept dt
                (exec (updateSpawn dt) (exec (updateScenery dt) (afterActor dt g))))
      as (Ho3 & Hs3).
    rewrite updateObstacles_run, Ho3, Hs3, Ho2, Ho1, Ho.
    split; [right; split; reflexivity | exact Hlow].
Qed.

Lemma spawnFlyer_under_guard (level : option FlyLevel) (g : Game) :
  0 < guardAfterPit (sched g) ->
  exists o,
    obs (exec (spawnFlyer level) g) = obs g ++ [o] /\
    ob_kind o = FLYER /\
    ob_flightLevel o <> Some Level0 /\
    0 < guardAfterPit (sched (exec (spawnFlyer level) g)).
Proof.
  intros Hopen.
  destruct (spawnFlyer_exec level g) as (Ho & Hg). cbv zeta in Ho, Hg.
  assert (Hpick : only_draws g (exec (match level with
                                      | Some l => ret l
                                      | None => pickFlyLevel
                                      end) g)).
  { destruct level; [apply (preserves_exec only_draws); apply preserves_ret; exact _ | ].
    apply (preserves_exec only_draws), pickFlyLevel_draws. }
  revert Ho Hg Hpick.
  generalize (eval (match level with Some l => ret l | None => pickFlyLevel end) g).
  generalize (exec (match level with Some l => ret l | None => pickFlyLevel end) g).
  intros g1 l Ho Hg Hpick.
  assert (Ho1 : obs g1 = obs g) by (rewrite Hpick; reflexivity).
  assert (Hg1 : guardAfterPit (sched g1) = guardAfterPit (sched g))
    by (rewrite Hpick; reflexivity).
  exists (flyerOb (guardedLevel l g1) g1).
  split; [rewrite Ho, Ho1; reflexivity | split; [reflexivity | split]].
  - cbn [flyerOb ob_flightLevel]. intros H. injection H as H.
    revert H. apply guardedLevel_high. rewrite Hg1. exact Hopen.
  - rewrite Hg, Hg1. exact Hopen.
Qed.

Lemma guarded_open (g g' : Game) :
  guarded g g' -> 0 < guardAfterPit (sched g) ->
  exists new,
    obs g' = obs g ++ new /\
    Forall (fun o => lowFlyer o = false) new /\
    0 < guardAfterPit (sched g').
Proof.
  intros (new & Ho & Hg & _) Hopen. destruct (Hg Hopen) as (Hpos & Hlow).
  exists new. auto.
Qed.

(** C6. A pit spawn sets the after-pit guard to a positive distance. As
    long as that guard is running, no spawn path produces a low flyer
    (flight level 0): [spawnFlyer] raises the level of such a flyer,
    whether the level was picked or requested by a pattern step, and a
    single fair spawn or a whole spawn opportunity appends no low flyer
    and leaves the guard running. Over a tick of a run in progress at most
    one obstacle is spawned, and it is no low flyer whenever the guard is
    running at the end of the tick, which holds from the tick that spawns
    a pit until the tick on which the guard distance is used up; a tick
    outside a run in progress spawns nothing. *)
Theorem no_low_flyer_under_pit_guard (dt : Q) (g : Game) :
  (forall width,
     guardAfterPit (sched (exec (spawnPit width) g)) = SAFE_AFTER_PIT_DIST) /\
  0 < SAFE_AFTER_PIT_DIST /\
  (0 < guardAfterPit (sched g) ->
     (forall level,
        exists o,
          obs (exec (spawnFlyer level) g) = obs g ++ [o] /\
          ob_kind o = FLYER /\
          ob_flightLevel o <> Some Level0 /\
          0 < guardAfterPit (sched (exec (spawnFlyer level) g))) /\
     (forall gap level,
        exec (spawnStep (StepFlyer gap level)) g = exec (spawnFlyer level) g) /\
     (exists new,
        obs (exec spawnSingleFair g) = obs g ++ new /\
        Forall (fun o => lowFlyer o = false) new /\
        0 < guardAfterPit (sched (exec spawnSingleFair g))) /\
     (exists new,
        obs (exec spawnManagerTick g) = obs g ++ new /\
        Forall (fun o => lowFlyer o = false) new /\
        0 < guardAfterPit (sched (exec spawnManagerTick g)))) /\
  (state (run g) = RUNNING ->
     exists new,
       (List.length new <= 1)%nat /\
       ((fatalFall dt g = true /\ new = [] /\ obs (exec (update dt) g) = obs g) \/
        (fatalFall dt g = false /\
         obs (exec (update dt) g) = scrolled dt (exec (update dt) g) (obs g ++ new))) /\
       (0 < guardAfterPit (sched (exec (update dt) g)) ->
        Forall (fun o => lowFlyer o = false) new)) /\
  (state (run g) <> RUNNING ->
     obs (exec (update dt) g) = obs g \/ obs (exec (update dt) g) = []).
Proof.
  split; [intros width; apply spawnPit_guard | ].
  split; [reflexivity | ].
  split; [ | split].
  - intros Hopen.
    split; [intros level; apply spawnFlyer_under_guard; exact Hopen | ].
    split; [reflexivity | ].
    split.
    + apply guarded_open; [ | exact Hopen].
      apply (preserves_exec guarded), spawnSingleFair_guarded.
    + apply guarded_open; [ | exact Hopen].
      apply (preserves_exec guarded), spawnManagerTick_guarded.
  - apply tick_spawns_no_low_flyer.
  - intros Hs. destruct (state (run g)) eqn:E; [ | contradiction | ].
    + rewrite (update_ready dt g E), tryConsumeJump_ready.
      2:{ lookup. rewrite updateParticles_run. exact E. }
      destruct (updateParticles_kept dt g) as (_ & Ho & _).
      destruct (_ <=? _).
      * left. lookup. exact Ho.
      * right.
        destruct (performJump_kept
                    (startRunFresh (set_coyote COYOTE_TIME (updateParticles dt g))))
          as (_ & _ & Ho' & _).
        rewrite Ho'. reflexivity.
    + left. rewrite (update_gameover dt g E). apply updateParticles_kept.
Qed.

Lemma no_low_flyer_under_pit_guard_witness :
  exists o,
    obs (exec (spawnFlyer (Some Level0)) afterPit) = obs afterPit ++ [o] /\
    ob_kind o = FLYER /\
    ob_flightLevel o <> Some Level0 /\
    0 < guardAfterPit (sched (exec (spawnFlyer (Some Level0)) afterPit)).
Proof.
  assert (Hopen : 0 < guardAfterPit (sched afterPit)) by (vm_compute; reflexivity).
  exact (proj1 (proj1 (proj2 (proj2 (no_low_flyer_under_pit_guard FIXED_DT afterPit)))
                 Hopen) (Some Level0)).
Defined.

(** * Further properties of the engine *)

(** ** Clamping, snapping and the camera *)

Lemma clamp_cases (n a b : Q) :
  a <= b -> clamp n a b == a \/ clamp n a b == b \/ clamp n a b == n.
Proof.
  intros Hab. minmax;
    first [left; lra | right; left; lra | right; right; lra].
Qed.

(** X1. [clamp(n, a, b)] never returns less than the lower bound [a];
    when the bounds are ordered it stays below [b] and is the identity on
    [a, b]; when they are inverted ([b < a]) it returns the lower bound,
    whatever [n] is. *)
Theorem clamp_contract (n a b : Q) :
  a <= clamp n a b /\
  (a <= b -> clamp n a b <= b) /\
  (a <= n -> n <= b -> clamp n a b == n) /\
  (b < a -> clamp n a b == a).
Proof.
  split; [minmax; lra | ].
  split; [intros Hab; minmax; lra | ].
  split; [intros Han Hnb; minmax; lra | ].
  intros Hba. minmax; lra.
Qed.

Lemma Math_round_ge (q : Q) (z : Z) : inject_Z z <= q + 0.5 -> inject_Z z <= Math_round q.
Proof.
  intros H. unfold Math_round. rewrite <- Zle_Qle.
  rewrite <- (Qfloor_Z z). apply Qfloor_resp_le. exact H.
Qed.

Lemma snapTo_multiple (n : Q) : exists k : Z, snapTo n SNAP == inject_Z (16 * k).
Proof.
  exists (Qfloor (n / SNAP + 0.5)). unfold snapTo, Math_round, SNAP.
  rewrite inject_Z_mult. ring.
Qed.

Lemma resize_view (rectW rectH : Q) (g : Game) :
  view (resize rectW rectH g) =
    mkView (cameraWidth rectW rectH) BASE_VIEW_H 272.
Proof.
  unfold resize, cameraWidth. cbv zeta. lookup.
  destruct (dino_onGround (dino g)); reflexivity.
Qed.

Lemma resize_dino (rectW rectH : Q) (g : Game) :
  dino (resize rectW rectH g) =
    let d := dino g in
    let x := actorX (cameraWidth rectW rectH) in
    if dino_onGround d
    then mkDino x (272 - dino_h d) (dino_w d) (dino_h d) 0 true (dino_ducking d)
    else mkDino x (Math_min (dino_y d) (272 - dino_h d)) (dino_w d) (dino_h d)
                (dino_vy d) false (dino_ducking d).
Proof.
  destruct g as [v r [x y w h vy og dk] o sc i s pf e n].
  unfold resize, cameraWidth, actorX. cbv zeta. lookup.
  destruct og; reflexivity.
Qed.

Lemma cameraWidth_range (rectW rectH : Q) :
  640 <= cameraWidth rectW rectH /\ cameraWidth rectW rectH <= 1280 /\
  exists k : Z, cameraWidth rectW rectH == inject_Z (16 * k).
Proof.
  unfold cameraWidth.
  set (t := Math_round _).
  split; [ | split].
  - apply clamp_bounds. unfold MIN_VIEW_W, MAX_VIEW_W. lra.
  - apply clamp_bounds. unfold MIN_VIEW_W, MAX_VIEW_W. lra.
  - destruct (snapTo_multiple t) as [k Hk].
    destruct (clamp_cases (snapTo t SNAP) MIN_VIEW_W MAX_VIEW_W) as [E | [E | E]].
    + unfold MIN_VIEW_W, MAX_VIEW_W. lra.
    + exists 40%Z. rewrite E. reflexivity.
    + exists 80%Z. rewrite E. reflexivity.
    + exists k. rewrite E. exact Hk.
Qed.

Lemma actorX_range (vw : Q) : 640 <= vw -> 90 <= actorX vw /\ actorX vw <= 140.
Proof.
  intros Hlo. unfold actorX.
  assert (Hr : 90 <= Math_round (vw * 0.14)).
  { apply (Math_round_ge (vw * 0.14) 90). unfold inject_Z. lra. }
  set (r := Math_round (vw * 0.14)) in *. clearbody r.
  split; minmax; lra.
Qed.

(** X2. Whatever size the canvas reports (zero and negative sizes
    included), [resize] leaves a camera 360 high and between 640 and 1280
    wide, the width a multiple of 16, the ground line at 272 and the actor
    between x = 90 and x = 140; a grounded actor is put back on the ground
    line at rest, an airborne one is never moved down nor left below the
    line. *)
Theorem resize_camera_bounds (rectW rectH : Q) (g : Game) :
  let g' := resize rectW rectH g in
  viewH (view g') = 360 /\
  groundY (view g') = 272 /\
  640 <= viewW (view g') /\ viewW (view g') <= 1280 /\
  (exists k : Z, viewW (view g') == inject_Z (16 * k)) /\
  90 <= dino_x (dino g') /\ dino_x (dino g') <= 140 /\
  dino_h (dino g') = dino_h (dino g) /\
  (dino_onGround (dino g) = true ->
     dino_y (dino g') = 272 - dino_h (dino g) /\ dino_vy (dino g') = 0) /\
  (dino_onGround (dino g) = false ->
     dino_y (dino g') <= 272 - dino_h (dino g) /\
     dino_y (dino g') <= dino_y (dino g) /\
     dino_vy (dino g') = dino_vy (dino g)).
Proof.
  cbv zeta. rewrite resize_view, resize_dino. cbv zeta.
  destruct (cameraWidth_range rectW rectH) as (Hlo & Hhi & Hmul).
  destruct (actorX_range (cameraWidth rectW rectH) Hlo) as [Hx1 Hx2].
  set (vw := cameraWidth rectW rectH) in *. clearbody vw.
  set (x := actorX vw) in *. clearbody x.
  destruct (dino_onGround (dino g)) eqn:Eg; lookup.
  - split; [reflexivity | split; [reflexivity | ]].
    split; [exact Hlo | split; [exact Hhi | split; [exact Hmul | ]]].
    split; [exact Hx1 | split; [exact Hx2 | split; [reflexivity | ]]].
    split; [intros _; split; reflexivity | intros E; discriminate E].
  - split; [reflexivity | split; [reflexivity | ]].
    split; [exact Hlo | split; [exact Hhi | split; [exact Hmul | ]]].
    split; [exact Hx1 | split; [exact Hx2 | split; [reflexivity | ]]].
    split; [intros E; discriminate E | intros _].
    clear. split; [ | split; [ | reflexivity]]; minmax; lra.
Qed.

(** ** The shape generator *)

Lemma ushr0_range (z : Z) : (0 <= ushr z 0 < 2 ^ 32)%Z.
Proof.
  unfold ushr, toUint32. rewrite Z.shiftr_0_r. apply Z.mod_pos_bound. lia.
Qed.

(** X3. Every call of the generator returned by [mulberry32] gives a
    number in [0, 1), whatever the value of its counter, and advances the
    counter by 0x6d2b79f5; two seeds that agree modulo 2^32 start the same
    generator. *)
Theorem mulberry32_draws_unit (t s : Z) :
  0 <= fst (mulberry32_next t) /\ fst (mulberry32_next t) < 1 /\
  snd (mulberry32_next t) = (t + 1831565813)%Z /\
  mulberry32 (s + 2 ^ 32) = mulberry32 s.
Proof.
  unfold mulberry32_next. cbv zeta. cbn [fst snd].
  match goal with |- context [inject_Z (ushr ?x 0)] =>
    pose proof (ushr0_range x) as Hr; set (u := ushr x 0) in *; clearbody u end.
  assert (H0 : 0 <= inject_Z u) by (rewrite <- (Zle_Qle 0); lia).
  assert (H1 : inject_Z u < 4294967296).
  { change 4294967296 with (inject_Z (2 ^ 32)). rewrite <- Zlt_Qlt. lia. }
  split; [ | split; [ | split]].
  - apply Qle_shift_div_l; lra.
  - apply Qlt_shift_div_r; lra.
  - reflexivity.
  - unfold mulberry32, ushr, toUint32. f_equal.
    rewrite <- (Z.mul_1_l (2 ^ 32)). apply Z.mod_add. lia.
Qed.

Lemma maxGroundWidthCap_range (g : Game) :
  90 <= maxGroundWidthCap g /\ maxGroundWidthCap g <= 250.
Proof. unfold maxGroundWidthCap. cbv zeta. apply clamp_bounds. lra. Qed.

Lemma maxGroundHeightCap_range (g : Game) :
  72 <= maxGroundHeightCap g /\ maxGroundHeightCap g <= 90.
Proof. unfold maxGroundHeightCap. cbv zeta. destruct (stage g); lra. Qed.

Lemma makeGroundDims_caps (v : GroundVariant) (s : Z) (g : Game) :
  14 <= dims_w (makeGroundDims v s g) /\
  dims_w (makeGroundDims v s g) <= maxGroundWidthCap g /\
  14 <= dims_h (makeGroundDims v s g) /\
  dims_h (makeGroundDims v s g) <= maxGroundHeightCap g.
Proof.
  destruct (maxGroundWidthCap_range g) as [Hw1 Hw2].
  destruct (maxGroundHeightCap_range g) as [Hh1 Hh2].
  unfold makeGroundDims. cbv zeta. cbn [dims_w dims_h].
  match goal with |- context [clamp ?w 14 (maxGroundWidthCap g)] =>
    destruct (clamp_bounds w 14 (maxGroundWidthCap g)) as [Ha Hb]; [lra | ] end.
  match goal with |- context [clamp ?h 14 (maxGroundHeightCap g)] =>
    destruct (clamp_bounds h 14 (maxGroundHeightCap g)) as [Hc Hd]; [lra | ] end.
  repeat split; assumption.
Qed.

(** X4. The dimensions generated for a ground obstacle respect the caps of
    the moment: the width lies in [14, maxGroundWidthCap()] and the height
    in [14, maxGroundHeightCap()], whatever the variant and the seed; the
    caps themselves never exceed 250 and 90. *)
Theorem makeGroundDims_within_caps (v : GroundVariant) (s : Z) (g : Game) :
  14 <= dims_w (makeGroundDims v s g) /\
  dims_w (makeGroundDims v s g) <= maxGroundWidthCap g /\
  maxGroundWidthCap g <= 250 /\
  14 <= dims_h (makeGroundDims v s g) /\
  dims_h (makeGroundDims v s g) <= maxGroundHeightCap g /\
  maxGroundHeightCap g <= 90.
Proof.
  destruct (makeGroundDims_caps v s g) as (H1 & H2 & H3 & H4).
  destruct (maxGroundWidthCap_range g) as [_ Hw].
  destruct (maxGroundHeightCap_range g) as [_ Hh].
  repeat split; assumption.
Qed.

Lemma truncZ_nonneg (q : Q) : 0 <= q -> truncZ q = Qfloor q.
Proof.
  intros H. unfold truncZ.
  assert (Hn : (0 <= Qnum q)%Z).
  { unfold Qle in H. cbn in H. lia. }
  apply Z.leb_le in Hn. rewrite Hn. reflexivity.
Qed.

Lemma toInt32_small (z : Z) : (0 <= z < 2 ^ 31)%Z -> toInt32 z = z.
Proof.
  intros H. unfold toInt32, toUint32. cbv zeta.
  rewrite Z.mod_small by lia.
  destruct (z <? 2 ^ 31)%Z eqn:E; [reflexivity | ].
  apply Z.ltb_ge in E. lia.
Qed.

(* [(u * n) | 0] for a draw [u] of [0, 1) and a count [n] below 2^31 *)
Lemma bor0_scaled (u : Q) (n : Z) :
  0 <= u -> u < 1 -> (0 < n < 2 ^ 31)%Z ->
  (0 <= bor0 (u * inject_Z n) < n)%Z.
Proof.
  intros H0 H1 Hn.
  assert (Hq : 0 < inject_Z n) by (rewrite <- (Zlt_Qlt 0); lia).
  assert (Hlo : 0 <= u * inject_Z n) by nra.
  assert (Hhi : u * inject_Z n < inject_Z n) by nra.
  unfold bor0. rewrite (truncZ_nonneg _ Hlo).
  assert (Hf0 : (0 <= Qfloor (u * inject_Z n))%Z).
  { rewrite <- (Qfloor_Z 0). apply Qfloor_resp_le. exact Hlo. }
  assert (Hf1 : (Qfloor (u * inject_Z n) < n)%Z).
  { rewrite Zlt_Qlt. eapply Qle_lt_trans; [apply Qfloor_le | exact Hhi]. }
  rewrite toInt32_small by lia. lia.
Qed.

(** X5. With [Math.random] in [0, 1), the seed drawn for an obstacle is an
    integer of [0, 2^31 - 1): the conversion [| 0] never wraps it to a
    negative number. *)
Theorem seedInt_range (g : Game) :
  unitDraws (entropy g) ->
  (0 <= eval seedInt g < 2147483647)%Z /\
  drawn (exec seedInt g) = S (drawn g).
Proof.
  intros Hd. destruct (Hd (drawn g)) as [H0 H1].
  split; [ | reflexivity].
  change (eval seedInt g) with (bor0 (entropy g (drawn g) * inject_Z 2147483647)).
  apply bor0_scaled; [exact H0 | exact H1 | lia].
Qed.

Lemma seedInt_range_witness :
  (0 <= eval seedInt (bootWith 0.5) < 2147483647)%Z.
Proof.
  assert (Hd : unitDraws (entropy (bootWith 0.5))).
  { intros n. change (entropy (bootWith 0.5) n) with 0.5. split; lra. }
  exact (proj1 (seedInt_range (bootWith 0.5) Hd)).
Defined.

(** ** Random picks *)

Lemma bor0_zero (u : Q) : bor0 (u * inject_Z 0) = 0%Z.
Proof.
  assert (Hq : 0 <= u * inject_Z 0) by (unfold inject_Z; lra).
  unfold bor0. rewrite (truncZ_nonneg _ Hq).
  assert (E : Qfloor (u * inject_Z 0) = 0%Z).
  { destruct u as [n d]. unfold Qfloor, Qmult, inject_Z. cbn [Qnum Qden].
    rewrite Z.mul_0_r. apply Z.div_0_l. lia. }
  rewrite E. reflexivity.
Qed.

(** X6. With [Math.random] in [0, 1), [rLevel] returns a member of the set
    it is given, whenever the set is not empty; on the empty set it returns
    [undefined]. *)
Theorem rLevel_member (set : list FlyLevel) (g : Game) :
  unitDraws (entropy g) ->
  (0 < Z.of_nat (List.length set) < 2 ^ 31)%Z ->
  (exists l, eval (rLevel set) g = Some l /\ In l set) /\
  eval (rLevel []) g = None.
Proof.
  intros Hd Hn. destruct (Hd (drawn g)) as [H0 H1]. split.
  - change (eval (rLevel set) g) with
      (let i := bor0 (entropy g (drawn g) * inject_Z (Z.of_nat (List.length set))) in
       if (i <? 0)%Z then None else nth_error set (Z.to_nat i)).
    cbv zeta.
    pose proof (bor0_scaled _ _ H0 H1 Hn) as Hi.
    set (i := bor0 _) in *. clearbody i.
    destruct (i <? 0)%Z eqn:E; [apply Z.ltb_lt in E; lia | ].
    destruct (nth_error set (Z.to_nat i)) as [l |] eqn:El.
    + exists l. split; [reflexivity | eapply nth_error_In; exact El].
    + apply nth_error_None in El. lia.
  - change (eval (rLevel []) g) with
      (let i := bor0 (entropy g (drawn g) * inject_Z 0) in
       if (i <? 0)%Z then None else @nth_error FlyLevel [] (Z.to_nat i)).
    cbv zeta. rewrite bor0_zero. reflexivity.
Qed.

Lemma rLevel_member_witness :
  exists l, eval (rLevel [Level1; Level2]) (bootWith 0.5) = Some l /\ In l [Level1; Level2].
Proof.
  assert (Hd : unitDraws (entropy (bootWith 0.5))).
  { intros n. change (entropy (bootWith 0.5) n) with 0.5. split; lra. }
  assert (Hn : (0 < Z.of_nat (List.length [Level1; Level2]) < 2 ^ 31)%Z)
    by (cbn; lia).
  exact (proj1 (rLevel_member [Level1; Level2] (bootWith 0.5) Hd Hn)).
Defined.

(** X7. In the EARLY stage (score below 600) [pickGroundVariant] never
    returns the triple cluster: its weight is zero there, so the filter on
    the pool removes it before the draw. *)
Theorem early_stage_has_no_triple_cluster (tallBias : Q) (g : Game) :
  stage g = EARLY ->
  eval (pickGroundVariant tallBias) g <> CACTUS_CLUSTER_3.
Proof.
  intros Hst. unfold eval, pickGroundVariant. cbv zeta. rewrite Hst.
  cbn [fst Stage_eqb negb andb].
  match goal with |- context [weightedScan snd ?pool ?r] =>
    destruct (weightedScan snd pool r) as [p |] eqn:E end; [ | discriminate].
  apply weightedScan_In, filter_In in E. destruct E as [Hin Hw].
  intros Hp.
  repeat (destruct Hin as [<- | Hin]; [try discriminate Hp | ]); [ | destruct Hin].
  cbn [snd] in Hw.
  repeat match type of Hw with context [if ?b then _ else _] => destruct b end;
    qprop; lra.
Qed.

Lemma early_stage_has_no_triple_cluster_witness :
  eval (pickGroundVariant 0.45) (bootWith 0.5) <> CACTUS_CLUSTER_3.
Proof.
  apply (early_stage_has_no_triple_cluster 0.45 (bootWith 0.5)).
  vm_compute. reflexivity.
Defined.

Lemma pickFlyLevel_low (g : Game) :
  eval pickFlyLevel g = Level0 -> allowLow g /\ guardAfterPit (sched g) <= 0.
Proof.
  unfold eval, pickFlyLevel, allowLow, bind, gets, andM, ret, Math_random.
  cbn [fst snd]. lookup.
  remember (Stage_eqb (stage g) MID && (score (run g) >? 650)
            || Stage_eqb (stage g) LATE
               && ((score (run g) >? 900) || (difficulty01 g >? 0.5))) as al eqn:Hal.
  destruct (stage g) eqn:Est; cbn [Stage_eqb andb orb] in Hal;
    repeat (match goal with
            | |- context [if ?b then _ else _] =>
                lazymatch b with
                | context [if _ then _ else _] => fail
                | _ => let E := fresh "E" in destruct b eqn:E
                end
            end; cbn [fst snd FlyLevel_eqb andb orb negb]; lookup);
    intros H; try discriminate H; try discriminate Hal.
  all: try subst al; try symmetry in Hal.
  all: rewrite ?orb_false_r, ?andb_true_r in *.
  all: repeat match goal with
              | E : _ && _ = true |- _ => apply andb_prop in E; destruct E
              end.
  all: repeat match goal with
              | E : _ || _ = true |- _ => apply orb_prop in E
              end.
  all: qprop.
  all: split; [ | assumption].
  all: first [ left; split; [reflexivity | assumption]
             | right; split; [reflexivity | ];
               match goal with
               | E : _ \/ _ |- _ => destruct E; [left | right]; qprop; assumption
               end ].
Qed.

Lemma allowLow_stage (g : Game) : allowLow g -> stage g <> EARLY.
Proof. intros [[E _] | [E _]]; rewrite E; discriminate. Qed.

(** X8. [pickFlyLevel] returns the low level 0 only when low flyers are
    allowed (stage MID with a score above 650, or stage LATE with a score
    above 900 or a difficulty above 0.5) and the after-pit guard has run
    out; in particular never in the EARLY stage. *)
Theorem pickFlyLevel_low_only_when_allowed (g : Game) :
  eval pickFlyLevel g = Level0 ->
  allowLow g /\ guardAfterPit (sched g) <= 0 /\ stage g <> EARLY.
Proof.
  intros H. destruct (pickFlyLevel_low g H) as [Ha Hg].
  split; [exact Ha | split; [exact Hg | apply allowLow_stage; exact Ha]].
Qed.

Lemma pickFlyLevel_low_only_when_allowed_witness :
  allowLow (set_score 700 (bootWith 0.1)).
Proof.
  apply (pickFlyLevel_low_only_when_allowed (set_score 700 (bootWith 0.1))).
  vm_compute. reflexivity.
Defined.


(** ** Hardness and the distance to the next spawn *)

Lemma speedFactor_range (g : Game) : 1 <= speedFactor g /\ speedFactor g <= 2.35.
Proof. unfold speedFactor. apply clamp_bounds. lra. Qed.

Lemma difficulty01_range (g : Game) : 0 <= difficulty01 g /\ difficulty01 g <= 1.
Proof. unfold difficulty01. apply clamp_bounds. lra. Qed.

(** X9. The hardness computed for a ground obstacle always lies in
    [0.30, 1.60], and the obstacle that [spawnGroundObstacle] pushes is
    recorded as hard exactly when its hardness reaches 1. *)
Theorem ground_hardness_range (w h tallBias : Q) (v : GroundVariant) (g : Game) :
  0.30 <= computeGroundHardness w h v g /\
  computeGroundHardness w h v g <= 1.60 /\
  let g' := exec (spawnGroundObstacle tallBias) g in
  0.30 <= lastSpawnHardness (sched g') /\
  lastSpawnHardness (sched g') <= 1.60 /\
  lastSpawnWasHard (sched g') = (lastSpawnHardness (sched g') >=? 1.0) /\
  lastKind (sched g') = CACTUS.
Proof.
  assert (Hc : forall w h v g, 0.30 <= computeGroundHardness w h v g
                               /\ computeGroundHardness w h v g <= 1.60).
  { intros w0 h0 v0 g0. unfold computeGroundHardness. cbv zeta.
    apply clamp_bounds. lra. }
  split; [apply Hc | split; [apply Hc | ]].
  cbv zeta. unfold spawnGroundObstacle.
  rewrite !exec_bind. mstep. unfold pushOb. mstep. lookup.
  split; [apply Hc | split; [apply Hc | split; reflexivity]].
Qed.

(* the interval of [computeNextSpawnDist], whatever the kind, the stage and
   the guards *)
Lemma computeNextSpawnDist_window (kind : ObKind) (hardness : Q) (g : Game) :
  unitDraws (entropy g) -> 0 <= hardness ->
  (216 + 90 * hardness) * speedFactor g <= eval (computeNextSpawnDist kind hardness) g /\
  eval (computeNextSpawnDist kind hardness) g < (759.2 + 130 * hardness) * speedFactor g.
Proof.
  intros Hd Hh.
  destruct (Hd (drawn g)) as [H0 H1].
  destruct (speedFactor_range g) as [Hs1 Hs2].
  unfold computeNextSpawnDist. mstep. cbv zeta. rewrite rand_value.
  set (u := entropy g (drawn g)) in *. clearbody u.
  set (sf := speedFactor g) in *. clearbody sf.
  assert (Hp : 0 <= hardness * sf) by nra.
  set (hs := hardness * sf) in *.
  assert (E1 : hardness * 90 * sf == 90 * hs) by (subst hs; ring).
  assert (E2 : hardness * 130 * sf == 130 * hs) by (subst hs; ring).
  assert (E3 : (216 + 90 * hardness) * sf == 216 * sf + 90 * hs) by (subst hs; ring).
  assert (E4 : (759.2 + 130 * hardness) * sf == 759.2 * sf + 130 * hs) by (subst hs; ring).
  rewrite E3, E4. clear E3 E4. clearbody hs.
  destruct (stage g), kind; cbn [ObKind_eqb];
    repeat match goal with |- context [if ?b then _ else _] => destruct b end;
    match goal with
    | |- _ <= ?lo + u * (?hi - ?lo) /\ _ =>
        assert (Hlo : 216 * sf + 90 * hs <= lo) by (rewrite ?E1; lra);
        assert (Hhi : hi <= 759.2 * sf + 130 * hs) by (rewrite ?E2; lra);
        assert (Hgap : lo < hi) by (rewrite ?E1, ?E2; lra);
        set (a := lo) in *; set (b := hi) in *; clearbody a b
    end;
    assert (Hup : 0 <= u * (b - a)) by (apply Qmult_le_0_compat; lra);
    assert (Hdn : 0 < (1 - u) * (b - a)) by (apply Qmult_lt_0_compat; lra);
    (split; [lra | lra]).
Qed.

(** X10. With [Math.random] in [0, 1) and a hardness between 0 and 1.6
    (the range of the hardness the spawn functions record),
    [computeNextSpawnDist] returns a distance that is never less than 216
    and always below 2280; it grows with the speed factor: it is at least
    [(215 + 89 * hardness) * speedFactor()] and at most
    [(760 + 131 * hardness) * speedFactor()]. The ends of the interval
    that the code draws from are [(216 + 90 * hardness) * speedFactor()]
    and [(759.2 + 130 * hardness) * speedFactor()]; the bounds stated here
    keep a margin from them, for the rounding of the products. *)
Theorem computeNextSpawnDist_range (kind : ObKind) (hardness : Q) (g : Game) :
  unitDraws (entropy g) -> 0 <= hardness -> hardness <= 1.6 ->
  let d := eval (computeNextSpawnDist kind hardness) g in
  216 <= d /\ d < 2280 /\
  (215 + 89 * hardness) * speedFactor g <= d /\
  d <= (760 + 131 * hardness) * speedFactor g.
Proof.
  intros Hd Hh Hh2. cbv zeta.
  destruct (computeNextSpawnDist_window kind hardness g Hd Hh) as [Hlo Hhi].
  destruct (speedFactor_range g) as [Hs1 Hs2].
  set (d := eval _ g) in *. clearbody d.
  set (sf := speedFactor g) in *. clearbody sf.
  assert (Hp : 0 <= hardness * sf) by nra.
  assert (Hq : hardness * sf <= 1.6 * sf) by nra.
  set (hs := hardness * sf) in *.
  assert (E1 : (216 + 90 * hardness) * sf == 216 * sf + 90 * hs) by (subst hs; ring).
  assert (E2 : (759.2 + 130 * hardness) * sf == 759.2 * sf + 130 * hs) by (subst hs; ring).
  assert (E3 : (215 + 89 * hardness) * sf == 215 * sf + 89 * hs) by (subst hs; ring).
  assert (E4 : (760 + 131 * hardness) * sf == 760 * sf + 131 * hs) by (subst hs; ring).
  rewrite E1 in Hlo. rewrite E2 in Hhi. rewrite E3, E4. clearbody hs.
  split; [lra | split; [lra | split; lra]].
Qed.

Lemma computeNextSpawnDist_range_witness :
  216 <= eval (computeNextSpawnDist CACTUS 0.55) (bootWith 0.5).
Proof.
  assert (Hd : unitDraws (entropy (bootWith 0.5))).
  { intros n. change (entropy (bootWith 0.5) n) with 0.5. split; lra. }
  assert (Hh : 0 <= 0.55) by lra.
  assert (Hh2 : 0.55 <= 1.6) by lra.
  pose proof (computeNextSpawnDist_range CACTUS 0.55 (bootWith 0.5) Hd Hh Hh2) as H.
  cbv zeta in H. exact (proj1 H).
Defined.

(** ** Scrolling and culling *)

Lemma shiftWhile_suffix {A : Type} (test : A -> bool) (a : list A) :
  exists gone, a = gone ++ shiftWhile test a /\ Forall (fun x => test x = true) gone.
Proof.
  induction a as [| x rest IH]; cbn [shiftWhile].
  - exists []. split; [reflexivity | constructor].
  - destruct (test x) eqn:E.
    + destruct IH as (gone & Hg & Hall). exists (x :: gone). split.
      * cbn [app]. f_equal. exact Hg.
      * constructor; assumption.
    + exists []. split; [reflexivity | constructor].
Qed.

(** X11. One step of scrolling moves every obstacle left by
    [worldSpeed * dt] and then drops obstacles from the front of the list
    only: what is dropped is a prefix whose members all lie entirely left
    of x = -80, so an obstacle that still reaches x = -80 is never removed;
    the obstacles that stay keep their order, kind and size. *)
Theorem culling_drops_only_offscreen_prefix (dt : Q) (g : Game) :
  let dx := worldSpeed (run g) * dt in
  exists gone,
    map (moveOb dx) (obs g) = gone ++ obs (updateObstacles dt g) /\
    Forall (fun o => ob_x o + ob_w o < -80) gone /\
    (forall o, In o (obs g) -> -80 <= ob_x o - dx + ob_w o ->
               In (moveOb dx o) (obs (updateObstacles dt g))).
Proof.
  cbv zeta. unfold updateObstacles. cbv zeta. lookup.
  set (moved := map (moveOb (worldSpeed (run g) * dt)) (obs g)).
  destruct (shiftWhile_suffix (fun o => ob_x o + ob_w o <? -80) moved)
    as (gone & Hg & Hall).
  exists gone. split; [exact Hg | split].
  - eapply Forall_impl; [ | exact Hall].
    intros o Ho. cbv beta in Ho. qprop. exact Ho.
  - intros o Hin Hvis.
    assert (Hm : In (moveOb (worldSpeed (run g) * dt) o) moved) by (apply in_map; exact Hin).
    rewrite Hg in Hm. apply in_app_or in Hm. destruct Hm as [Hm | Hm]; [ | exact Hm].
    rewrite Forall_forall in Hall. specialize (Hall _ Hm). cbv beta in Hall.
    qprop. cbn [moveOb ob_x ob_w] in Hall. lra.
Qed.

(** ** The frame loop *)

Lemma reachable_runEvents (evs : list Event) (g : Game) :
  reachable g -> reachable (runEvents evs g).
Proof.
  revert g. induction evs as [| ev rest IH]; intros g Hg.
  - exact Hg.
  - rewrite runEvents_cons. apply IH. now apply reach_step.
Qed.

Lemma ticks_succ (k : nat) (g : Game) :
  runEvents (List.repeat Tick (S k)) g =
    runEvents (List.repeat Tick k) (exec (update FIXED_DT) g).
Proof. reflexivity. Qed.

Lemma steps_succ (k : nat) :
  inject_Z (Z.of_nat (S k)) * FIXED_DT == FIXED_DT + inject_Z (Z.of_nat k) * FIXED_DT.
Proof.
  rewrite Nat2Z.inj_succ. unfold Z.succ. rewrite inject_Z_plus.
  unfold inject_Z at 2. ring.
Qed.

(* the loop of [frame] stops after at most [n] updates when the
   accumulator holds at most [n] steps *)
Lemma frameLoop_drains (n : nat) :
  forall (extra : nat) (acc : Q) (g : Game),
    acc <= inject_Z (Z.of_nat n) * FIXED_DT ->
    exists k acc',
      (k <= n)%nat /\
      frameLoop (S n + extra) acc g = Some (acc', runEvents (List.repeat Tick k) g) /\
      acc' == acc - inject_Z (Z.of_nat k) * FIXED_DT /\
      acc' < FIXED_DT /\
      (0 <= acc -> 0 <= acc') /\
      (acc < FIXED_DT -> k = O).
Proof.
  induction n as [| n IH]; intros extra acc g Hacc; cbn [frameLoop plus].
  - assert (Hlow : acc < FIXED_DT).
    { rewrite FIXED_DT_value. cbn [Z.of_nat] in Hacc. unfold inject_Z in Hacc. lra. }
    exists O, acc. destruct (acc >=? FIXED_DT) eqn:E; [qprop; lra | ].
    cbn [Z.of_nat]. unfold inject_Z.
    split; [lia | split; [reflexivity | split; [ring | split; [exact Hlow | split]]]].
    + intros H; exact H.
    + reflexivity.
  - destruct (acc >=? FIXED_DT) eqn:E; qprop.
    + destruct (IH extra (acc - FIXED_DT) (exec (update FIXED_DT) g))
        as (k & acc' & Hk & Hrun & Heq & Hlt & Hpos & _).
      { rewrite steps_succ in Hacc. lra. }
      exists (S k), acc'. rewrite ticks_succ, steps_succ.
      split; [lia | split; [exact Hrun | split; [ | split; [exact Hlt | split]]]].
      * rewrite Heq. ring.
      * intros _. apply Hpos. lra.
      * intros Hlow. lra.
    + exists O, acc. cbn [Z.of_nat]. unfold inject_Z.
      split; [lia | split; [reflexivity | split; [ring | split; [exact E | split]]]].
      * intros H; exact H.
      * reflexivity.
Qed.

Lemma accumulated_cap (now : Q) (c : Clock) :
  accumulated now c <= MAX_ACCUM /\
  accumulated now c <= clock_acc c + 0.05 /\
  (0 <= clock_acc c -> clock_last c <= now -> 0 <= accumulated now c).
Proof.
  unfold accumulated, MAX_ACCUM. cbv zeta.
  set (dt := Math_min 0.05 ((now - clock_last c) / 1000)).
  assert (Hdt : dt <= 0.05) by (subst dt; minmax; lra).
  assert (Hpos : clock_last c <= now -> 0 <= dt).
  { intros Hmono. subst dt.
    assert (0 <= (now - clock_last c) / 1000) by (apply Qle_shift_div_l; lra).
    minmax; lra. }
  clearbody dt.
  destruct (clock_acc c + dt >? 0.25) eqn:E; qprop.
  - split; [lra | split; [lra | intros; lra]].
  - split; [lra | split; [lra | intros Ha Hm; specialize (Hpos Hm); lra]].
Qed.

(** X12. One call of [frame] always returns: it runs the fixed-step update
    at most 30 times (31 units of fuel are enough for the loop, more change
    nothing) and not at all when less than one step has accumulated; when
    the accumulator it starts from is below one step it runs the update at
    most 7 times (6 steps fit into the 50 ms a frame can add; the bound
    leaves room for one more step that the rounding of the accumulator can
    let through). It leaves an accumulator below one step, not above what
    had accumulated, and not negative when the clock did not run
    backwards; the state it leaves is the one reached by that many
    updates, so it is a state of a run whenever it starts from one. *)
Theorem frame_runs_bounded_updates (extra : nat) (now : Q) (c : Clock) (g : Game) :
  exists k acc',
    (k <= 30)%nat /\
    frame (31 + extra) now c g
      = Some (mkClock now acc', runEvents (List.repeat Tick k) g) /\
    acc' < FIXED_DT /\
    acc' <= accumulated now c /\
    (0 <= clock_acc c -> clock_last c <= now -> 0 <= acc') /\
    (accumulated now c < FIXED_DT -> k = O) /\
    (clock_acc c < FIXED_DT -> (k <= 7)%nat) /\
    (reachable g -> reachable (runEvents (List.repeat Tick k) g)).
Proof.
  destruct (accumulated_cap now c) as (Hcap & Hstep & Hpos).
  destruct (frameLoop_drains 30 extra (accumulated now c) g)
    as (k & acc' & Hk & Hrun & Heq & Hlt & Hnn & Hzero).
  { rewrite FIXED_DT_value. unfold MAX_ACCUM in Hcap.
    change (inject_Z (Z.of_nat 30)) with 30. lra. }
  assert (Hsteps : 0 <= inject_Z (Z.of_nat k) * FIXED_DT).
  { apply Qmult_le_0_compat; [ | rewrite FIXED_DT_value; lra].
    change 0 with (inject_Z 0). rewrite <- Zle_Qle. lia. }
  exists k, acc'.
  split; [exact Hk | split; [ | split; [exact Hlt | split; [ | split; [ | split; [exact Hzero | split]]]]]].
  - unfold frame. cbv zeta. fold (accumulated now c).
    change (31 + extra)%nat with (S 30 + extra)%nat. rewrite Hrun. reflexivity.
  - rewrite Heq. lra.
  - intros Ha Hm. apply Hnn. now apply Hpos.
  - intros Hsmall.
    destruct (Qlt_le_dec (accumulated now c) FIXED_DT) as [Hidle | Hbusy].
    + rewrite (Hzero Hidle). lia.
    + assert (Hge : 0 <= acc').
      { apply Hnn. rewrite FIXED_DT_value in Hbusy. lra. }
      rewrite Heq in Hge. rewrite FIXED_DT_value in *.
      assert (Hq : inject_Z (Z.of_nat k) < 7) by lra.
      change 7 with (inject_Z 7) in Hq. rewrite <- Zlt_Qlt in Hq. lia.
  - apply reachable_runEvents.
Qed.

(** ** Presentation *)

Lemma Math_floor_le (q : Q) : Math_floor q <= q.
Proof. unfold Math_floor. apply Qfloor_le. Qed.

Lemma Math_floor_gt (q : Q) : q - 1 < Math_floor q.
Proof.
  unfold Math_floor. pose proof (Qlt_floor q) as H.
  rewrite inject_Z_plus in H. unfold inject_Z at 2 in H. lra.
Qed.


(** ** The shape of the scene *)

#[local] Instance keeps_shape_PreOrder : PreOrder keeps_shape.
Proof.
  split.
  - intros g H. exact H.
  - intros g1 g2 g3 H12 H23 H. auto.
Qed.

Lemma shapely_same (g g' : Game) :
  view g' = view g -> dino g' = dino g -> obs g' = obs g -> keeps_shape g g'.
Proof.
  intros Hv Hd Ho (Hc & Hp & Hs).
  unfold shapely, camera, posture. rewrite Hv, Hd, Ho.
  split; [exact Hc | split; [exact Hp | exact Hs]].
Qed.

(* the assignments that leave the camera, the actor and the obstacles alone *)
Ltac shape_same :=
  cbv zeta;
  repeat match goal with
  | |- context [if ?b then _ else _] => destruct b
  end;
  solve [ apply shapely_same; reflexivity | reflexivity ].

Ltac frames_shape :=
  repeat frame_step;
  lazymatch goal with
  | |- preserves _ _ => auto with frames
  | |- _ => try shape_same
  end.

Lemma only_draws_shape {A : Type} (m : M A) :
  preserves only_draws m -> preserves keeps_shape m.
Proof.
  intros H g. specialize (H g). unfold only_draws in H.
  apply shapely_same; rewrite H; reflexivity.
Qed.
#[local] Hint Resolve only_draws_shape : frames.

Lemma dust_frame_shape {A : Type} (m : M A) :
  preserves dust_frame m -> preserves keeps_shape m.
Proof.
  intros H g. specialize (H g). unfold dust_frame in H.
  apply shapely_same; rewrite H; reflexivity.
Qed.

Lemma spawnDust_shape (x y : Q) (count : nat) (intensity : Q) :
  preserves keeps_shape (spawnDust x y count intensity).
Proof. apply dust_frame_shape, spawnDust_dust. Qed.
#[local] Hint Resolve spawnDust_shape : frames.

(** *** The obstacles that are pushed *)

Lemma shapely_pushed {A : Type} (m : M A) (g : Game) (o : Ob) :
  preserves spawn_frame m ->
  obs (exec m g) = obs g ++ [o] ->
  (groundY (view g) = 272 -> obShaped o) ->
  keeps_shape g (snd (m g)).
Proof.
  intros Hf Ho Hsh (Hc & Hp & Hs).
  specialize (Hf g). unfold spawn_frame in Hf. unfold exec in Ho.
  assert (Hv : view (snd (m g)) = view g) by (rewrite Hf; reflexivity).
  assert (Hd : dino (snd (m g)) = dino g) by (rewrite Hf; reflexivity).
  unfold shapely, camera, posture. rewrite Hv, Hd, Ho.
  split; [exact Hc | split; [exact Hp | ]].
  apply Forall_app. split; [exact Hs | ].
  constructor; [ | constructor]. apply Hsh. apply Hc.
Qed.

Lemma groundOb_drawn (v : GroundVariant) (seed : Z) (n : nat) (g : Game) :
  groundOb v seed (with_drawn n g) = groundOb v seed g.
Proof.
  unfold groundOb, makeGroundDims, computeGroundHardness.
  change (stage (with_drawn n g)) with (stage g).
  change (difficulty01 (with_drawn n g)) with (difficulty01 g).
  change (maxGroundWidthCap (with_drawn n g)) with (maxGroundWidthCap g).
  change (maxGroundHeightCap (with_drawn n g)) with (maxGroundHeightCap g).
  change (view (with_drawn n g)) with (view g).
  reflexivity.
Qed.

Lemma spawnGroundObstacle_pushed (tallBias : Q) (g : Game) :
  exists v seed,
    obs (exec (spawnGroundObstacle tallBias) g) = obs g ++ [groundOb v seed g].
Proof.
  unfold spawnGroundObstacle.
  rewrite exec_bind.
  pose proof (seedInt_draws g) as H1. unfold only_draws in H1.
  set (seed := eval seedInt g).
  change (exec seedInt g) with (snd (seedInt g)).
  set (g1 := snd (seedInt g)) in *.
  rewrite exec_bind.
  pose proof (pickGroundVariant_draws tallBias g1) as H2. unfold only_draws in H2.
  set (v := eval (pickGroundVariant tallBias) g1).
  change (exec (pickGroundVariant tallBias) g1) with (snd (pickGroundVariant tallBias g1)).
  set (g2 := snd (pickGroundVariant tallBias g1)) in *.
  exists v, seed. clearbody v seed.
  assert (E : g2 = with_drawn (drawn g2) g).
  { rewrite H2, H1. reflexivity. }
  rewrite <- (groundOb_drawn v seed (drawn g2) g), <- E.
  change (obs g) with (obs (with_drawn (drawn g2) g)). rewrite <- E.
  clearbody g2. clear E H1 H2 g1.
  unfold pushOb. mstep. lookup. reflexivity.
Qed.

Lemma groundOb_shaped (v : GroundVariant) (seed : Z) (g : Game) :
  groundY (view g) = 272 -> obShaped (groundOb v seed g).
Proof.
  intros Hgy. unfold groundOb, obShaped. cbv zeta. cbn [ob_kind ob_w ob_h ob_y].
  destruct (makeGroundDims_caps v seed g) as (H1 & H2 & H3 & H4).
  destruct (maxGroundWidthCap_range g) as [_ Hw].
  destruct (maxGroundHeightCap_range g) as [_ Hh].
  rewrite Hgy.
  split; [exact H1 | split; [lra | split; [exact H3 | split; [lra | ring]]]].
Qed.

Lemma spawnGroundObstacle_shape (tallBias : Q) :
  preserves keeps_shape (spawnGroundObstacle tallBias).
Proof.
  intros g. destruct (spawnGroundObstacle_pushed tallBias g) as (v & seed & Ho).
  eapply shapely_pushed; [apply spawnGroundObstacle_spawn | exact Ho | ].
  apply groundOb_shaped.
Qed.
#[local] Hint Resolve spawnGroundObstacle_shape : frames.

Lemma flyerOb_shaped (l : FlyLevel) (g : Game) :
  groundY (view g) = 272 -> obShaped (flyerOb l g).
Proof.
  intros Hgy. unfold flyerOb, obShaped. cbn [ob_kind ob_w ob_h ob_y ob_flightLevel].
  rewrite Hgy.
  split; [reflexivity | split; [reflexivity | ]].
  exists l. split; [reflexivity | ].
  destruct l; unfold flyerBottom, DUCK_H, STAND_H; ring.
Qed.

Lemma spawnFlyer_shape (level : option FlyLevel) : preserves keeps_shape (spawnFlyer level).
Proof.
  intros g.
  destruct (spawnFlyer_exec level g) as [Ho _]. cbv zeta in Ho.
  assert (Hpick : preserves only_draws
                    (match level with Some l => ret l | None => pickFlyLevel end)).
  { destruct level; [apply preserves_ret; exact _ | apply pickFlyLevel_draws]. }
  specialize (Hpick g). unfold only_draws in Hpick.
  revert Ho.
  generalize (guardedLevel
                (eval (match level with Some l => ret l | None => pickFlyLevel end) g)
                (exec (match level with Some l => ret l | None => pickFlyLevel end) g)).
  unfold exec. rewrite Hpick. intros l Ho.
  eapply shapely_pushed; [apply spawnFlyer_spawn | exact Ho | ].
  intros Hgy. apply flyerOb_shaped. exact Hgy.
Qed.
#[local] Hint Resolve spawnFlyer_shape : frames.

Lemma pitOb_shaped (w : Q) (g : Game) :
  groundY (view g) = 272 -> obShaped (pitOb w g).
Proof.
  intros Hgy. unfold pitOb, obShaped. cbn [ob_kind ob_h ob_y].
  rewrite Hgy. split; reflexivity.
Qed.

Lemma spawnPit_shape (width : option Q) : preserves keeps_shape (spawnPit width).
Proof.
  intros g. destruct width as [w |].
  - eapply shapely_pushed; [apply spawnPit_spawn | apply spawnPit_given | ].
    apply pitOb_shaped.
  - eapply shapely_pushed; [apply spawnPit_spawn | apply spawnPit_random | ].
    apply pitOb_shaped.
Qed.
#[local] Hint Resolve spawnPit_shape : frames.

(** *** The spawn director *)

Lemma setPatternCooldown_shape : preserves keeps_shape setPatternCooldown.
Proof. unfold setPatternCooldown. frames_shape. Qed.
#[local] Hint Resolve setPatternCooldown_shape : frames.

Lemma startPattern_shape : preserves keeps_shape startPattern.
Proof.
  pose proof pickPattern_draws.
  unfold startPattern, pushRecentPattern. frames_shape.
Qed.
#[local] Hint Resolve startPattern_shape : frames.

Lemma scheduleNextAfterSpawn_shape : preserves keeps_shape scheduleNextAfterSpawn.
Proof. unfold scheduleNextAfterSpawn. frames_shape. Qed.
#[local] Hint Resolve scheduleNextAfterSpawn_shape : frames.

Lemma spawnSingleFair_shape : preserves keeps_shape spawnSingleFair.
Proof. unfold spawnSingleFair. frames_shape. Qed.
#[local] Hint Resolve spawnSingleFair_shape : frames.

Lemma spawnStep_shape (step : PatternStep) : preserves keeps_shape (spawnStep step).
Proof. unfold spawnStep. frames_shape. Qed.
#[local] Hint Resolve spawnStep_shape : frames.

Lemma spawnQueued_shape (step : PatternStep) (rest : list PatternStep) :
  preserves keeps_shape (spawnQueued step rest).
Proof. unfold spawnQueued. frames_shape. Qed.
#[local] Hint Resolve spawnQueued_shape : frames.

Lemma spawnManagerTick_shape : preserves keeps_shape spawnManagerTick.
Proof. unfold spawnManagerTick. frames_shape. Qed.
#[local] Hint Resolve spawnManagerTick_shape : frames.

Lemma updateSpawn_shape (dt : Q) : preserves keeps_shape (updateSpawn dt).
Proof. unfold updateSpawn. frames_shape. Qed.

(** *** The actor *)

Lemma shapely_moved (g g' : Game) :
  view g' = view g -> obs g' = obs g ->
  (posture g -> posed (groundY (view g)) (dino g')) ->
  keeps_shape g g'.
Proof.
  intros Hv Ho Hd (Hc & Hp & Hs).
  unfold shapely, camera, posture. rewrite Hv, Ho.
  split; [exact Hc | split; [apply Hd; exact Hp | exact Hs]].
Qed.

Lemma posed_airborne (gy : Q) (d : Dino) (y vy : Q) :
  posed gy d ->
  posed gy (mkDino (dino_x d) y (dino_w d) (dino_h d) vy false false).
Proof.
  intros (Hw & Hh & _ & _ & Hx1 & Hx2). unfold posed. lookup.
  split; [exact Hw | split; [exact Hh | ]].
  split; [intros E; discriminate E | ].
  split; [intros E; discriminate E | split; assumption].
Qed.

Lemma posed_landed (gy : Q) (d : Dino) :
  posed gy d ->
  posed gy (mkDino (dino_x d) (gy - dino_h d) (dino_w d) (dino_h d) 0 true
                   (dino_ducking d)).
Proof.
  intros (Hw & Hh & Hk & _ & Hx1 & Hx2). unfold posed. lookup.
  split; [exact Hw | split; [exact Hh | ]].
  split; [intros E; split; [reflexivity | apply Hk; exact E] | ].
  split; [intros _; split; reflexivity | split; assumption].
Qed.

Lemma posed_upright (gy : Q) (d : Dino) (y vy : Q) (og : bool) :
  posed gy d ->
  (og = true -> y = gy - STAND_H /\ vy = 0) ->
  posed gy (mkDino (dino_x d) y STAND_W STAND_H vy og false).
Proof.
  intros (_ & _ & _ & _ & Hx1 & Hx2) Hog. unfold posed. lookup.
  split; [reflexivity | split; [left; reflexivity | ]].
  split; [intros E; discriminate E | ].
  split; [exact Hog | split; assumption].
Qed.

Lemma applyDuckVisual_posed (duck : bool) (g : Game) :
  posture g -> posed (groundY (view g)) (dino (applyDuckVisual duck g)).
Proof.
  unfold posture, applyDuckVisual.
  destruct g as [v r [x y w h vy og dk] o sc i s pf e n]. lookup.
  intros (Hw & Hh & Hk & Hg & Hx1 & Hx2). lookup.
  destruct og, duck, dk; cbn [negb andb]; lookup; unfold posed; lookup;
    repeat split; try assumption; try discriminate;
    try (left; reflexivity); try (right; reflexivity);
    try (apply Hk; reflexivity); try (apply Hg; reflexivity);
    intros; try discriminate.
Qed.

Lemma applyDuckVisual_shape (duck : bool) (g : Game) :
  keeps_shape g (applyDuckVisual duck g).
Proof.
  destruct (applyDuckVisual_kept duck g) as (Hv & _ & Ho & _).
  apply shapely_moved; [exact Hv | exact Ho | apply applyDuckVisual_posed].
Qed.

Lemma performJump_shape : preserves keeps_shape performJump.
Proof.
  intros g. destruct (performJump_kept g) as (Hv & _ & Ho & _ & _ & Hd & _).
  apply shapely_moved; [exact Hv | exact Ho | ].
  intros Hp. unfold exec in Hd. rewrite Hd.
  apply (posed_upright _ (dino g)); [exact Hp | intros E; discriminate E].
Qed.
#[local] Hint Resolve performJump_shape : frames.

Lemma startRunFresh_scene (g : Game) :
  view (startRunFresh g) = view g /\
  obs (startRunFresh g) = [] /\
  dino (startRunFresh g) =
    mkDino (dino_x (dino g)) (groundY (view g) - STAND_H) STAND_W STAND_H 0 true false.
Proof. split; [reflexivity | split; reflexivity]. Qed.

Lemma resetToReady_scene (g : Game) :
  view (exec resetToReady g) = view g /\
  obs (exec resetToReady g) = [] /\
  dino (exec resetToReady g) =
    mkDino (dino_x (dino g)) (groundY (view g) - STAND_H) STAND_W STAND_H 0 true false.
Proof. split; [reflexivity | split; reflexivity]. Qed.

Lemma shapely_fresh (g g' : Game) :
  view g' = view g -> obs g' = [] ->
  dino g' = mkDino (dino_x (dino g)) (groundY (view g) - STAND_H)
                   STAND_W STAND_H 0 true false ->
  keeps_shape g g'.
Proof.
  intros Hv Ho Hd (Hc & Hp & _).
  unfold shapely, camera, posture. rewrite Hv, Ho, Hd.
  split; [exact Hc | split; [ | constructor]].
  apply (posed_upright _ (dino g)); [exact Hp | intros _; split; reflexivity].
Qed.

Lemma startRunFresh_shape (g : Game) : keeps_shape g (startRunFresh g).
Proof.
  destruct (startRunFresh_scene g) as (Hv & Ho & Hd).
  now apply shapely_fresh.
Qed.

Lemma resetToReady_shape : preserves keeps_shape resetToReady.
Proof.
  intros g. destruct (resetToReady_scene g) as (Hv & Ho & Hd).
  now apply shapely_fresh.
Qed.
#[local] Hint Resolve resetToReady_shape : frames.

Lemma tryConsumeJump_shape : preserves keeps_shape tryConsumeJump.
Proof. unfold tryConsumeJump. frames_shape. apply startRunFresh_shape. Qed.
#[local] Hint Resolve tryConsumeJump_shape : frames.

Lemma cutJumpIfNeeded_shape (g : Game) : keeps_shape g (cutJumpIfNeeded g).
Proof.
  unfold cutJumpIfNeeded.
  destruct (dino_vy (dino g) <? JUMP_CUT_VELOCITY) eqn:E; [ | reflexivity].
  apply shapely_moved; [reflexivity | reflexivity | ].
  intros (Hw & Hh & Hk & Hg & Hx1 & Hx2). unfold posed. lookup.
  split; [exact Hw | split; [exact Hh | split; [exact Hk | ]]].
  split; [ | split; assumption].
  intros Eg. destruct (Hg Eg) as [Hy Hvy].
  rewrite Hvy in E. vm_compute in E. discriminate E.
Qed.

Lemma integrateGravity_dino (dt : Q) (g : Game) :
  exists y vy,
    dino (integrateGravity dt g) =
      mkDino (dino_x (dino g)) y (dino_w (dino g)) (dino_h (dino g)) vy
             (dino_onGround (dino g)) (dino_ducking (dino g)).
Proof.
  unfold integrateGravity. cbv zeta.
  destruct g as [v r [x y w h vy og dk] o sc i s pf e n]. lookup.
  repeat match goal with |- context [if ?b then _ else _] => destruct b end;
    lookup; eexists; eexists; reflexivity.
Qed.

Lemma updatePhysics_shape (dt : Q) : preserves keeps_shape (updatePhysics dt).
Proof.
  intros g Hshape.
  change (snd (updatePhysics dt g)) with (exec (updatePhysics dt) g).
  unfold updatePhysics. mstep.
  destruct (integrateGravity_kept dt g) as (Hv & _ & _ & Ho & Hh & _).
  destruct (integrateGravity_dino dt g) as (y1 & vy1 & Hd).
  revert Hv Ho Hh Hd. generalize (integrateGravity dt g). intros g1 Hv Ho Hh Hd.
  rewrite Hv, Hh.
  set (groundTop := groundY (view g) - dino_h (dino g)).
  set (c := negb (pitFall g1) && isOverPit g1
            && (dino_y (dino g1) >? groundTop + PIT_FALL_LOCK_DEPTH)).
  assert (Hlock : view (if c then set_pitFall true g1 else g1) = view g
                  /\ obs (if c then set_pitFall true g1 else g1) = obs g
                  /\ dino (if c then set_pitFall true g1 else g1) = dino g1
                  /\ input (if c then set_pitFall true g1 else g1) = input g1).
  { destruct c; lookup; repeat split; assumption. }
  destruct Hlock as (Hv2 & Ho2 & Hd2 & Hi2).
  revert Hv2 Ho2 Hd2 Hi2. generalize (if c then set_pitFall true g1 else g1).
  intros g2 Hv2 Ho2 Hd2 Hi2. clear c.
  rewrite Hd2.
  match goal with |- context [if ?b then _ else _] => destruct b end.
  - mstep. lookup.
    match goal with
    | |- shapely (exec (when ?landed ?dust) ?gA) =>
        assert (HA : shapely gA); [ | destruct landed; cbn [when];
          [ exact (spawnDust_shape _ _ _ _ gA HA) | exact HA ] ]
    end.
    apply applyDuckVisual_shape.
    revert Hshape. apply shapely_moved; lookup; [exact Hv2 | exact Ho2 | ].
    intros Hp. rewrite Hd2, Hd. lookup.
    apply (posed_landed _ (dino g)). exact Hp.
  - mstep. revert Hshape. apply shapely_moved; lookup; [exact Hv2 | exact Ho2 | ].
    intros Hp. rewrite Hd2, Hd. lookup.
    apply (posed_airborne _ (dino g)). exact Hp.
Qed.

Lemma updateActor_shape (dt : Q) : preserves keeps_shape (updateActor dt).
Proof.
  pose proof (updatePhysics_shape dt).
  unfold updateActor, updateControls. frames_shape; apply applyDuckVisual_shape.
Qed.

(** *** The tick and the events *)

Lemma updateParticles_shape (dt : Q) (g : Game) : keeps_shape g (updateParticles dt g).
Proof. unfold updateParticles. shape_same. Qed.

Lemma updatePacing_shape (dt : Q) (g : Game) : keeps_shape g (updatePacing dt g).
Proof. unfold updatePacing. shape_same. Qed.

Lemma updateScenery_shape (dt : Q) : preserves keeps_shape (updateScenery dt).
Proof. unfold updateScenery. frames_shape. Qed.

Lemma gameOver_shape (g : Game) : keeps_shape g (gameOver g).
Proof. unfold gameOver. shape_same. Qed.

Lemma moveOb_shaped (dx : Q) (o : Ob) : obShaped o -> obShaped (moveOb dx o).
Proof. intros H. exact H. Qed.

Lemma updateObstacles_shape (dt : Q) (g : Game) : keeps_shape g (updateObstacles dt g).
Proof.
  intros (Hc & Hp & Hs). unfold updateObstacles. cbv zeta.
  split; [exact Hc | split; [exact Hp | ]].
  lookup. apply shiftWhile_Forall, Forall_map.
  eapply Forall_impl; [ | exact Hs].
  intros o. apply moveOb_shaped.
Qed.

Lemma updateCollisions_shape (g : Game) : keeps_shape g (updateCollisions g).
Proof.
  unfold updateCollisions. cbv zeta.
  destruct (existsb _ _); [apply gameOver_shape | reflexivity].
Qed.

Lemma update_shape (dt : Q) : preserves keeps_shape (update dt).
Proof.
  unfold update.
  apply preserves_bind; [exact _ | | intros _].
  { apply preserves_modify. apply updateParticles_shape. }
  apply preserves_bind; [exact _ | apply preserves_gets; exact _ | intros st].
  destruct st.
  - frames_shape.
  - apply preserves_bind; [exact _ | | intros _].
    { apply preserves_modify. intros g. apply updatePacing_shape. }
    apply preserves_bind; [exact _ | apply updateActor_shape | intros _].
    apply preserves_bind; [exact _ | apply preserves_gets; exact _ | intros fell].
    destruct fell.
    + apply preserves_modify. apply gameOver_shape.
    + apply preserves_bind; [exact _ | apply updateScenery_shape | intros _].
      apply preserves_bind; [exact _ | apply updateSpawn_shape | intros _].
      apply preserves_bind; [exact _ | | intros _].
      * apply preserves_modify. apply updateObstacles_shape.
      * apply preserves_modify. apply updateCollisions_shape.
  - apply preserves_ret; exact _.
Qed.

Lemma resize_shapely (rectW rectH : Q) (g : Game) :
  (dino_h (dino g) = STAND_H \/ dino_h (dino g) = DUCK_H) ->
  dino_w (dino g) = STAND_W ->
  (dino_ducking (dino g) = true ->
   dino_onGround (dino g) = true /\ dino_h (dino g) = DUCK_H) ->
  Forall obShaped (obs g) ->
  shapely (resize rectW rectH g).
Proof.
  intros Hh Hw Hk Hs.
  destruct (cameraWidth_range rectW rectH) as (Hlo & Hhi & Hmul).
  destruct (actorX_range (cameraWidth rectW rectH) Hlo) as [Hx1 Hx2].
  assert (Ho : obs (resize rectW rectH g) = obs g).
  { unfold resize. cbv zeta. lookup. destruct (dino_onGround (dino g)); reflexivity. }
  unfold shapely, camera, posture, posed.
  rewrite resize_view, resize_dino, Ho. cbv zeta. lookup.
  split; [ | split; [ | exact Hs]].
  - split; [reflexivity | split; [reflexivity | ]].
    split; [exact Hlo | split; [exact Hhi | exact Hmul]].
  - destruct (dino_onGround (dino g)) eqn:Eg; lookup.
    + split; [exact Hw | split; [exact Hh | ]].
      split; [intros E; split; [reflexivity | apply Hk; exact E] | ].
      split; [intros _; split; reflexivity | split; assumption].
    + split; [exact Hw | split; [exact Hh | ]].
      split; [intros E; destruct (Hk E) as [E' _]; discriminate E' | ].
      split; [intros E; discriminate E | split; assumption].
Qed.

Lemma resize_shape (rectW rectH : Q) (g : Game) : keeps_shape g (resize rectW rectH g).
Proof.
  intros (_ & (Hw & Hh & Hk & _) & Hs). now apply resize_shapely.
Qed.

Lemma handle_shape (ev : Event) : preserves keeps_shape (handle ev).
Proof.
  destruct ev as [e | e | | | rectW rectH |]; cbn [handle].
  - unfold onKeyDown, queueJump. frames_shape;
      first [apply startRunFresh_shape | apply applyDuckVisual_shape].
  - unfold onKeyUp. frames_shape. apply cutJumpIfNeeded_shape.
  - unfold onPointerDown, queueJump. frames_shape. apply startRunFresh_shape.
  - unfold onPointerUp. frames_shape. apply cutJumpIfNeeded_shape.
  - apply preserves_modify. apply resize_shape.
  - apply update_shape.
Qed.

Lemma boot_shape (rectW rectH best0 : Q) (draws : nat -> Q) :
  shapely (boot rectW rectH best0 draws).
Proof.
  unfold boot. apply resetToReady_shape. apply resize_shapely.
  - left. reflexivity.
  - reflexivity.
  - intros E. discriminate E.
  - constructor.
Qed.

(** Every state of a run is well shaped. *)
Lemma reachable_shape (g : Game) : reachable g -> shapely g.
Proof.
  induction 1 as [rectW rectH best0 draws Hd | g ev _ IH].
  - apply boot_shape.
  - now apply handle_shape.
Qed.

(** X14. In every state of a run the camera is 360 high, between 640 and
    1280 wide (a multiple of 16) with the ground line at 272, and the actor
    keeps its posture: it is 32 wide and standing (32) or duck (24) high,
    it stays between x = 90 and x = 140, it ducks only while on the ground
    and then is duck high, and while on the ground it stands exactly on the
    ground line with no vertical velocity. *)
Theorem actor_posture_in_every_state (g : Game) :
  reachable g ->
  (viewH (view g) = 360 /\ groundY (view g) = 272 /\
   640 <= viewW (view g) /\ viewW (view g) <= 1280 /\
   exists k : Z, viewW (view g) == inject_Z (16 * k)) /\
  dino_w (dino g) = 32 /\
  (dino_h (dino g) = 32 \/ dino_h (dino g) = 24) /\
  (dino_ducking (dino g) = true ->
     dino_onGround (dino g) = true /\ dino_h (dino g) = 24) /\
  (dino_onGround (dino g) = true ->
     dino_y (dino g) = groundY (view g) - dino_h (dino g) /\ dino_vy (dino g) = 0) /\
  90 <= dino_x (dino g) /\ dino_x (dino g) <= 140.
Proof.
  intros Hr. destruct (reachable_shape g Hr) as (Hc & Hp & _).
  split; [exact Hc | exact Hp].
Qed.

Lemma actor_posture_in_every_state_witness :
  dino_w (dino playing) = 32 /\
  (dino_h (dino playing) = 32 \/ dino_h (dino playing) = 24).
Proof.
  pose proof (actor_posture_in_every_state playing playing_reachable) as H.
  exact (conj (proj1 (proj2 H)) (proj1 (proj2 (proj2 H)))).
Defined.

(** X15. In every state of a run, every obstacle on the field has the
    shape its spawn function gave it, and so has the obstacle spawned next:
    a ground obstacle is between 14 and 250 wide, between 14 and 90 high
    and stands on the ground line (y + h = 272); a flyer is 48 by 24 with
    its bottom edge at 240, 222 or 196 according to its flight level 0, 1
    or 2; a pit starts at the ground line and is 84 deep. *)
Theorem obstacles_keep_their_shape (g : Game) :
  reachable g ->
  Forall obShaped (obs g) /\
  (forall tallBias, Forall obShaped (obs (exec (spawnGroundObstacle tallBias) g))) /\
  (forall level, Forall obShaped (obs (exec (spawnFlyer level) g))) /\
  (forall width, Forall obShaped (obs (exec (spawnPit width) g))).
Proof.
  intros Hr. pose proof (reachable_shape g Hr) as Hs.
  split; [apply Hs | split; [ | split]].
  - intros tb. apply (spawnGroundObstacle_shape tb g Hs).
  - intros level. apply (spawnFlyer_shape level g Hs).
  - intros width. apply (spawnPit_shape width g Hs).
Qed.

Lemma obstacles_keep_their_shape_witness :
  Forall obShaped (obs (exec (spawnFlyer (Some Level0)) playing)).
Proof.
  exact (proj1 (proj2 (proj2 (obstacles_keep_their_shape playing playing_reachable)))
           (Some Level0)).
Defined.

Lemma grounded_clears_flyer (g : Game) (o : Ob) :
  posture g -> groundY (view g) = 272 ->
  dino_onGround (dino g) = true ->
  obShaped o -> ob_kind o = FLYER ->
  aabb (dinoHitbox g) (obHitbox o) = false.
Proof.
  intros (_ & Hh & _ & Hg & _) Hgy Eg Hs Hk.
  destruct (Hg Eg) as [Hy _].
  unfold obShaped in Hs. rewrite Hk in Hs.
  destruct Hs as (_ & Hoh & l & _ & Hbottom).
  assert (Hlow : ob_y o + ob_h o <= 240).
  { rewrite Hbottom. destruct l; unfold flyerBottom; lra. }
  unfold aabb, dinoHitbox, obHitbox. cbv zeta. rewrite Hk. cbn [ObKind_eqb rx ry rw rh].
  assert (Hover : (dino_y (dino g) + HIT_PAD >? ob_y o + 6 + (ob_h o - 6 * 2)) = true).
  { unfold Qgtb. apply Qltb_lt. rewrite Hy, Hgy. unfold HIT_PAD.
    destruct Hh as [E | E]; rewrite E; unfold STAND_H, DUCK_H; lra. }
  rewrite Hover, orb_true_r. reflexivity.
Qed.

(** X16. In every state of a run, a flyer never overlaps the hit-rectangle
    of an actor that is on the ground, standing or ducking: the lowest
    flyer ends at y = 234 once padded, above the padded top (244 or 252) of
    a grounded actor. The same holds for the flyer that [spawnFlyer] would
    push in that state, at any level. *)
Theorem flyers_miss_grounded_actor (g : Game) :
  reachable g ->
  dino_onGround (dino g) = true ->
  Forall (fun o => ob_kind o = FLYER -> aabb (dinoHitbox g) (obHitbox o) = false)
         (obs g) /\
  forall level,
    Forall (fun o => ob_kind o = FLYER -> aabb (dinoHitbox g) (obHitbox o) = false)
           (obs (exec (spawnFlyer level) g)).
Proof.
  intros Hr Eg. pose proof (reachable_shape g Hr) as Hs.
  assert (Hall : forall field, Forall obShaped field ->
            Forall (fun o => ob_kind o = FLYER ->
                             aabb (dinoHitbox g) (obHitbox o) = false) field).
  { intros field Hf. eapply Forall_impl; [ | exact Hf].
    intros o Ho Hk. destruct Hs as (Hc & Hp & _).
    apply grounded_clears_flyer; try assumption. apply Hc. }
  split; [apply Hall, Hs | ].
  intros level. apply Hall. apply (spawnFlyer_shape level g Hs).
Qed.

Lemma flyers_miss_grounded_actor_witness :
  Forall (fun o => ob_kind o = FLYER ->
                   aabb (dinoHitbox (bootWith 0.5)) (obHitbox o) = false)
         (obs (exec (spawnFlyer (Some Level0)) (bootWith 0.5))).
Proof.
  assert (Hr : reachable (bootWith 0.5)).
  { refine (reach_boot 640 360 0 (fun _ => 0.5) _). intros n. split; lra. }
  assert (Eg : dino_onGround (dino (bootWith 0.5)) = true) by (vm_compute; reflexivity).
  exact (proj2 (flyers_miss_grounded_actor (bootWith 0.5) Hr Eg) (Some Level0)).
Defined.

(** ** The placement of the image *)

(** X13. In every state of a run and for a canvas of whole size (as
    [resize] keeps it), [present] scales the image of the game by no more
    than the fit ratio of either side. Below a fit of 2 the scale is the
    fit itself, and the image ends less than a pixel beyond the canvas.
    From a fit of 2 on the scale is a whole number, the largest one not
    above the fit; the image then lies inside the canvas and the margins
    on the left and on top are not negative. *)
Theorem present_fits_canvas (a b : Z) (g : Game) :
  reachable g -> (1 <= a)%Z -> (1 <= b)%Z ->
  let screenW := inject_Z a in
  let screenH := inject_Z b in
  let p := present screenW screenH g in
  let fit := Math_min (screenW / viewW (view g)) (screenH / viewH (view g)) in
  0 < presentScale p /\
  presentScale p <= screenW / viewW (view g) /\
  presentScale p <= screenH / viewH (view g) /\
  destW p < screenW + 1 /\ destH p < screenH + 1 /\
  -1 < place_dx p /\ -1 < place_dy p /\
  (fit < 2 -> presentScale p = fit) /\
  (2 <= fit ->
     (exists n : Z, (2 <= n)%Z /\ presentScale p = inject_Z n) /\
     presentScale p = Math_floor fit /\ fit - 1 < presentScale p /\
     destW p <= screenW /\ destH p <= screenH /\
     0 <= place_dx p /\ 0 <= place_dy p).
Proof.
  intros Hr Ha Hb. cbv zeta.
  destruct (reachable_shape g Hr) as ((Hvh & _ & Hvw & _) & _).
  assert (Hw : 0 < viewW (view g)) by (unfold MIN_VIEW_W in *; lra).
  assert (Hh : 0 < viewH (view g)) by (rewrite Hvh; unfold BASE_VIEW_H; lra).
  assert (Hsw : 1 <= inject_Z a) by (change 1 with (inject_Z 1); rewrite <- Zle_Qle; exact Ha).
  assert (Hsh : 1 <= inject_Z b) by (change 1 with (inject_Z 1); rewrite <- Zle_Qle; exact Hb).
  clear Hvh Hvw Ha Hb.
  set (screenW := inject_Z a) in *. set (screenH := inject_Z b) in *.
  clearbody screenW screenH.
  unfold present. cbv zeta.
  cbn [presentScale place_dx place_dy destW destH].
  set (vw := viewW (view g)) in *. set (vh := viewH (view g)) in *.
  clearbody vw vh.
  assert (Ea : vw * (screenW / vw) == screenW) by (field; lra).
  assert (Eb : vh * (screenH / vh) == screenH) by (field; lra).
  assert (Hpa : 0 < screenW / vw) by (apply Qlt_shift_div_l; lra).
  assert (Hpb : 0 < screenH / vh) by (apply Qlt_shift_div_l; lra).
  set (ra := screenW / vw) in *. set (rb := screenH / vh) in *. clearbody ra rb.
  assert (Hfa : Math_min ra rb <= ra) by (minmax; lra).
  assert (Hfb : Math_min ra rb <= rb) by (minmax; lra).
  assert (Hfp : 0 < Math_min ra rb) by (minmax; lra).
  set (fit := Math_min ra rb) in *. clearbody fit.
  pose proof (Math_floor_le fit) as Hfl.
  pose proof (Math_floor_gt fit) as Hfg.
  assert (Hint : 2 <= fit -> (2 <= Qfloor fit)%Z).
  { intros H2. rewrite <- (Qfloor_Z 2). apply Qfloor_resp_le. exact H2. }
  assert (Hscale : forall s, s <= fit ->
            vw * s <= screenW /\ vh * s <= screenH /\
            0 <= (screenW - vw * s) / 2 /\ 0 <= (screenH - vh * s) / 2).
  { intros s Hs.
    assert (H1 : vw * s <= screenW) by nra.
    assert (H2 : vh * s <= screenH) by nra.
    split; [exact H1 | split; [exact H2 | ]].
    split; apply Qle_shift_div_l; lra. }
  destruct (Qlt_le_dec fit 2) as [Hlow | Hhigh].
  - assert (E : ((fit >=? 2) && (Math_floor fit >=? 2)) = false).
    { destruct (fit >=? 2) eqn:E1; [qprop; lra | reflexivity]. }
    rewrite E.
    destruct (Hscale fit (Qle_refl fit)) as (H1 & H2 & H3 & H4).
    split; [exact Hfp | split; [exact Hfa | split; [exact Hfb | ]]].
    split; [lra | split; [lra | split; [lra | split; [lra | ]]]].
    split; [intros _; reflexivity | intros H; lra].
  - pose proof (Hint Hhigh) as Hn.
    assert (Hq : 2 <= Math_floor fit).
    { unfold Math_floor. change 2 with (inject_Z 2). rewrite <- Zle_Qle. exact Hn. }
    assert (E : ((fit >=? 2) && (Math_floor fit >=? 2)) = true).
    { apply andb_true_intro. split; apply Qleb_le; assumption. }
    rewrite E.
    destruct (Hscale (Math_floor fit) Hfl) as (H1 & H2 & H3 & H4).
    split; [lra | split; [lra | split; [lra | ]]].
    split; [lra | split; [lra | split; [lra | split; [lra | ]]]].
    split; [intros H; lra | intros _].
    split; [exists (Qfloor fit); split; [exact Hn | reflexivity] | ].
    split; [reflexivity | split; [exact Hfg | ]].
    split; [exact H1 | split; [exact H2 | split; [exact H3 | exact H4]]].
Qed.

Lemma present_fits_canvas_witness :
  destW (present (inject_Z 1280) (inject_Z 720) playing) <= inject_Z 1280 /\
  0 <= place_dx (present (inject_Z 1280) (inject_Z 720) playing).
Proof.
  assert (Ha : (1 <= 1280)%Z) by lia.
  assert (Hb : (1 <= 720)%Z) by lia.
  pose proof (present_fits_canvas 1280 720 playing playing_reachable Ha Hb) as H.
  cbv zeta in H.
  assert (Hfit : 2 <= Math_min (inject_Z 1280 / viewW (view playing))
                               (inject_Z 720 / viewH (view playing)))
    by (vm_compute; discriminate).
  destruct (proj2 (proj2 (proj2 (proj2 (proj2 (proj2 (proj2 (proj2 H))))))) Hfit)
    as (_ & _ & _ & H1 & _ & H3 & _).
  exact (conj H1 H3).
Defined.

(** ** Speed, score and the best score *)

Lemma updatePacing_run (dt : Q) (g : Game) :
  run (updatePacing dt g) =
    mkRun (state (run g)) (worldSpeed (run g) + 8 * dt)
          (score (run g) + dt * ((worldSpeed (run g) + 8 * dt) / 20))
          (animTime (run g) + dt) (best (run g)).
Proof.
  unfold updatePacing. cbv zeta.
  repeat match goal with |- context [if ?b then _ else _] => destruct b end;
    reflexivity.
Qed.

Lemma gameOver_run (g : Game) :
  run (gameOver g) =
    mkRun GAMEOVER (worldSpeed (run g)) (score (run g)) (animTime (run g))
          (if Math_floor (score (run g)) >? best (run g)
           then Math_floor (score (run g)) else best (run g)).
Proof.
  unfold gameOver. cbv zeta. lookup.
  destruct (Math_floor (score (run g)) >? best (run g)); reflexivity.
Qed.

Lemma beforeCollisions_pacing (dt : Q) (g : Game) :
  state (run g) = RUNNING ->
  run (afterActor dt g) = run (updatePacing dt (updateParticles dt g)) /\
  run (beforeCollisions dt g) = run (updatePacing dt (updateParticles dt g)).
Proof.
  intros E.
  destruct (afterActor_frame dt g E) as (_ & Hr & _).
  split; [exact Hr | ].
  assert (Hs : state (run (afterActor dt g)) = RUNNING).
  { rewrite Hr, updatePacing_state, updateParticles_run. exact E. }
  unfold beforeCollisions. rewrite updateObstacles_run.
  destruct (spawn_frame_kept _ _
              (preserves_exec spawn_frame _
                 (exec (updateScenery dt) (afterActor dt g)) (updateSpawn_spawn dt)))
    as (_ & Hsp & _).
  rewrite Hsp.
  destruct (preserves_exec running_frame _ (afterActor dt g)
              (updateScenery_running dt) Hs) as (_ & Hr' & _).
  rewrite Hr'. exact Hr.
Qed.

(* the run record after a tick of a run in progress *)
Lemma update_running_run (dt : Q) (g : Game) :
  state (run g) = RUNNING ->
  let paced := mkRun RUNNING (worldSpeed (run g) + 8 * dt)
                     (score (run g) + dt * ((worldSpeed (run g) + 8 * dt) / 20))
                     (animTime (run g) + dt) (best (run g)) in
  run (exec (update dt) g) =
    if fatalFall dt g || fatalCollision dt g
    then mkRun GAMEOVER (worldSpeed paced) (score paced) (animTime paced)
               (if Math_floor (score paced) >? best (run g)
                then Math_floor (score paced) else best (run g))
    else paced.
Proof.
  intros E. cbv zeta.
  destruct (beforeCollisions_pacing dt g E) as [HA HB].
  rewrite updatePacing_run, updateParticles_run, E in HA, HB.
  rewrite (update_running dt g E).
  destruct (fatalFall dt g); cbn [orb].
  - rewrite gameOver_run, HA. reflexivity.
  - unfold updateCollisions, fatalCollision. cbv zeta.
    destruct (existsb _ _).
    + rewrite gameOver_run, HB. reflexivity.
    + exact HB.
Qed.

(** X17. Every update of a run in progress advances the world speed by
    [8 * dt], the animation clock by [dt] and the score by
    [dt * worldSpeed / 20] (at the new speed), whether or not the run ends
    on that update; with a time step and a speed that are not negative,
    neither the speed nor the score decreases. *)
Theorem running_update_advances_pace (dt : Q) (g : Game) :
  state (run g) = RUNNING ->
  let g' := exec (update dt) g in
  worldSpeed (run g') = worldSpeed (run g) + 8 * dt /\
  score (run g') = score (run g) + dt * (worldSpeed (run g') / 20) /\
  animTime (run g') = animTime (run g) + dt /\
  (0 <= dt -> 0 <= worldSpeed (run g) ->
     worldSpeed (run g) <= worldSpeed (run g') /\ score (run g) <= score (run g')).
Proof.
  intros E. cbv zeta.
  pose proof (update_running_run dt g E) as H. cbv zeta in H.
  assert (Hw : worldSpeed (run (exec (update dt) g)) = worldSpeed (run g) + 8 * dt).
  { rewrite H. destruct (_ || _); reflexivity. }
  assert (Hs : score (run (exec (update dt) g))
               = score (run g) + dt * ((worldSpeed (run g) + 8 * dt) / 20)).
  { rewrite H. destruct (_ || _); reflexivity. }
  split; [exact Hw | split; [rewrite Hw; exact Hs | split]].
  - rewrite H. destruct (_ || _); reflexivity.
  - intros Hdt Hsp. rewrite Hw, Hs. split; [lra | ].
    assert (0 <= dt * ((worldSpeed (run g) + 8 * dt) / 20)).
    { apply Qmult_le_0_compat; [exact Hdt | ].
      apply Qle_shift_div_l; [lra | ].
      assert (0 <= 8 * dt) by lra. lra. }
    lra.
Qed.

Lemma running_update_advances_pace_witness :
  worldSpeed (run (exec (update FIXED_DT) playing))
    = worldSpeed (run playing) + 8 * FIXED_DT.
Proof.
  assert (E : state (run playing) = RUNNING) by (vm_compute; reflexivity).
  pose proof (running_update_advances_pace FIXED_DT playing E) as H.
  cbv zeta in H. exact (proj1 H).
Defined.

Lemma onKeyDown_best (e : KeyboardEvent) (g : Game) :
  best (run (exec (onKeyDown e) g)) = best (run g) /\
  (state (run (exec (onKeyDown e) g)) = GAMEOVER -> state (run g) = GAMEOVER).
Proof.
  destruct (onKeyDown_run e g) as [H | (Hrep & Hcode & Hst)].
  - rewrite H. split; [reflexivity | intros E; exact E].
  - split.
    + unfold onKeyDown. rewrite Hrep.
      destruct (isKey e "KeyH"); [reflexivity | ].
      destruct (isKey e "KeyR").
      * rewrite exec_bind, exec_gets, eval_gets.
        destruct (GameState_eqb (state (run g)) GAMEOVER); reflexivity.
      * destruct (isKey e "KeyS" || isKey e "ArrowDown").
        { mstep. rewrite applyDuckVisual_run. reflexivity. }
        destruct (isKey e "KeyW" || isKey e "ArrowUp" || isKey e "Space");
          [ | reflexivity].
        mstep. destruct (negb (jumpDown (input g))); reflexivity.
    + rewrite Hst. destruct (GameState_eqb (state (run g)) GAMEOVER); discriminate.
Qed.

(** X18. The best score is a high-water mark: no event lowers it, and only
    an update can end a run; when a run ends, the best score becomes the
    larger of the previous best and the floor of the final score. *)
Theorem best_score_is_high_water_mark (g : Game) (ev : Event) :
  let g' := exec (handle ev) g in
  best (run g) <= best (run g') /\
  (state (run g) <> GAMEOVER -> state (run g') = GAMEOVER ->
     ev = Tick /\ state (run g) = RUNNING /\
     best (run g') == Qmax (best (run g)) (Math_floor (score (run g')))).
Proof.
  cbv zeta.
  destruct ev as [e | e | | | rectW rectH |]; cbn [handle].
  - destruct (onKeyDown_best e g) as [Hb Hs]. rewrite Hb.
    split; [apply Qle_refl | intros Hn Hg; elim Hn; apply Hs; exact Hg].
  - destruct (onKeyUp_run e g) as [Hr _]. rewrite Hr.
    split; [apply Qle_refl | intros Hn Hg; contradiction].
  - rewrite onPointerDown_run.
    destruct (GameState_eqb (state (run g)) GAMEOVER).
    + split; [apply Qle_refl | intros _ Hg; discriminate Hg].
    + split; [apply Qle_refl | intros Hn Hg; contradiction].
  - destruct (onPointerUp_run g) as [Hr _]. rewrite Hr.
    split; [apply Qle_refl | intros Hn Hg; contradiction].
  - rewrite exec_modify. destruct (resize_kept rectW rectH g) as [Hr _]. rewrite Hr.
    split; [apply Qle_refl | intros Hn Hg; contradiction].
  - destruct (state (run g)) eqn:E.
    + destruct (update_ready_state FIXED_DT g E) as [Hst _].
      assert (Hb : best (run (exec (update FIXED_DT) g)) = best (run g)).
      { rewrite (update_ready FIXED_DT g E), tryConsumeJump_ready.
        2:{ lookup. rewrite updateParticles_run. exact E. }
        destruct (_ <=? _).
        - lookup. rewrite updateParticles_run. reflexivity.
        - destruct (performJump_kept
                      (startRunFresh (set_coyote COYOTE_TIME (updateParticles FIXED_DT g))))
            as (_ & Hr & _).
          rewrite Hr.
          change (best (run (startRunFresh ?x))) with (best (run x)).
          lookup. rewrite updateParticles_run. reflexivity. }
      rewrite Hb. split; [apply Qle_refl | intros _ Hg].
      rewrite Hst in Hg. destruct (_ <=? _); discriminate Hg.
    + pose proof (update_running_run FIXED_DT g E) as H. cbv zeta in H.
      rewrite H. destruct (_ || _); lookup.
      * set (s := Math_floor _).
        destruct (s >? best (run g)) eqn:Es; qprop.
        -- split; [lra | intros _ _].
           split; [reflexivity | split; [reflexivity | ]].
           rewrite Q.max_r; [reflexivity | lra].
        -- split; [apply Qle_refl | intros _ _].
           split; [reflexivity | split; [reflexivity | ]].
           rewrite Q.max_l; [reflexivity | exact Es].
      * split; [apply Qle_refl | intros _ Hg; discriminate Hg].
    + rewrite (update_gameover FIXED_DT g E), updateParticles_run.
      split; [apply Qle_refl | intros Hn _; elim Hn; reflexivity].
Qed.

Lemma best_score_is_high_water_mark_witness :
  best (run (exec (handle Tick) touchingField))
    == Qmax (best (run touchingField))
            (Math_floor (score (run (exec (handle Tick) touchingField)))).
Proof.
  assert (Hn : state (run touchingField) <> GAMEOVER) by (vm_compute; discriminate).
  assert (Hg : state (run (exec (handle Tick) touchingField)) = GAMEOVER)
    by (vm_compute; reflexivity).
  pose proof (best_score_is_high_water_mark touchingField Tick) as H.
  cbv zeta in H. exact (proj2 (proj2 (proj2 H Hn Hg))).
Defined.

(** ** The actor in the air *)

Lemma dust_frame_kept (g g' : Game) :
  dust_frame g g' ->
  view g' = view g /\ run g' = run g /\ dino g' = dino g /\ obs g' = obs g /\
  sched g' = sched g /\ input g' = input g /\ pitFall g' = pitFall g.
Proof. intros H. rewrite H. repeat split. Qed.

Lemma updateScenery_dust (dt : Q) : preserves dust_frame (updateScenery dt).
Proof. unfold updateScenery. frames. Qed.

Lemma gameOver_actor (g : Game) :
  dino (gameOver g) = dino g /\ input (gameOver g) = input g /\
  pitFall (gameOver g) = pitFall g.
Proof. unfold gameOver. cbv zeta. destruct (_ >? _); repeat split. Qed.

Lemma updateObstacles_actor (dt : Q) (g : Game) :
  input (updateObstacles dt g) = input g /\ pitFall (updateObstacles dt g) = pitFall g.
Proof. split; reflexivity. Qed.

(* what the blocks that follow the actor block leave alone *)
Lemma update_running_actor (dt : Q) (g : Game) :
  state (run g) = RUNNING ->
  dino (exec (update dt) g) = dino (afterActor dt g) /\
  input (exec (update dt) g) = input (afterActor dt g) /\
  pitFall (exec (update dt) g) = pitFall (afterActor dt g).
Proof.
  intros E. rewrite (update_running dt g E).
  destruct (fatalFall dt g); [apply gameOver_actor | ].
  assert (HB : dino (beforeCollisions dt g) = dino (afterActor dt g) /\
               input (beforeCollisions dt g) = input (afterActor dt g) /\
               pitFall (beforeCollisions dt g) = pitFall (afterActor dt g)).
  { unfold beforeCollisions.
    destruct (dust_frame_kept _ _
                (preserves_exec dust_frame _ (afterActor dt g) (updateScenery_dust dt)))
      as (_ & _ & Hd1 & _ & _ & Hi1 & Hp1).
    destruct (spawn_frame_kept _ _
                (preserves_exec spawn_frame _
                   (exec (updateScenery dt) (afterActor dt g)) (updateSpawn_spawn dt)))
      as (_ & _ & Hd2 & Hi2 & Hp2).
    rewrite updateObstacles_dino.
    destruct (updateObstacles_actor dt
                (exec (updateSpawn dt) (exec (updateScenery dt) (afterActor dt g))))
      as [Hi3 Hp3].
    rewrite Hi3, Hp3, Hd2, Hi2, Hp2, Hd1, Hi1, Hp1. repeat split. }
  unfold updateCollisions. cbv zeta.
  destruct (existsb _ _); [ | exact HB].
  destruct (gameOver_actor (beforeCollisions dt g)) as (Hd & Hi & Hp).
  rewrite Hd, Hi, Hp. exact HB.
Qed.

Lemma updateParticles_pitFall (dt : Q) (g : Game) :
  pitFall (updateParticles dt g) = pitFall g /\
  coyote (input (updateParticles dt g)) = coyote (input g).
Proof. unfold updateParticles. cbv zeta. destruct (_ >? _); split; reflexivity. Qed.

Lemma updateControls_pitFall (dt : Q) (g : Game) :
  state (run g) = RUNNING ->
  pitFall (exec (updateControls dt) g) = pitFall g.
Proof.
  intros E. unfold updateControls. mstep.
  destruct (applyDuckVisual_kept (downDown (input g)) g) as (_ & _ & _ & _ & Hp & _).
  pose proof (applyDuckVisual_run (downDown (input g)) g) as Hr.
  revert Hp Hr. generalize (applyDuckVisual (downDown (input g)) g). intros g1 Hp Hr.
  match goal with |- pitFall (exec tryConsumeJump ?x) = _ =>
    assert (Hx : pitFall x = pitFall g /\ state (run x) = RUNNING)
      by (destruct (dino_onGround (dino g1)); lookup; rewrite Hr; split; assumption);
    revert Hx; generalize x
  end.
  intros g2 [Hp2 Hs2].
  rewrite (tryConsumeJump_in_run g2 Hs2).
  destruct (_ <=? _); [exact Hp2 | ].
  destruct (_ || _); [ | exact Hp2].
  destruct (performJump_kept g2) as (_ & _ & _ & _ & Hp3 & _).
  rewrite Hp3. exact Hp2.
Qed.

Lemma updatePhysics_locked (dt : Q) (g : Game) :
  pitFall g = true ->
  pitFall (exec (updatePhysics dt) g) = true /\
  dino_onGround (dino (exec (updatePhysics dt) g)) = false /\
  dino_ducking (dino (exec (updatePhysics dt) g)) = false.
Proof.
  intros Hp. unfold updatePhysics. mstep.
  destruct (integrateGravity_kept dt g) as (_ & _ & Hp1 & _).
  rewrite Hp in Hp1. revert Hp1. generalize (integrateGravity dt g). intros g1 Hp1.
  rewrite Hp1. cbn [negb andb]. rewrite Hp1. cbn [negb andb].
  mstep. lookup. repeat split. exact Hp1.
Qed.

(** X19. Once the fall into a pit is locked ([pitFall]), no update of the
    run in progress puts the actor back on the ground: after the update
    the lock still holds and the actor is airborne and not ducking, even
    when the update performs a buffered jump. *)
Theorem locked_fall_has_no_ground (dt : Q) (g : Game) :
  state (run g) = RUNNING ->
  pitFall g = true ->
  let g' := exec (update dt) g in
  pitFall g' = true /\
  dino_onGround (dino g') = false /\
  dino_ducking (dino g') = false.
Proof.
  intros E Hp. cbv zeta.
  destruct (update_running_actor dt g E) as (Hd & _ & Hpf).
  rewrite Hd, Hpf. unfold afterActor, updateActor. rewrite exec_bind.
  apply updatePhysics_locked.
  rewrite updateControls_pitFall.
  - destruct (updatePacing_kept dt (updateParticles dt g)) as (_ & _ & _ & _ & Hp1).
    destruct (updateParticles_pitFall dt g) as [Hp2 _].
    rewrite Hp1, Hp2. exact Hp.
  - rewrite updatePacing_state, updateParticles_run. exact E.
Qed.

Lemma locked_fall_has_no_ground_witness :
  dino_onGround (dino (exec (update FIXED_DT) (set_pitFall true playing))) = false.
Proof.
  assert (E : state (run (set_pitFall true playing)) = RUNNING)
    by (vm_compute; reflexivity).
  assert (Hp : pitFall (set_pitFall true playing) = true) by reflexivity.
  pose proof (locked_fall_has_no_ground FIXED_DT (set_pitFall true playing) E Hp) as H.
  cbv zeta in H. exact (proj1 (proj2 H)).
Defined.

Lemma updateControls_airborne (dt : Q) (g : Game) :
  state (run g) = RUNNING ->
  dino_onGround (dino g) = false ->
  coyote (input g) <= 0 -> 0 <= dt ->
  exec (updateControls dt) g =
    set_coyote (Math_max 0 (coyote (input g) - dt)) (set_dino_ducking false g).
Proof.
  intros E Hg Hc Hdt. unfold updateControls. mstep.
  assert (Hduck : applyDuckVisual (downDown (input g)) g = set_dino_ducking false g).
  { unfold applyDuckVisual. rewrite Hg. reflexivity. }
  rewrite Hduck. lookup. rewrite Hg.
  rewrite tryConsumeJump_in_run by exact E.
  lookup. rewrite Hg. cbn [orb].
  assert (Hz : (Math_max 0 (coyote (input g) - dt) >? 0) = false).
  { unfold Qgtb. apply Qltb_ge. minmax; lra. }
  rewrite Hz. destruct (_ <=? _); reflexivity.
Qed.

Lemma integrateGravity_falls (dt : Q) (g : Game) :
  0 < dt -> dino_vy (dino g) < dino_vy (dino (integrateGravity dt g)).
Proof.
  intros Hdt. unfold integrateGravity. cbv zeta.
  repeat match goal with |- context [if ?b then _ else _] => destruct b end;
    lookup; unfold GRAVITY, HOLD_GRAVITY_MULT, FAST_FALL_MULT; lra.
Qed.

Lemma integrateGravity_input (dt : Q) (g : Game) :
  jumpBuffer (input (integrateGravity dt g)) = jumpBuffer (input g) /\
  coyote (input (integrateGravity dt g)) = coyote (input g) /\
  downDown (input (integrateGravity dt g)) = downDown (input g).
Proof.
  unfold integrateGravity. cbv zeta.
  repeat match goal with |- context [if ?b then _ else _] => destruct b end;
    repeat split.
Qed.

(* the settling of the actor after gravity: it lands, or it stays in the
   air with the velocity gravity gave it *)
Lemma updatePhysics_settles (dt : Q) (g : Game) :
  let g' := exec (updatePhysics dt) g in
  jumpBuffer (input g') = jumpBuffer (input g) /\
  coyote (input g') = coyote (input g) /\
  (dino_onGround (dino g') = true \/
   dino_vy (dino g') = dino_vy (dino (integrateGravity dt g))).
Proof.
  cbv zeta. unfold updatePhysics. mstep.
  destruct (integrateGravity_input dt g) as (Hb & Hc & _).
  revert Hb Hc. generalize (integrateGravity dt g). intros g1 Hb Hc.
  set (groundTop := groundY (view g1) - dino_h (dino g1)).
  set (c := negb (pitFall g1) && isOverPit g1
            && (dino_y (dino g1) >? groundTop + PIT_FALL_LOCK_DEPTH)).
  assert (Hlock : input (if c then set_pitFall true g1 else g1) = input g1
                  /\ dino (if c then set_pitFall true g1 else g1) = dino g1).
  { destruct c; split; reflexivity. }
  destruct Hlock as (Hi2 & Hd2).
  revert Hi2 Hd2. generalize (if c then set_pitFall true g1 else g1).
  intros g2 Hi2 Hd2. clear c.
  match goal with |- context [if ?b then _ else _] => destruct b end.
  - mstep. lookup.
    match goal with
    | |- context [exec (when ?landed ?dust) ?gA] =>
        assert (HA : jumpBuffer (input gA) = jumpBuffer (input g2)
                     /\ coyote (input gA) = coyote (input g2)
                     /\ dino_onGround (dino gA) = true);
        [ | assert (HB : input (exec (when landed dust) gA) = input gA
                         /\ dino (exec (when landed dust) gA) = dino gA);
            [ | destruct HA as (H1 & H2 & H3); destruct HB as (H4 & H5);
                rewrite H4, H5, H1, H2, H3, Hi2, Hb, Hc;
                split; [reflexivity | split; [reflexivity | left; reflexivity]] ] ]
    end.
    + match goal with
      | |- context [applyDuckVisual ?d ?x] =>
          destruct (applyDuckVisual_kept d x) as (_ & Hi & _ & _ & _ & Hg & _)
      end.
      rewrite Hi, Hg. lookup. repeat split.
    + match goal with
      | |- context [when ?landed (spawnDust ?x ?y ?n ?i)] =>
          destruct landed; cbn [when]; [ | split; reflexivity];
          match goal with
          | |- context [exec _ ?gA] =>
              destruct (spawnDust_kept x y n i gA) as (_ & _ & Hd & _ & _ & Hi & _)
          end
      end.
      split; [exact Hi | exact Hd].
  - mstep. lookup. rewrite Hi2, Hd2, Hb, Hc.
    split; [reflexivity | split; [reflexivity | right; reflexivity]].
Qed.

(** X20. There is no second jump in the air: in a run in progress, when the
    actor is off the ground and the coyote time is used up, an update with
    a jump still buffered does not perform it. The buffer is only decayed
    by the time step and the coyote time stays at zero; the actor either
    lands on that update or leaves it with a vertical velocity larger than
    before (gravity only, no upward impulse). *)
Theorem no_jump_in_mid_air (dt : Q) (g : Game) :
  state (run g) = RUNNING ->
  dino_onGround (dino g) = false ->
  coyote (input g) <= 0 ->
  0 < dt ->
  let g' := exec (update dt) g in
  jumpBuffer (input g')
    = (if jumpBuffer (input g) >? 0 then Math_max 0 (jumpBuffer (input g) - dt)
       else jumpBuffer (input g)) /\
  coyote (input g') == 0 /\
  (dino_onGround (dino g') = true \/ dino_vy (dino g) < dino_vy (dino g')).
Proof.
  intros E Hg Hc Hdt. cbv zeta.
  destruct (update_running_actor dt g E) as (Hd & Hi & _).
  rewrite Hd, Hi. unfold afterActor, updateActor. rewrite exec_bind.
  destruct (updateParticles_kept dt g) as (_ & _ & _ & Hd0).
  destruct (updateParticles_input dt g) as (_ & _ & Hb0).
  destruct (updateParticles_pitFall dt g) as (_ & Hc0).
  pose proof (updateParticles_run dt g) as Hr0.
  destruct (updatePacing_kept dt (updateParticles dt g)) as (_ & _ & Hd1 & Hi1 & _).
  pose proof (updatePacing_state dt (updateParticles dt g)) as Hs1.
  rewrite <- Hb0. rewrite <- Hi1.
  rewrite Hr0 in Hs1. rewrite Hd0 in Hd1. rewrite <- Hc0, <- Hi1 in Hc.
  rewrite <- Hd1 in Hg. rewrite E in Hs1.
  assert (Hvy : dino_vy (dino g) = dino_vy (dino (updatePacing dt (updateParticles dt g))))
    by (rewrite Hd1; reflexivity).
  rewrite Hvy. clear Hvy Hd0 Hb0 Hc0 Hr0 Hd1 Hi1 Hd Hi E.
  revert Hs1 Hg Hc. generalize (updatePacing dt (updateParticles dt g)).
  intros p Hs Hg Hc.
  rewrite (updateControls_airborne dt p Hs Hg Hc) by lra.
  match goal with |- context [exec (updatePhysics dt) ?x] =>
    destruct (updatePhysics_settles dt x) as (Hb & Hco & Hv);
    pose proof (integrateGravity_falls dt x Hdt) as Hfall
  end.
  rewrite Hb, Hco. lookup.
  split; [reflexivity | split; [minmax; lra | ]].
  destruct Hv as [Hv | Hv]; [left; exact Hv | right].
  rewrite Hv. lookup. exact Hfall.
Qed.

Lemma no_jump_in_mid_air_witness :
  let g := set_coyote 0 (set_dino_onGround false (queueJump playing)) in
  jumpBuffer (input (exec (update FIXED_DT) g))
    = Math_max 0 (JUMP_BUFFER_TIME - FIXED_DT).
Proof.
  cbv zeta.
  set (g := set_coyote 0 (set_dino_onGround false (queueJump playing))).
  assert (E : state (run g) = RUNNING) by (vm_compute; reflexivity).
  assert (Hg : dino_onGround (dino g) = false) by reflexivity.
  assert (Hc : coyote (input g) <= 0) by (vm_compute; discriminate).
  assert (Hdt : 0 < FIXED_DT) by (vm_compute; reflexivity).
  pose proof (no_jump_in_mid_air FIXED_DT g E Hg Hc Hdt) as H.
  cbv zeta in H. exact (proj1 H).
Defined.

(** ** The spawn director *)

(** *** Values drawn while a pattern is built *)

Lemma yields_ret {A : Type} (P : A -> Prop) (a : A) : P a -> yields P (ret a).
Proof. intros H g _. exact H. Qed.

Lemma yields_bind {A B : Type} (Q : A -> Prop) (P : B -> Prop) (m : M A) (k : A -> M B) :
  preserves only_draws m ->
  yields Q m -> (forall a, Q a -> yields P (k a)) -> yields P (bind m k).
Proof.
  intros Hd Hm Hk g Hu. rewrite eval_bind.
  apply Hk; [apply Hm; exact Hu | ].
  specialize (Hd g). unfold only_draws in Hd. unfold exec. rewrite Hd. exact Hu.
Qed.

Lemma yields_any {A : Type} (m : M A) : yields (fun _ => True) m.
Proof. intros g _. exact I. Qed.

Lemma yields_gets {A : Type} (P : A -> Prop) (f : Game -> A) :
  (forall g, P (f g)) -> yields P (gets f).
Proof. intros H g _. apply H. Qed.

Lemma gapBaseFor_floor (st : Stage) (base : Q) (g : Game) : 160 <= gapBaseFor st base g.
Proof. unfold gapBaseFor. cbv zeta. minmax; lra. Qed.

Lemma yields_jitter (n amount : Q) :
  0 <= amount -> yields (fun v => n - amount <= v) (jitter n amount).
Proof.
  intros Ha g Hu. unfold jitter. rewrite eval_bind, eval_ret.
  destruct (rand_between (- amount) amount g Hu) as [Hlo _]; lra.
Qed.

(* [g(base, jitterAmt)] of [buildPatterns] *)
Lemma yields_gap (st : Stage) (base amount : Q) :
  0 <= amount -> amount <= 30 ->
  yields (fun v => 130 <= v)
         (b <- gets (gapBaseFor st base) ;; jitter b amount).
Proof.
  intros H0 H30.
  apply (yields_bind (fun b => 160 <= b)).
  - apply preserves_gets; exact _.
  - apply yields_gets. apply gapBaseFor_floor.
  - intros b Hb g Hu. pose proof (yields_jitter b amount H0 g Hu) as H.
    cbv beta in H. lra.
Qed.

Lemma yields_rLevel (sc : Q) (set : list FlyLevel) :
  (600 <= sc \/ ~ In Level0 set) -> yields (fineLevel sc) (rLevel set).
Proof.
  intros Hset g _. unfold rLevel. rewrite eval_bind, eval_ret.
  destruct (_ <? _)%Z; [exact I | ].
  destruct (nth_error set _) as [l |] eqn:E; [ | exact I].
  apply nth_error_In in E.
  destruct l; try exact I. cbn [fineLevel].
  destruct Hset as [H | H]; [exact H | contradiction].
Qed.

Lemma stage_score (g : Game) :
  match stage g with
  | EARLY => score (run g) < 600
  | MID => 600 <= score (run g) /\ score (run g) < 1600
  | LATE => 1600 <= score (run g)
  end.
Proof.
  unfold stage.
  destruct (score (run g) <? 600) eqn:E1; qprop; [exact E1 | ].
  destruct (score (run g) <? 1600) eqn:E2; qprop; [split; assumption | exact E2].
Qed.

(* one step of the construction of a pattern *)
Ltac yield_step sc :=
  match goal with
  | |- yields _ (bind (rLevel _) _) =>
      apply (yields_bind (fineLevel sc));
      [ apply rLevel_draws
      | apply yields_rLevel; first [left; lra | right; cbn; intuition discriminate]
      | intros ? ? ]
  | |- yields _ (bind (bind (gets (gapBaseFor _ _)) _) _) =>
      apply (yields_bind (fun v => 130 <= v));
      [ frames | apply yields_gap; lra | intros ? ? ]
  | |- yields _ (bind (andM _ _) _) =>
      apply (yields_bind (fun _ => True)); [ frames | apply yields_any | intros ? _ ]
  | |- yields _ (bind Math_random _) =>
      apply (yields_bind (fun _ => True)); [ frames | apply yields_any | intros ? _ ]
  | |- yields _ (bind (if ?b then _ else _) _) =>
      apply (yields_bind (fineLevel sc));
      [ destruct b; frames
      | destruct b;
        [ apply yields_rLevel; first [left; lra | right; cbn; intuition discriminate]
        | apply yields_ret; assumption ]
      | intros ? ? ]
  | |- yields _ (ret _) =>
      repeat match goal with |- context [if ?b then _ else _] => destruct b end;
      cbn [fst snd];
      apply yields_ret; split; cbn [tl];
      repeat constructor; cbn [stepFine fineLevel stepSpaced step_gapBase];
      first [assumption | exact I | lra]
  end.

Lemma buildPatterns_ok (g : Game) (p : Pattern) :
  In p (buildPatterns g) ->
  (patternWeight (stage g) p >? 0) = true ->
  yields (patternOk (score (run g))) (build p).
Proof.
  unfold buildPatterns. cbv zeta. intros Hin Hw.
  pose proof (stage_score g) as Hsc.
  set (sc := score (run g)) in *. clearbody sc.
  destruct (stage g);
    repeat (destruct Hin as [<- | Hin];
            [ cbn [build];
              first [ discriminate Hw | repeat yield_step sc ] | ]);
    destruct Hin.
Qed.

Lemma build_ok (sc : Q) (p : Pattern) :
  preserves only_draws (build p) ->
  yields (patternOk sc) (build p) ->
  yields (pickedOk sc) (steps <- build p ;; ret (Some (pat_id p, steps))).
Proof.
  intros Hd Hy. apply (yields_bind (patternOk sc)); [exact Hd | exact Hy | ].
  intros steps Hs. apply yields_ret. exact Hs.
Qed.

Lemma pickPatternLoop_ok (sc : Q) (st : Stage) (first : Pattern)
    (candidates : list Pattern) (left tries : nat) :
  (preserves only_draws (build first) /\ yields (patternOk sc) (build first)) ->
  (forall p, In p candidates ->
     preserves only_draws (build p) /\ yields (patternOk sc) (build p)) ->
  yields (pickedOk sc) (pickPatternLoop st first candidates left tries).
Proof.
  intros Hfirst Hall. revert tries.
  induction left as [| left IH]; intros tries; cbn [pickPatternLoop].
  - apply (yields_bind (fun _ => True)); [frames | apply yields_any | intros r _].
    destruct (bor0 _ <? 0)%Z; [apply yields_ret; exact I | ].
    destruct (nth_error candidates _) as [fallback |] eqn:E.
    + apply nth_error_In in E. apply build_ok; apply Hall; exact E.
    + apply yields_ret; exact I.
  - apply (yields_bind (fun _ => True)); [frames | apply yields_any | intros u _].
    apply (yields_bind (fun _ => True));
      [apply preserves_gets; exact _ | apply yields_any | intros used _].
    destruct (negb used || (5 <=? tries)%nat); [ | apply IH].
    destruct (weightedScan _ candidates _) as [c |] eqn:E.
    + apply weightedScan_In in E. apply build_ok; apply Hall; exact E.
    + apply build_ok; apply Hfirst.
Qed.

Lemma pickPattern_ok (g : Game) :
  unitDraws (entropy g) -> pickedOk (score (run g)) (eval pickPattern g).
Proof.
  intros Hu. unfold pickPattern. rewrite !eval_bind, !eval_gets, !exec_gets.
  destruct (filter _ (buildPatterns g)) as [| first rest] eqn:E.
  - exact I.
  - assert (Hall : forall p, In p (first :: rest) ->
              preserves only_draws (build p)
              /\ yields (patternOk (score (run g))) (build p)).
    { intros p Hp. rewrite <- E in Hp. apply filter_In in Hp. destruct Hp as [Hin Hw].
      split; [apply (buildPatterns_draws g p Hin) | apply buildPatterns_ok; assumption]. }
    apply pickPatternLoop_ok; [apply Hall; now left | exact Hall | exact Hu].
Qed.

(** *** What the spawn functions do to the schedule *)

#[local] Instance plan_kept_PreOrder : PreOrder plan_kept.
Proof.
  split.
  - intros g. split; reflexivity.
  - intros g1 g2 g3 [H1 H2] [H3 H4]. split; congruence.
Qed.

Ltac frames_plan :=
  repeat frame_step;
  lazymatch goal with
  | |- preserves _ _ => auto with frames
  | |- _ => try solve [split; reflexivity]
  end.

Lemma only_draws_plan {A : Type} (m : M A) :
  preserves only_draws m -> preserves plan_kept m.
Proof.
  intros H g. specialize (H g). unfold only_draws in H.
  rewrite H. split; reflexivity.
Qed.
#[local] Hint Resolve only_draws_plan : frames.

Lemma spawnGroundObstacle_plan (tallBias : Q) :
  preserves plan_kept (spawnGroundObstacle tallBias).
Proof. unfold spawnGroundObstacle, pushOb. frames_plan. Qed.

Lemma spawnFlyer_plan (level : option FlyLevel) : preserves plan_kept (spawnFlyer level).
Proof. unfold spawnFlyer, pushOb. frames_plan. Qed.

Lemma spawnPit_plan (width : option Q) : preserves plan_kept (spawnPit width).
Proof. unfold spawnPit, pushOb. frames_plan. Qed.

Lemma spawnGroundObstacle_last (tallBias : Q) (g : Game) :
  lastKind (sched (exec (spawnGroundObstacle tallBias) g)) = CACTUS /\
  0 <= lastSpawnHardness (sched (exec (spawnGroundObstacle tallBias) g)).
Proof.
  unfold spawnGroundObstacle. rewrite !exec_bind. mstep. unfold pushOb. mstep. lookup.
  split; [reflexivity | ].
  match goal with |- 0 <= computeGroundHardness ?w ?h ?v ?x =>
    assert (H : 0.30 <= computeGroundHardness w h v x)
      by (unfold computeGroundHardness; cbv zeta; apply clamp_bounds; lra)
  end.
  lra.
Qed.

Lemma spawnFlyer_last (level : option FlyLevel) (g : Game) :
  lastKind (sched (exec (spawnFlyer level) g)) = FLYER /\
  0 <= lastSpawnHardness (sched (exec (spawnFlyer level) g)).
Proof.
  unfold spawnFlyer. rewrite exec_bind.
  generalize (eval (match level with Some l => ret l | None => pickFlyLevel end) g).
  generalize (exec (match level with Some l => ret l | None => pickFlyLevel end) g).
  intros g1 l. unfold pushOb. mstep.
  generalize (if (guardAfterPit (sched g1) >? 0) && FlyLevel_eqb l Level0
              then Level1 else l).
  intros u. destruct u; unfold when; cbn [FlyLevel_eqb]; mstep; lookup;
    split; first [reflexivity | lra].
Qed.

Lemma spawnPit_last (width : option Q) (g : Game) :
  lastKind (sched (exec (spawnPit width) g)) = PIT /\
  0 <= lastSpawnHardness (sched (exec (spawnPit width) g)).
Proof. destruct width; split; first [reflexivity | cbn; lra]. Qed.

(** *** The plan of the director is kept *)

#[local] Instance keeps_directed_PreOrder : PreOrder keeps_directed.
Proof.
  split.
  - intros g H. exact H.
  - intros g1 g2 g3 H12 H23 H. auto.
Qed.

Lemma fineLevel_later (sc sc' : Q) (l : option FlyLevel) :
  sc <= sc' -> fineLevel sc l -> fineLevel sc' l.
Proof. intros Hle. destruct l as [[| |] |]; cbn [fineLevel]; intros H; try exact I. lra. Qed.

Lemma stepFine_later (sc sc' : Q) (s : PatternStep) :
  sc <= sc' -> stepFine sc s -> stepFine sc' s.
Proof.
  intros Hle. destruct s; cbn [stepFine]; intros H; try exact H.
  eapply fineLevel_later; eassumption.
Qed.

Lemma stepFine_unsized (sc : Q) (s : PatternStep) : stepFine sc s -> stepUnsized s.
Proof. destruct s; cbn [stepFine stepUnsized]; intros H; first [exact I | destruct H]. Qed.

Lemma pitsApart_snoc (ks : list ObKind) (k : ObKind) :
  pitsApart ks -> (last ks CACTUS = PIT -> k <> PIT) -> pitsApart (ks ++ [k]).
Proof.
  induction ks as [| a ks IH]; intros Hp Hl; [exact I | ].
  destruct ks as [| b ks].
  - cbn. split; [exact Hl | exact I].
  - destruct Hp as [Hab Hp]. cbn [app pitsApart]. split; [exact Hab | ].
    apply IH; [exact Hp | exact Hl].
Qed.

Lemma pitsApart_tail (pre suf : list ObKind) : pitsApart (pre ++ suf) -> pitsApart suf.
Proof.
  induction pre as [| a pre IH]; intros H; [exact H | ].
  apply IH. cbn [app pitsApart] in H.
  destruct (pre ++ suf); [exact I | apply H].
Qed.

Lemma pitsApart_at (front : list ObKind) (a b : ObKind) (back : list ObKind) :
  pitsApart (front ++ a :: b :: back) -> a = PIT -> b <> PIT.
Proof. intros H. apply pitsApart_tail in H. apply H. Qed.

Lemma last_tail (pre suf : list ObKind) :
  suf <> [] -> last (pre ++ suf) CACTUS = last suf CACTUS.
Proof.
  intros Hs. induction pre as [| a pre IH]; [reflexivity | ].
  cbn [app]. rewrite <- IH.
  destruct (pre ++ suf) eqn:E; [ | reflexivity].
  apply app_eq_nil in E. destruct E as [_ E]. contradiction.
Qed.

Lemma kinds_moved (dx : Q) (field : list Ob) :
  map ob_kind (map (moveOb dx) field) = map ob_kind field.
Proof. rewrite map_map. apply map_ext. intros o. reflexivity. Qed.

Lemma directed_moved (g g' : Game) :
  keeps_fair g g' ->
  score (run g) <= score (run g') ->
  obs g' = obs g ->
  lastSpawnHardness (sched g') = lastSpawnHardness (sched g) ->
  nextSpawnDist (sched g') = nextSpawnDist (sched g) ->
  patternQueue (sched g') = patternQueue (sched g) ->
  lastKind (sched g') = lastKind (sched g) ->
  keeps_directed g g'.
Proof.
  intros Hf Hsc Ho Hh Hn Hq Hk
         (Hfair & (Hs1 & Hs2 & Hs3) & Hqu & (Hlow & Hpit & Hap & Hend)).
  split; [apply Hf; exact Hfair | ].
  split; [unfold schedOk; rewrite Hh, Hn; split; [ | split]; first [assumption | lra] | ].
  split.
  - unfold queueOk in *. rewrite Hq. destruct (patternQueue (sched g)); [ | exact I].
    eapply Forall_impl; [ | exact Hqu]. intros s [H1 H2]. split; [exact H1 | ].
    eapply stepFine_later; eassumption.
  - unfold fieldOk, kinds. rewrite Ho, Hk.
    split; [intros H; apply Hlow; lra | ].
    split; [intros H; apply Hpit; lra | ].
    split; assumption.
Qed.

Lemma directed_drawn (g g' : Game) : only_draws g g' -> keeps_directed g g'.
Proof.
  intros H. unfold only_draws in H.
  apply directed_moved; rewrite H; try reflexivity.
  - apply fairField_same; reflexivity.
  - apply Qle_refl.
Qed.

Lemma only_draws_directed {A : Type} (m : M A) :
  preserves only_draws m -> preserves keeps_directed m.
Proof. intros H g. apply directed_drawn, H. Qed.
#[local] Hint Resolve only_draws_directed : frames.

(* an assignment that leaves the score, the obstacles and the plan alone *)
Ltac directed_same :=
  cbv zeta;
  repeat match goal with
  | |- context [if ?b then _ else _] => destruct b
  end;
  first [ reflexivity
        | apply directed_moved;
          [ first [untouched | rescheduled] | apply Qle_refl | reflexivity .. ] ].

Ltac frames_directed :=
  repeat frame_step;
  lazymatch goal with
  | |- preserves _ _ => auto with frames
  | |- _ => try directed_same
  end.

Lemma directed_pushed {A : Type} (m : M A) (g : Game) (o : Ob) :
  keeps_fair g (exec m g) ->
  spawn_frame g (exec m g) ->
  plan_kept g (exec m g) ->
  obs (exec m g) = obs g ++ [o] ->
  lastKind (sched (exec m g)) = ob_kind o ->
  0 <= lastSpawnHardness (sched (exec m g)) ->
  (lowFlyer o = true -> 600 <= score (run g)) ->
  (ob_kind o = PIT -> 120 <= score (run g) /\ lastKind (sched g) <> PIT) ->
  keeps_directed g (exec m g).
Proof.
  intros Hf Hsp [Hq Hn] Ho Hk Hh Hlo Hpi
         (Hfair & (Hs1 & Hs2 & Hs3) & Hqu & (Hlow & Hpit & Hap & Hend)).
  destruct (spawn_frame_kept _ _ Hsp) as (_ & Hr & _).
  split; [apply Hf; exact Hfair | ].
  split; [unfold schedOk; rewrite Hn, Hr; split; [ | split]; assumption | ].
  split; [unfold queueOk; rewrite Hq, Hr; exact Hqu | ].
  unfold fieldOk, kinds. rewrite Hr, Ho, Hk, map_app. cbn [map].
  split; [ | split; [ | split]].
  - intros H. apply Forall_app. split; [apply Hlow; exact H | ].
    constructor; [ | constructor].
    destruct (lowFlyer o); [ | reflexivity]. specialize (Hlo eq_refl). lra.
  - intros H. apply Forall_app. split; [apply Hpit; exact H | ].
    constructor; [ | constructor].
    intros E. destruct (Hpi E) as [H120 _]. lra.
  - apply pitsApart_snoc; [exact Hap | ].
    intros E1 E2. destruct (Hpi E2) as [_ Hnot]. apply Hnot, Hend, E1.
  - intros E. rewrite last_last in E. exact E.
Qed.

Lemma spawnGroundObstacle_directed (tallBias : Q) :
  preserves keeps_directed (spawnGroundObstacle tallBias).
Proof.
  intros g.
  destruct (spawnGroundObstacle_pushed tallBias g) as (v & seed & Ho).
  destruct (spawnGroundObstacle_last tallBias g) as [Hk Hh].
  apply (directed_pushed (spawnGroundObstacle tallBias) g (groundOb v seed g)).
  - apply spawnGroundObstacle_fair.
  - apply spawnGroundObstacle_spawn.
  - apply spawnGroundObstacle_plan.
  - exact Ho.
  - exact Hk.
  - exact Hh.
  - intros E. discriminate E.
  - intros E. discriminate E.
Qed.
#[local] Hint Resolve spawnGroundObstacle_directed : frames.

Lemma allowLow_score (g : Game) : allowLow g -> 600 <= score (run g).
Proof.
  intros H. pose proof (stage_score g) as Hs.
  destruct H as [[E _] | [E _]]; rewrite E in Hs; lra.
Qed.

Lemma flyerOb_lowFlyer (l : FlyLevel) (g : Game) :
  lowFlyer (flyerOb l g) = true -> l = Level0.
Proof. destruct l; intros E; first [reflexivity | discriminate E]. Qed.

Lemma spawnFlyer_directed (level : option FlyLevel) (g : Game) :
  fineLevel (score (run g)) level -> keeps_directed g (exec (spawnFlyer level) g).
Proof.
  intros Hfine.
  destruct (spawnFlyer_exec level g) as [Ho _]. cbv zeta in Ho.
  destruct (spawnFlyer_last level g) as [Hk Hh].
  assert (Hpick : only_draws g
            (exec (match level with Some l => ret l | None => pickFlyLevel end) g)).
  { destruct level; [reflexivity | ].
    apply (preserves_exec only_draws), pickFlyLevel_draws. }
  assert (Hlow : guardedLevel
                   (eval (match level with Some l => ret l | None => pickFlyLevel end) g)
                   (exec (match level with Some l => ret l | None => pickFlyLevel end) g)
                 = Level0 -> 600 <= score (run g)).
  { unfold guardedLevel. destruct (_ && _); [intros E; discriminate E | ].
    destruct level as [l |]; intros E.
    - change (eval (ret l) g) with l in E. subst l. exact Hfine.
    - apply pickFlyLevel_low in E. apply allowLow_score, E. }
  revert Ho Hlow Hpick.
  generalize (guardedLevel
                (eval (match level with Some l => ret l | None => pickFlyLevel end) g)
                (exec (match level with Some l => ret l | None => pickFlyLevel end) g)).
  generalize (exec (match level with Some l => ret l | None => pickFlyLevel end) g).
  intros g1 u Ho Hlow Hpick. unfold only_draws in Hpick.
  assert (Ho1 : obs g1 = obs g) by (rewrite Hpick; reflexivity).
  rewrite Ho1 in Ho.
  apply (directed_pushed (spawnFlyer level) g (flyerOb u g1)).
  - apply spawnFlyer_fair.
  - apply spawnFlyer_spawn.
  - apply spawnFlyer_plan.
  - exact Ho.
  - exact Hk.
  - exact Hh.
  - intros E. apply Hlow. eapply flyerOb_lowFlyer. exact E.
  - intros E. discriminate E.
Qed.

Lemma spawnPit_directed (g : Game) :
  120 <= score (run g) -> lastKind (sched g) <> PIT ->
  keeps_directed g (exec (spawnPit None) g).
Proof.
  intros Hsc Hk.
  destruct (spawnPit_last None g) as [Hk' Hh].
  eapply (directed_pushed (spawnPit None) g).
  - apply spawnPit_None_fair.
  - apply spawnPit_spawn.
  - apply spawnPit_plan.
  - apply spawnPit_random.
  - exact Hk'.
  - exact Hh.
  - intros E. discriminate E.
  - intros _. split; assumption.
Qed.

(** *** One spawn *)

Lemma lands_bind {A B : Type} (g : Game) (m : M A) (k : A -> M B) :
  preserves only_draws m -> (forall a, lands g (k a)) -> lands g (bind m k).
Proof.
  intros Hm Hk g' Hg'. rewrite exec_bind. apply Hk.
  transitivity g'; [exact Hg' | apply Hm].
Qed.

Lemma lands_gets {A B : Type} (g : Game) (f : Game -> A) (k : A -> M B) :
  (forall n, f (with_drawn n g) = f g) -> lands g (k (f g)) -> lands g (bind (gets f) k).
Proof.
  intros Hf Hk g' Hg'. rewrite exec_bind, eval_gets, exec_gets.
  unfold only_draws in Hg'. rewrite Hg' at 1. rewrite Hf. apply Hk.
  exact Hg'.
Qed.

Lemma lands_keeps {A : Type} (g : Game) (m : M A) :
  preserves keeps_directed m -> directed g -> lands g m.
Proof. intros Hm Hd g' Hg'. apply Hm. eapply directed_drawn; eassumption. Qed.

Lemma lands_flyer (g : Game) (level : option FlyLevel) :
  directed g -> fineLevel (score (run g)) level -> lands g (spawnFlyer level).
Proof.
  intros Hd Hfine g' Hg'.
  apply spawnFlyer_directed; [ | eapply directed_drawn; eassumption].
  unfold only_draws in Hg'. rewrite Hg'. exact Hfine.
Qed.

Lemma lands_pit (g : Game) :
  directed g -> 120 <= score (run g) -> lastKind (sched g) <> PIT ->
  lands g (spawnPit None).
Proof.
  intros Hd Hsc Hk g' Hg'.
  apply spawnPit_directed; [ | | eapply directed_drawn; eassumption];
    unfold only_draws in Hg'; rewrite Hg'; assumption.
Qed.

Lemma lands_exec {A : Type} (g : Game) (m : M A) : lands g m -> directed (exec m g).
Proof. intros H. apply H. reflexivity. Qed.

Ltac land_step :=
  lazymatch goal with
  | |- lands _ (bind (gets _) _) => apply lands_gets; [intros ?; reflexivity | ]
  | |- lands _ (bind _ _) => apply lands_bind; [solve [frames] | intros ?]
  | |- lands _ (if ?b then _ else _) => let E := fresh "E" in destruct b eqn:E
  end.

Lemma spawnSingleFair_directed : preserves keeps_directed spawnSingleFair.
Proof.
  intros g Hd. apply lands_exec. unfold spawnSingleFair. cbv zeta.
  repeat land_step.
  all: lazymatch goal with
       | |- lands _ (spawnGroundObstacle ?b) =>
           apply lands_keeps; [exact (spawnGroundObstacle_directed b) | exact Hd]
       | |- lands _ (spawnFlyer _) => apply lands_flyer; [exact Hd | exact I]
       | |- lands _ (spawnPit None) => apply lands_pit; [exact Hd | | ]
       end.
  all: repeat match goal with
              | H : _ && _ = true |- _ => apply andb_prop in H; destruct H
              end.
  - qprop. unfold PIT_SPAWN_SCORE_GATE in *. assumption.
  - intros Hk. rewrite Hk in *. discriminate.
Qed.

Lemma spawnStep_directed (step : PatternStep) (g : Game) :
  stepFine (score (run g)) step -> keeps_directed g (exec (spawnStep step) g).
Proof.
  destruct step as [gap tallBias | gap level | gap width]; cbn [stepFine spawnStep]; intros H.
  - apply spawnGroundObstacle_directed.
  - apply spawnFlyer_directed. exact H.
  - destruct H.
Qed.

(** *** The schedule after a spawn *)

Lemma directed_rescheduled (g g1 : Game) (n : Q) :
  only_draws g g1 -> 130 <= n -> directed g ->
  directed (set_distSinceSpawn 0 (set_nextSpawnDist n g1)).
Proof.
  intros H1 Hn Hd. apply (directed_drawn _ _ H1) in Hd.
  destruct Hd as (Hfair & (Hs1 & Hs2 & Hs3) & Hqu & Hfield).
  split; [ | split; [ | split]].
  - assert (Ha : keeps_fair g1 (set_nextSpawnDist n g1)) by rescheduled.
    assert (Hb : keeps_fair (set_nextSpawnDist n g1)
                   (set_distSinceSpawn 0 (set_nextSpawnDist n g1))) by rescheduled.
    apply Hb, Ha, Hfair.
  - split; [exact Hs1 | split; [exact Hn | exact Hs3]].
  - exact Hqu.
  - exact Hfield.
Qed.

Lemma scheduleNextAfterSpawn_directed : preserves keeps_directed scheduleNextAfterSpawn.
Proof.
  intros g Hd.
  change (snd (scheduleNextAfterSpawn g)) with (exec scheduleNextAfterSpawn g).
  unfold scheduleNextAfterSpawn. rewrite exec_bind, eval_gets, exec_gets.
  pose proof Hd as (Hfair & (Hs1 & _) & Hqu & _).
  destruct (speedFactor_range g) as [Hsf _].
  assert (Hfree : directed
            (exec (lk <- gets (fun g => lastKind (sched g)) ;;
                   lh <- gets (fun g => lastSpawnHardness (sched g)) ;;
                   n <- computeNextSpawnDist lk lh ;;
                   modify (set_nextSpawnDist n) ;;
                   modify (set_distSinceSpawn 0)) g)).
  { mstep.
    apply (directed_rescheduled g); [ | | exact Hd].
    - apply (preserves_exec only_draws), computeNextSpawnDist_draws.
    - destruct (computeNextSpawnDist_window (lastKind (sched g))
                  (lastSpawnHardness (sched g)) g (proj1 Hfair) Hs1) as [Hlo _].
      set (d := eval _ g) in *. clearbody d.
      set (sf := speedFactor g) in *. clearbody sf.
      set (h := lastSpawnHardness (sched g)) in *. clearbody h.
      nra. }
  unfold queueOk in Hqu.
  destruct (patternQueue (sched g)) as [[| next rest] |]; try exact Hfree.
  mstep. apply (directed_rescheduled g); [reflexivity | | exact Hd].
  apply Forall_inv in Hqu. destruct Hqu as [Hsp _]. unfold stepSpaced in Hsp.
  unfold scaledGap.
  set (sf := speedFactor g) in *. clearbody sf.
  set (b := step_gapBase next) in *. clearbody b.
  nra.
Qed.

Lemma directed_queued (g : Game) (q : option (list PatternStep)) :
  fairField g -> schedOk g -> fieldOk g ->
  match q with
  | Some steps => Forall (fun s => stepSpaced s /\ stepFine (score (run g)) s) steps
  | None => True
  end ->
  directed (set_patternQueue q g).
Proof.
  intros Hfair Hs Hf Hq. split; [ | split; [exact Hs | split; [exact Hq | exact Hf]]].
  apply set_patternQueue_fair; [ | exact Hfair].
  destruct q as [steps |]; [ | exact I].
  eapply Forall_impl; [ | exact Hq].
  intros s [_ H]. eapply stepFine_unsized, H.
Qed.

Lemma spawnQueued_directed (step : PatternStep) (rest : list PatternStep) (g : Game) :
  fairField g -> schedOk g -> fieldOk g ->
  stepFine (score (run g)) step ->
  Forall (fun s => stepSpaced s /\ stepFine (score (run g)) s) rest ->
  directed (exec (spawnQueued step rest) g).
Proof.
  intros Hfair Hs Hf Hstep Hrest.
  pose proof (directed_queued g (Some rest) Hfair Hs Hf Hrest) as H1.
  unfold spawnQueued. rewrite exec_bind, exec_modify.
  set (g1 := set_patternQueue (Some rest) g) in *.
  assert (H2 : directed (exec (spawnStep step) g1)) by (apply spawnStep_directed; assumption).
  rewrite exec_bind. set (g2 := exec (spawnStep step) g1) in *. clearbody g2.
  rewrite exec_bind, eval_gets, exec_gets, exec_bind.
  apply scheduleNextAfterSpawn_directed.
  destruct (patternQueue (sched g2)) as [[| s q] |]; unfold when; try exact H2.
  rewrite exec_modify.
  destruct H2 as (Hfair2 & Hs2 & _ & Hf2).
  apply (directed_queued g2 None); [assumption .. | exact I].
Qed.

(** *** The start of a pattern *)

#[local] Instance slate_kept_PreOrder : PreOrder slate_kept.
Proof.
  split.
  - intros g. repeat split.
  - intros g1 g2 g3 (A1 & A2 & A3 & A4 & A5) (B1 & B2 & B3 & B4 & B5).
    repeat split; congruence.
Qed.

Ltac frames_slate :=
  repeat frame_step;
  lazymatch goal with
  | |- preserves _ _ => auto with frames
  | |- _ => try solve [repeat split]
  end.

Lemma only_draws_slate {A : Type} (m : M A) :
  preserves only_draws m -> preserves slate_kept m.
Proof.
  intros H g. specialize (H g). unfold only_draws in H.
  rewrite H. repeat split.
Qed.
#[local] Hint Resolve only_draws_slate : frames.

Lemma setPatternCooldown_plan : preserves plan_kept setPatternCooldown.
Proof. unfold setPatternCooldown. frames_plan. Qed.

Lemma startPattern_slate : preserves slate_kept startPattern.
Proof. unfold startPattern, setPatternCooldown. frames_slate. Qed.

Lemma queueOk_head (sc : Q) (q : list PatternStep) :
  Forall (fun s => stepSpaced s /\ stepFine sc s) q -> patternOk sc q.
Proof.
  intros H. split.
  - eapply Forall_impl; [ | exact H]. intros s [_ Hs]. exact Hs.
  - destruct q as [| s q]; [constructor | ]. cbn [tl].
    apply Forall_inv_tail in H.
    eapply Forall_impl; [ | exact H]. intros x [Hx _]. exact Hx.
Qed.

Lemma patternOk_split (sc : Q) (first : PatternStep) (rest : list PatternStep) :
  patternOk sc (first :: rest) ->
  stepFine sc first /\ Forall (fun s => stepSpaced s /\ stepFine sc s) rest.
Proof.
  intros [Hf Hs]. cbn [tl] in Hs. split; [apply (Forall_inv Hf) | ].
  apply Forall_inv_tail in Hf.
  apply Forall_forall. intros s Hin. split.
  - eapply Forall_forall in Hs; eassumption.
  - eapply Forall_forall in Hf; eassumption.
Qed.

Lemma startPattern_head (g : Game) :
  directed g -> queueHead (exec startPattern g).
Proof.
  intros (Hfair & _ & Hqu & _).
  destruct (startPattern_slate g) as (Hsc & _).
  unfold queueHead. change (snd (startPattern g)) with (exec startPattern g) in Hsc.
  rewrite Hsc. clear Hsc.
  pose proof (pickPattern_ok g (proj1 Hfair)) as Hpick.
  pose proof (pickPattern_draws g) as Hdraw. unfold only_draws in Hdraw.
  unfold startPattern. rewrite exec_bind.
  change (snd (pickPattern g)) with (exec pickPattern g) in Hdraw.
  destruct (eval pickPattern g) as [[id steps] |]; cbn [pickedOk] in Hpick.
  - rewrite !exec_bind, !exec_modify.
    destruct (setPatternCooldown_plan
                (pushRecentPattern id (set_patternQueue (Some steps) (exec pickPattern g))))
      as [Hq _].
    unfold exec. unfold exec in Hq. rewrite Hq. exact Hpick.
  - rewrite exec_ret, Hdraw. lookup.
    unfold queueOk in Hqu. destruct (patternQueue (sched g)); [ | exact I].
    apply queueOk_head, Hqu.
Qed.

Lemma startPattern_planned (g : Game) :
  directed g ->
  fairField (exec startPattern g) /\ schedOk (exec startPattern g) /\
  fieldOk (exec startPattern g) /\ queueHead (exec startPattern g) /\
  score (run (exec startPattern g)) = score (run g).
Proof.
  intros Hd. pose proof (startPattern_head g Hd) as Hh.
  destruct Hd as (Hfair & Hs & _ & Hf).
  destruct (startPattern_slate g) as (Hsc & Ho & Hh' & Hn & Hk).
  change (snd (startPattern g)) with (exec startPattern g) in *.
  split; [apply startPattern_fair; exact Hfair | ].
  split; [unfold schedOk; rewrite Hh', Hn, Hsc; exact Hs | ].
  split; [unfold fieldOk, kinds; rewrite Hsc, Ho, Hk; exact Hf | ].
  split; [exact Hh | exact Hsc].
Qed.

Lemma spawnManagerTick_directed : preserves keeps_directed spawnManagerTick.
Proof.
  intros g Hd.
  change (snd (spawnManagerTick g)) with (exec spawnManagerTick g).
  unfold spawnManagerTick. rewrite exec_bind, eval_gets, exec_gets.
  assert (Hfree : directed
            (exec (start <- canStartPattern ;;
                   when start startPattern ;;
                   q <- gets (fun g => patternQueue (sched g)) ;;
                   match start, q with
                   | true, Some (first :: rest) => spawnQueued first rest
                   | _, _ => spawnSingleFair ;; scheduleNextAfterSpawn
                   end) g)).
  { rewrite exec_bind.
    pose proof (canStartPattern_draws g) as H1.
    change (snd (canStartPattern g)) with (exec canStartPattern g) in H1.
    apply (directed_drawn _ _ H1) in Hd. clear H1.
    revert Hd. generalize (exec canStartPattern g). intros g1 Hd1.
    destruct (eval canStartPattern g).
    - unfold when. rewrite exec_bind.
      destruct (startPattern_planned g1 Hd1) as (Hfair & Hs & Hf & Hh & _).
      revert Hfair Hs Hf Hh. generalize (exec startPattern g1). intros g2 Hfair Hs Hf Hh.
      rewrite exec_bind, eval_gets, exec_gets.
      unfold queueHead in Hh.
      destruct (patternQueue (sched g2)) as [[| first rest] |] eqn:Eq.
      + rewrite exec_bind.
        apply scheduleNextAfterSpawn_directed, spawnSingleFair_directed.
        split; [exact Hfair | split; [exact Hs | split; [ | exact Hf]]].
        unfold queueOk. rewrite Eq. constructor.
      + apply patternOk_split in Hh. destruct Hh as [H1 H2].
        apply spawnQueued_directed; assumption.
      + rewrite exec_bind.
        apply scheduleNextAfterSpawn_directed, spawnSingleFair_directed.
        split; [exact Hfair | split; [exact Hs | split; [ | exact Hf]]].
        unfold queueOk. rewrite Eq. exact I.
    - unfold when. rewrite exec_bind, exec_ret, exec_bind, exec_gets. cbv beta.
      rewrite exec_bind.
      apply scheduleNextAfterSpawn_directed, spawnSingleFair_directed, Hd1. }
  pose proof Hd as (Hfair & Hs & Hqu & Hf). unfold queueOk in Hqu.
  destruct (patternQueue (sched g)) as [[| step rest] |]; try exact Hfree.
  apply spawnQueued_directed; try assumption.
  - apply (Forall_inv Hqu).
  - apply (Forall_inv_tail Hqu).
Qed.

Lemma updateSpawn_directed (dt : Q) : preserves keeps_directed (updateSpawn dt).
Proof.
  pose proof spawnManagerTick_directed.
  unfold updateSpawn. frames_directed.
Qed.

(** *** The tick and the events *)

Lemma directed_fresh (g : Game) :
  fairField g -> obs g = [] -> patternQueue (sched g) = None ->
  0 <= lastSpawnHardness (sched g) -> 130 <= nextSpawnDist (sched g) ->
  0 <= score (run g) ->
  directed g.
Proof.
  intros Hfair Ho Hq Hh Hn Hsc.
  split; [exact Hfair | split; [split; [ | split]; assumption | split]].
  - unfold queueOk. rewrite Hq. exact I.
  - unfold fieldOk, kinds. rewrite Ho. cbn [map last pitsApart].
    split; [intros _; constructor | split; [intros _; constructor | split]].
    + exact I.
    + intros E. discriminate E.
Qed.

Lemma startRunFresh_plan (g : Game) :
  obs (startRunFresh g) = [] /\
  patternQueue (sched (startRunFresh g)) = None /\
  lastSpawnHardness (sched (startRunFresh g)) = 0.55 /\
  nextSpawnDist (sched (startRunFresh g)) = 320 /\
  score (run (startRunFresh g)) = 0.
Proof. repeat split. Qed.

Lemma resetToReady_plan (g : Game) :
  obs (exec resetToReady g) = [] /\
  patternQueue (sched (exec resetToReady g)) = None /\
  lastSpawnHardness (sched (exec resetToReady g)) = 0.55 /\
  nextSpawnDist (sched (exec resetToReady g)) = 360 /\
  score (run (exec resetToReady g)) = 0.
Proof. repeat split. Qed.

Lemma startRunFresh_directed (g : Game) : keeps_directed g (startRunFresh g).
Proof.
  intros (Hfair & _).
  destruct (startRunFresh_plan g) as (Ho & Hq & Hh & Hn & Hsc).
  apply directed_fresh; [apply startRunFresh_fair; exact Hfair | assumption .. | | | ].
  - rewrite Hh. lra.
  - rewrite Hn. lra.
  - rewrite Hsc. lra.
Qed.

Lemma resetToReady_planned (g : Game) :
  fairField (exec resetToReady g) -> directed (exec resetToReady g).
Proof.
  intros Hfair.
  destruct (resetToReady_plan g) as (Ho & Hq & Hh & Hn & Hsc).
  apply directed_fresh; [exact Hfair | assumption .. | | | ].
  - rewrite Hh. lra.
  - rewrite Hn. lra.
  - rewrite Hsc. lra.
Qed.

Lemma resetToReady_directed : preserves keeps_directed resetToReady.
Proof.
  intros g (Hfair & _). apply resetToReady_planned, resetToReady_fair, Hfair.
Qed.
#[local] Hint Resolve resetToReady_directed : frames.

Lemma spawnDust_directed (x y : Q) (count : nat) (intensity : Q) :
  preserves keeps_directed (spawnDust x y count intensity).
Proof.
  induction count as [| n IH]; cbn [spawnDust]; unfold spawnDust1; frames_directed.
Qed.
#[local] Hint Resolve spawnDust_directed : frames.

Lemma performJump_directed : preserves keeps_directed performJump.
Proof. unfold performJump. frames_directed. Qed.
#[local] Hint Resolve performJump_directed : frames.

Lemma tryConsumeJump_directed : preserves keeps_directed tryConsumeJump.
Proof. unfold tryConsumeJump. frames_directed. apply startRunFresh_directed. Qed.
#[local] Hint Resolve tryConsumeJump_directed : frames.

Lemma applyDuckVisual_directed (duck : bool) (g : Game) :
  keeps_directed g (applyDuckVisual duck g).
Proof. unfold applyDuckVisual. directed_same. Qed.

Lemma cutJumpIfNeeded_directed (g : Game) : keeps_directed g (cutJumpIfNeeded g).
Proof. unfold cutJumpIfNeeded. directed_same. Qed.

Lemma gameOver_directed (g : Game) : keeps_directed g (gameOver g).
Proof.
  apply directed_moved; [apply gameOver_fair | | ..];
    unfold gameOver; cbv zeta; destruct (_ >? _); first [apply Qle_refl | reflexivity].
Qed.

Lemma updateParticles_directed (dt : Q) (g : Game) : keeps_directed g (updateParticles dt g).
Proof. unfold updateParticles. directed_same. Qed.

Lemma updatePacing_directed (dt : Q) (g : Game) :
  0 <= dt -> keeps_directed g (updatePacing dt g).
Proof.
  intros Hdt Hd. pose proof Hd as ((_ & Hw & _) & _). revert Hd.
  apply directed_moved; [apply updatePacing_fair; exact Hdt | | ..];
    unfold updatePacing; cbv zeta;
    repeat match goal with |- context [if ?b then _ else _] => destruct b end;
    lookup; try reflexivity.
  all: set (w := worldSpeed (run g)) in *; clearbody w;
       set (s := score (run g)); clearbody s;
       assert (0 <= dt * ((w + 8 * dt) / 20)) by (apply Qmult_le_0_compat; [ | apply Qle_shift_div_l]; lra);
       lra.
Qed.

Lemma updateActor_directed (dt : Q) : preserves keeps_directed (updateActor dt).
Proof.
  unfold updateActor, updateControls, updatePhysics, integrateGravity.
  frames_directed; apply applyDuckVisual_directed.
Qed.

Lemma updateScenery_directed (dt : Q) : preserves keeps_directed (updateScenery dt).
Proof. unfold updateScenery. frames_directed. Qed.

Lemma updateObstacles_directed (dt : Q) (g : Game) : keeps_directed g (updateObstacles dt g).
Proof.
  intros (Hfair & Hs & Hqu & (Hlow & Hpit & Hap & Hend)).
  split; [apply updateObstacles_fair; exact Hfair | ].
  split; [exact Hs | split; [exact Hqu | ]].
  unfold updateObstacles, fieldOk, kinds. cbv zeta. lookup.
  set (dx := worldSpeed (run g) * dt). clearbody dx.
  destruct (shiftWhile_suffix (fun o => ob_x o + ob_w o <? -80) (map (moveOb dx) (obs g)))
    as (gone & Hg & _).
  set (rest := shiftWhile _ _) in *. clearbody rest.
  assert (Hk : map ob_kind (obs g) = map ob_kind gone ++ map ob_kind rest).
  { rewrite <- (kinds_moved dx), Hg, map_app. reflexivity. }
  unfold kinds in Hap, Hend. rewrite Hk in Hap, Hend.
  assert (Hall : forall P : Ob -> Prop,
            (forall o, P o -> P (moveOb dx o)) -> Forall P (obs g) -> Forall P rest).
  { intros P HP H.
    assert (Hm : Forall P (map (moveOb dx) (obs g))).
    { apply Forall_map. eapply Forall_impl; [ | exact H]. exact HP. }
    rewrite Hg in Hm. apply Forall_app in Hm. apply Hm. }
  split; [intros H; apply Hall; [intros o Ho; exact Ho | apply Hlow, H] | ].
  split; [intros H; apply Hall; [intros o Ho; exact Ho | apply Hpit, H] | ].
  split; [eapply pitsApart_tail; exact Hap | ].
  intros E. apply Hend. rewrite last_tail; [exact E | ].
  intros En. rewrite En in E. discriminate E.
Qed.

Lemma updateCollisions_directed (g : Game) : keeps_directed g (updateCollisions g).
Proof.
  unfold updateCollisions. cbv zeta.
  destruct (existsb _ _); [apply gameOver_directed | reflexivity].
Qed.

Lemma update_directed (dt : Q) : 0 <= dt -> preserves keeps_directed (update dt).
Proof.
  intros Hdt. unfold update.
  apply preserves_bind; [exact _ | | intros _].
  { apply preserves_modify. apply updateParticles_directed. }
  apply preserves_bind; [exact _ | apply preserves_gets; exact _ | intros st].
  destruct st.
  - frames_directed.
  - apply preserves_bind; [exact _ | | intros _].
    { apply preserves_modify. intros g. apply updatePacing_directed. exact Hdt. }
    apply preserves_bind; [exact _ | apply updateActor_directed | intros _].
    apply preserves_bind; [exact _ | apply preserves_gets; exact _ | intros fell].
    destruct fell.
    + apply preserves_modify. apply gameOver_directed.
    + apply preserves_bind; [exact _ | apply updateScenery_directed | intros _].
      apply preserves_bind; [exact _ | apply updateSpawn_directed | intros _].
      apply preserves_bind; [exact _ | | intros _].
      * apply preserves_modify. apply updateObstacles_directed.
      * apply preserves_modify. apply updateCollisions_directed.
  - apply preserves_ret; exact _.
Qed.

Lemma resize_directed (rectW rectH : Q) (g : Game) : keeps_directed g (resize rectW rectH g).
Proof. unfold resize. directed_same. Qed.

Lemma handle_directed (ev : Event) : preserves keeps_directed (handle ev).
Proof.
  destruct ev as [e | e | | | rectW rectH |]; cbn [handle].
  - unfold onKeyDown, queueJump. frames_directed;
      first [apply startRunFresh_directed | apply applyDuckVisual_directed].
  - unfold onKeyUp. frames_directed. apply cutJumpIfNeeded_directed.
  - unfold onPointerDown, queueJump. frames_directed. apply startRunFresh_directed.
  - unfold onPointerUp. frames_directed. apply cutJumpIfNeeded_directed.
  - apply preserves_modify. apply resize_directed.
  - apply update_directed, FIXED_DT_pos.
Qed.

Lemma boot_directed (rectW rectH best0 : Q) (draws : nat -> Q) :
  unitDraws draws -> directed (boot rectW rectH best0 draws).
Proof.
  intros Hd. pose proof (boot_fair rectW rectH best0 draws Hd) as Hfair.
  unfold boot in *. apply resetToReady_planned. exact Hfair.
Qed.

(** Every state of a run follows the plan of the director. *)
Lemma reachable_directed (g : Game) : reachable g -> directed g.
Proof.
  induction 1 as [rectW rectH best0 draws Hd | g ev _ IH].
  - now apply boot_directed.
  - now apply handle_directed.
Qed.

Lemma spawnManagerTick_score (g : Game) :
  score (run (exec spawnManagerTick g)) = score (run g).
Proof.
  destruct (spawn_frame_kept _ _ (spawnManagerTick_spawn g)) as (_ & Hr & _).
  unfold exec. rewrite Hr. reflexivity.
Qed.

Lemma pitsApart_separated (field : list Ob) :
  pitsApart (map ob_kind field) -> pitsSeparated field.
Proof.
  intros H front a b back E. rewrite E, map_app in H. cbn [map] in H.
  eapply pitsApart_at. exact H.
Qed.

(** X21. In every state of a run, while the score is below 600 there is no
    flyer of the low flight level on the field, and the next spawn of
    [spawnManagerTick] does not add one. *)
Theorem no_low_flyer_before_600 (g : Game) :
  reachable g -> score (run g) < 600 ->
  Forall (fun o => lowFlyer o = false) (obs g) /\
  Forall (fun o => lowFlyer o = false) (obs (exec spawnManagerTick g)).
Proof.
  intros Hr Hsc. pose proof (reachable_directed g Hr) as Hd.
  pose proof (spawnManagerTick_directed g Hd) as Hd'.
  change (snd (spawnManagerTick g)) with (exec spawnManagerTick g) in Hd'.
  destruct Hd as (_ & _ & _ & (Hlow & _)).
  destruct Hd' as (_ & _ & _ & (Hlow' & _)).
  split; [apply Hlow; exact Hsc | apply Hlow'].
  rewrite spawnManagerTick_score. exact Hsc.
Qed.

Lemma no_low_flyer_before_600_witness :
  Forall (fun o => lowFlyer o = false) (obs (exec spawnManagerTick playing)).
Proof.
  assert (Hsc : score (run playing) < 600) by (vm_compute; reflexivity).
  exact (proj2 (no_low_flyer_before_600 playing playing_reachable Hsc)).
Defined.

Lemma isOverPit_no_pit (g : Game) :
  Forall (fun o => ob_kind o <> PIT) (obs g) -> isOverPit g = false.
Proof.
  intros H. unfold isOverPit. cbv zeta.
  induction H as [| o rest Ho _ IH]; [reflexivity | ].
  cbn [existsb]. rewrite IH, orb_false_r.
  destruct (ob_kind o); first [reflexivity | elim Ho; reflexivity].
Qed.

(** X22. In every state of a run, while the score is below 120 (the pit
    gate) there is no pit on the field, so the actor is not over a pit,
    and the next spawn of [spawnManagerTick] does not add one. *)
Theorem no_pit_before_120 (g : Game) :
  reachable g -> score (run g) < 120 ->
  Forall (fun o => ob_kind o <> PIT) (obs g) /\
  isOverPit g = false /\
  Forall (fun o => ob_kind o <> PIT) (obs (exec spawnManagerTick g)).
Proof.
  intros Hr Hsc. pose proof (reachable_directed g Hr) as Hd.
  pose proof (spawnManagerTick_directed g Hd) as Hd'.
  change (snd (spawnManagerTick g)) with (exec spawnManagerTick g) in Hd'.
  destruct Hd as (_ & _ & _ & (_ & Hpit & _)).
  destruct Hd' as (_ & _ & _ & (_ & Hpit' & _)).
  split; [apply Hpit; exact Hsc | split; [apply isOverPit_no_pit, Hpit, Hsc | apply Hpit']].
  rewrite spawnManagerTick_score. exact Hsc.
Qed.

Lemma no_pit_before_120_witness :
  Forall (fun o => ob_kind o <> PIT) (obs (exec spawnManagerTick playing)).
Proof.
  assert (Hsc : score (run playing) < 120) by (vm_compute; reflexivity).
  exact (proj2 (proj2 (no_pit_before_120 playing playing_reachable Hsc))).
Defined.

(** X23. In every state of a run, two neighbours of the obstacle list are
    never both pits, and this still holds after the next spawn of
    [spawnManagerTick]: a pit is never spawned right after a pit. *)
Theorem pits_never_follow_each_other (g : Game) :
  reachable g ->
  pitsSeparated (obs g) /\ pitsSeparated (obs (exec spawnManagerTick g)).
Proof.
  intros Hr. pose proof (reachable_directed g Hr) as Hd.
  pose proof (spawnManagerTick_directed g Hd) as Hd'.
  change (snd (spawnManagerTick g)) with (exec spawnManagerTick g) in Hd'.
  destruct Hd as (_ & _ & _ & (_ & _ & Hap & _)).
  destruct Hd' as (_ & _ & _ & (_ & _ & Hap' & _)).
  split; apply pitsApart_separated; assumption.
Qed.

Lemma pits_never_follow_each_other_witness :
  pitsSeparated (obs (exec spawnManagerTick playing)).
Proof.
  exact (proj2 (pits_never_follow_each_other playing playing_reachable)).
Defined.

(** X24. In every state of a run the distance scheduled to the next spawn
    is at least 130, and so is the distance that [spawnManagerTick]
    schedules after its spawn, whether the next obstacle comes from a
    pattern or from [computeNextSpawnDist]. *)
Theorem spawns_are_spaced (g : Game) :
  reachable g ->
  130 <= nextSpawnDist (sched g) /\
  130 <= nextSpawnDist (sched (exec spawnManagerTick g)).
Proof.
  intros Hr. pose proof (reachable_directed g Hr) as Hd.
  pose proof (spawnManagerTick_directed g Hd) as Hd'.
  change (snd (spawnManagerTick g)) with (exec spawnManagerTick g) in Hd'.
  destruct Hd as (_ & (_ & Hn & _) & _).
  destruct Hd' as (_ & (_ & Hn' & _) & _).
  split; assumption.
Qed.

Lemma spawns_are_spaced_witness :
  130 <= nextSpawnDist (sched (exec spawnManagerTick playing)).
Proof.
  exact (proj2 (spawns_are_spaced playing playing_reachable)).
Defined.

(** X27. In every state of a run the world speed is at least 260, the
    speed of a fresh run, and the score is not negative; so the lower
    bounds of the clamps in [speedFactor] and [difficulty01] are never in
    effect: the speed factor is [worldSpeed / 260] capped at 2.35 and the
    difficulty is [(worldSpeed - 260) / 700] capped at 1. *)
Theorem pace_stays_above_base (g : Game) :
  reachable g ->
  260 <= worldSpeed (run g) /\ 0 <= score (run g) /\
  speedFactor g == Qmin 2.35 (worldSpeed (run g) / 260) /\
  difficulty01 g == Qmin 1 ((worldSpeed (run g) - 260) / 700).
Proof.
  intros Hr. destruct (reachable_directed g Hr) as ((_ & Hw & _) & (_ & _ & Hsc) & _).
  split; [exact Hw | split; [exact Hsc | ]].
  unfold speedFactor, difficulty01. split; apply clamp_above; try lra.
  - apply Qle_shift_div_l; lra.
  - apply Qle_shift_div_l; lra.
Qed.

Lemma pace_stays_above_base_witness :
  260 <= worldSpeed (run playing) /\ 0 <= score (run playing).
Proof.
  pose proof (pace_stays_above_base playing playing_reachable) as H.
  exact (conj (proj1 H) (proj1 (proj2 H))).
Defined.

(** ** The line above the ground *)

Lemma insertSeg_In (s t : Seg) (segs : list Seg) :
  In t (insertSeg s segs) <-> t = s \/ In t segs.
Proof.
  induction segs as [| u rest IH]; cbn [insertSeg].
  - cbn. intuition congruence.
  - destruct (seg_a s <=? seg_a u); cbn [In]; [intuition congruence | ].
    rewrite IH. intuition congruence.
Qed.

Lemma sortSegs_In (t : Seg) (segs : list Seg) : In t (sortSegs segs) <-> In t segs.
Proof.
  induction segs as [| s rest IH]; cbn [sortSegs]; [reflexivity | ].
  rewrite insertSeg_In, IH. cbn [In]. intuition congruence.
Qed.

Lemma insertSeg_sorted (s : Seg) (segs : list Seg) :
  segsSorted segs -> segsSorted (insertSeg s segs).
Proof.
  induction segs as [| u rest IH]; cbn [insertSeg]; intros Hs.
  - cbn. split; [constructor | exact I].
  - destruct Hs as [Hu Hrest].
    destruct (seg_a s <=? seg_a u) eqn:E; qprop.
    + cbn [segsSorted]. split; [ | split; assumption].
      constructor; [exact E | ].
      eapply Forall_impl; [ | exact Hu]. intros q Hq. cbv beta in Hq. lra.
    + cbn [segsSorted]. split; [ | apply IH; exact Hrest].
      apply Forall_forall. intros q Hq. apply insertSeg_In in Hq.
      destruct Hq as [-> | Hq]; [lra | ].
      eapply Forall_forall in Hu; eassumption.
Qed.

Lemma sortSegs_sorted (segs : list Seg) : segsSorted (sortSegs segs).
Proof.
  induction segs as [| s rest IH]; cbn [sortSegs]; [exact I | ].
  apply insertSeg_sorted, IH.
Qed.

Lemma pitSegmentsVisible_In (s : Seg) (g : Game) :
  In s (pitSegmentsVisible g) <->
  exists o, In o (obs g) /\ ob_kind o = PIT /\
            s = mkSeg (ob_x o) (ob_x o + ob_w o) /\
            -40 <= ob_x o + ob_w o /\ ob_x o <= viewW (view g) + 40.
Proof.
  unfold pitSegmentsVisible. cbv zeta. rewrite sortSegs_In, in_flat_map.
  split.
  - intros (o & Ho & Hs). exists o. split; [exact Ho | ].
    destruct (ob_kind o); cbn [ObKind_eqb negb] in Hs; try destruct Hs.
    destruct (_ <? _) eqn:E1; [destruct Hs | ].
    destruct (_ >? _) eqn:E2; [destruct Hs | ].
    cbn [orb In] in Hs. destruct Hs as [Hs | []]. qprop.
    split; [reflexivity | split; [symmetry; exact Hs | split; assumption]].
  - intros (o & Ho & Hk & Hs & Hb & Ha). exists o. split; [exact Ho | ].
    rewrite Hk. cbn [ObKind_eqb negb].
    assert (E1 : (ob_x o + ob_w o <? -40) = false).
    { destruct (_ <? _) eqn:E; [qprop; lra | reflexivity]. }
    assert (E2 : (ob_x o >? viewW (view g) + 40) = false).
    { destruct (_ >? _) eqn:E; [qprop; lra | reflexivity]. }
    rewrite E1, E2. left. symmetry. exact Hs.
Qed.

Lemma insertSeg_length (s : Seg) (segs : list Seg) :
  List.length (insertSeg s segs) = S (List.length segs).
Proof.
  induction segs as [| u rest IH]; cbn [insertSeg]; [reflexivity | ].
  destruct (seg_a s <=? seg_a u); cbn [List.length]; [reflexivity | ].
  rewrite IH. reflexivity.
Qed.

Lemma sortSegs_length (segs : list Seg) : List.length (sortSegs segs) = List.length segs.
Proof.
  induction segs as [| s rest IH]; cbn [sortSegs]; [reflexivity | ].
  rewrite insertSeg_length, IH. reflexivity.
Qed.

(** X25. [pitSegmentsVisible] returns the spans [x, x + w] of the pits that
    reach into the band from -40 to [viewW + 40], each of them once, in the
    order of their left ends; obstacles of another kind and pits outside
    the band give no segment. *)
Theorem pitSegmentsVisible_sorted_spans (g : Game) :
  segsSorted (pitSegmentsVisible g) /\
  List.length (pitSegmentsVisible g) = List.length (filter (pitInBand g) (obs g)) /\
  forall s, In s (pitSegmentsVisible g) <->
    exists o, In o (obs g) /\ ob_kind o = PIT /\
              s = mkSeg (ob_x o) (ob_x o + ob_w o) /\
              -40 <= ob_x o + ob_w o /\ ob_x o <= viewW (view g) + 40.
Proof.
  split; [apply sortSegs_sorted | split; [ | intros s; apply pitSegmentsVisible_In]].
  unfold pitSegmentsVisible. cbv zeta. rewrite sortSegs_length.
  induction (obs g) as [| o rest IH]; [reflexivity | ].
  cbn [flat_map filter]. rewrite length_app, IH. unfold pitInBand at 2.
  destruct (ObKind_eqb (ob_kind o) PIT); cbn [negb andb]; [ | reflexivity].
  destruct (_ || _); reflexivity.
Qed.

Lemma clamp_mono (n n' a b : Q) : n <= n' -> clamp n a b <= clamp n' a b.
Proof. intros H. minmax; lra. Qed.

(* the rectangles of the sweep start at the cursor or later and end before
   the pits that are still to come *)
Lemma lineSweep_clear (vw y cursor : Q) (pits : list Seg) (r : Rect) :
  segsSorted pits -> In r (lineSweep vw y cursor pits) ->
  cursor <= rx r /\
  forall p, In p pits ->
    rx r + rw r <= clamp (seg_a p) 0 vw \/ clamp (seg_b p) 0 vw <= rx r.
Proof.
  revert cursor. induction pits as [| p rest IH]; intros cursor Hs Hr.
  - cbn [lineSweep] in Hr. destruct (cursor <? vw); [ | destruct Hr].
    destruct Hr as [<- | []]. cbn [rx]. split; [lra | intros q []].
  - destruct Hs as [Hp Hrest]. cbn [lineSweep] in Hr. cbv zeta in Hr.
    apply in_app_or in Hr. destruct Hr as [Hr | Hr].
    + destruct (_ >? cursor) eqn:E; [ | destruct Hr].
      destruct Hr as [<- | []]. cbn [rx rw]. split; [lra | ].
      intros q [<- | Hq]; left.
      * lra.
      * eapply Forall_forall in Hp; [ | exact Hq]. cbv beta in Hp.
        pose proof (clamp_mono _ _ 0 vw Hp). lra.
    + destruct (IH _ Hrest Hr) as [Hc Hall].
      assert (Hm : cursor <= rx r /\ clamp (seg_b p) 0 vw <= rx r).
      { revert Hc. generalize (clamp (seg_b p) 0 vw). intros b Hc.
        unfold Math_max in Hc.
        pose proof (Q.le_max_l cursor b). pose proof (Q.le_max_r cursor b).
        split; lra. }
      split; [apply Hm | ].
      intros q [<- | Hq]; [right; apply Hm | apply Hall; exact Hq].
Qed.

(* a point right of the cursor that no pit covers lies on the line *)
Lemma lineSweep_covers (vw y cursor x : Q) (pits : list Seg) :
  cursor <= x -> x < vw ->
  (forall p, In p pits ->
     ~ (clamp (seg_a p) 0 vw <= x /\ x < clamp (seg_b p) 0 vw)) ->
  exists r, In r (lineSweep vw y cursor pits) /\ onLine x r.
Proof.
  revert cursor. induction pits as [| p rest IH]; intros cursor Hc Hx Hfree.
  - cbn [lineSweep].
    assert (E : (cursor <? vw) = true) by (apply Qltb_lt; lra).
    rewrite E. eexists. split; [left; reflexivity | ].
    unfold onLine. cbn [rx rw]. split; lra.
  - cbn [lineSweep]. cbv zeta.
    destruct (Qlt_le_dec x (clamp (seg_a p) 0 vw)) as [Hlt | Hge].
    + assert (E : (clamp (seg_a p) 0 vw >? cursor) = true).
      { unfold Qgtb. apply Qltb_lt. lra. }
      rewrite E. eexists. split; [left; reflexivity | ].
      unfold onLine. cbn [rx rw]. split; lra.
    + assert (Hb : clamp (seg_b p) 0 vw <= x).
      { destruct (Qlt_le_dec x (clamp (seg_b p) 0 vw)) as [Hlt | H]; [ | exact H].
        exfalso. apply (Hfree p); [now left | split; assumption]. }
      destruct (IH (Math_max cursor (clamp (seg_b p) 0 vw))) as (r & Hr & Hon).
      * unfold Math_max. apply Q.max_lub; assumption.
      * exact Hx.
      * intros q Hq. apply Hfree. now right.
      * exists r. split; [apply in_or_app; right; exact Hr | exact Hon].
Qed.

(** X26. The line that [drawGroundStrip] draws above the ground covers
    exactly the part of the view that is not over a pit: a point [x] of the
    view lies on one of its rectangles if and only if no pit of the field,
    cut to the view, spans it. *)
Theorem ground_line_covers_all_but_pits (g : Game) (x : Q) :
  0 <= x -> x < viewW (view g) ->
  (exists r, In r (groundLine g) /\ onLine x r) <->
  (forall o, In o (obs g) -> ob_kind o = PIT -> ~ overPitSpan (viewW (view g)) x o).
Proof.
  intros H0 Hx. unfold groundLine. set (vw := viewW (view g)) in *. split.
  - intros (r & Hr & [Hr1 Hr2]) o Ho Hk [Ha Hb].
    destruct (lineSweep_clear _ _ _ _ r (sortSegs_sorted _) Hr) as [_ Hall].
    destruct (Qlt_le_dec (ob_x o + ob_w o) (-40)) as [Hout | Hin].
    { revert Hb. unfold clamp. minmax; lra. }
    destruct (Qlt_le_dec (vw + 40) (ob_x o)) as [Hout | Hin'].
    { revert Ha. unfold clamp. minmax; lra. }
    assert (Hs : In (mkSeg (ob_x o) (ob_x o + ob_w o)) (pitSegmentsVisible g)).
    { apply pitSegmentsVisible_In. exists o. repeat split; assumption. }
    destruct (Hall _ Hs) as [H | H]; cbn [seg_a seg_b] in H; lra.
  - intros Hfree. apply lineSweep_covers; [exact H0 | exact Hx | ].
    intros p Hp. apply pitSegmentsVisible_In in Hp.
    destruct Hp as (o & Ho & Hk & -> & _). cbn [seg_a seg_b].
    apply (Hfree o Ho Hk).
Qed.

Lemma ground_line_covers_all_but_pits_witness :
  (exists r, In r (groundLine afterPit) /\ onLine 10 r) <->
  (forall o, In o (obs afterPit) -> ob_kind o = PIT ->
     ~ overPitSpan (viewW (view afterPit)) 10 o).
Proof.
  apply (ground_line_covers_all_but_pits afterPit 10).
  - lra.
  - vm_compute. reflexivity.
Defined.
